(** * PPO agents: the stochastic actor and the discrete training loop

    A shallow embedding of

    - [5.PPO-continuous/nn/cnn_actor.py]: [Stochastic_Actor], the Gaussian
      policy head with optional tanh squashing, and
    - [4.PPO-discrete/PPO_discrete_main.py]: [evaluate_policy] and the
      training loop [main].

    Tensors of the actor are modelled over the real numbers (rounding and
    NaN are not modelled); the scalars of the training loop (rewards,
    losses) are IEEE binary64 values, as Python floats are; Python integers
    are [Z]. *)

From Stdlib Require Import ZArith QArith Floats Reals Lra Lia List Bool String.
Import ListNotations.

(* ================================================================== *)
(** * Part I: definitions                                              *)
(* ================================================================== *)

(** ** cnn_actor.py *)

Module CnnActor.
Local Open Scope R_scope.

(** A dense 2-D tensor (batch x features): its shape and its entries. The
    entries are real numbers: what is proved of them holds of the float32
    entries of the program up to rounding, and a strict inequality between
    reals may become an equality after rounding (tanh of a large float32 is
    exactly 1). *)
Record Tensor := mkTensor { rows : nat; cols : nat; entry : nat -> nat -> R }.

(** Elementwise unary and binary operations. *)
Definition tmap (f : R -> R) (t : Tensor) : Tensor :=
  mkTensor (rows t) (cols t) (fun i j => f (entry t i j)).

Definition tzip (f : R -> R -> R) (a b : Tensor) : Tensor :=
  mkTensor (rows a) (cols a) (fun i j => f (entry a i j) (entry b i j)).

(** [sum_upto n f] is f 0 + ... + f (n-1). *)
Fixpoint sum_upto (n : nat) (f : nat -> R) : R :=
  match n with
  | O => 0
  | S k => sum_upto k f + f k
  end.

(** [t.sum(1, keepdim=True)]: one summed column per row. *)
Definition sum1_keepdim (t : Tensor) : Tensor :=
  mkTensor (rows t) 1 (fun i _ => sum_upto (cols t) (entry t i)).

(** [torch.clamp(x, lo, hi)]. *)
Definition clamp (x lo hi : R) : R := Rmin (Rmax x lo) hi.

(** Broadcasting of a tensor to a shape: a dimension of size 1 is repeated.
    A Python float is a 1 x 1 tensor, a vector of size d a 1 x d tensor. *)
Definition broadcast_to (t : Tensor) (r c : nat) : Tensor :=
  mkTensor r c
    (fun i j => entry t (if Nat.eqb (rows t) 1 then O else i)
                        (if Nat.eqb (cols t) 1 then O else j)).

(** [nn.Linear(in_features, out_features)]: y = x W^T + b. *)
Record Linear := mkLinear {
  in_features : nat;
  out_features : nat;
  weight : nat -> nat -> R;   (* out_features x in_features *)
  bias : nat -> R
}.

Definition Linear_forward (l : Linear) (x : Tensor) : Tensor :=
  mkTensor (rows x) (out_features l)
    (fun i j => sum_upto (in_features l) (fun k => entry x i k * weight l j k)
                + bias l j).

(** [torch.distributions.Normal(loc, scale)]. The location of an actor has
    the full shape (batch x action_dim) and the scale is broadcast to it.
    torch validates that the scale is positive and raises otherwise; the
    model builds the distribution for every scale, so what is proved of a
    distribution built from a [fixed_std] assumes its entries positive (the
    learned standard deviation always is). *)
Record Normal := mkNormal { loc : Tensor; scale : Tensor }.

Definition Normal_init (mu sd : Tensor) : Normal :=
  mkNormal mu (broadcast_to sd (rows mu) (cols mu)).

(** [dist.rsample()]: loc + eps * scale, where [eps] is the standard normal
    draw, one value per entry. The draw is an input of the model. *)
Definition rsample (d : Normal) (eps : nat -> nat -> R) : Tensor :=
  mkTensor (rows (loc d)) (cols (loc d))
    (fun i j => entry (loc d) i j + eps i j * entry (scale d) i j).

(** [dist.log_prob(value)], as torch computes it:
    -((value - loc)^2) / (2 * var) - log(scale) - log(sqrt(2 * pi)). *)
Definition normal_log_prob (m s v : R) : R :=
  - ((v - m) ^ 2) / (2 * s ^ 2) - ln s - ln (sqrt (2 * PI)).

Definition log_prob (d : Normal) (value : Tensor) : Tensor :=
  mkTensor (rows (loc d)) (cols (loc d))
    (fun i j => normal_log_prob (entry (loc d) i j) (entry (scale d) i j)
                                (entry value i j)).

(** The attributes set by [Stochastic_Actor.__init__]. [log_stds] exists
    only when no fixed standard deviation was given. *)
Record Stochastic_Actor := mkActor {
  action_dim : nat;
  env_name : option string;
  means : Linear;
  bounded : bool;
  log_stds : option Linear;
  fixed_std : option Tensor
}.

(** [Stochastic_Actor.__init__]. The two [nn.Linear(latent, action_dim)]
    layers are created with their initial weights and biases, which are
    inputs of the model. *)
Definition Stochastic_Actor_init (latent action_dim : nat)
    (env_name : option string) (bounded : bool) (fixed_std : option Tensor)
    (w_means : nat -> nat -> R) (b_means : nat -> R)
    (w_log_stds : nat -> nat -> R) (b_log_stds : nat -> R)
    : Stochastic_Actor :=
  mkActor action_dim env_name
    (mkLinear latent action_dim w_means b_means)
    bounded
    (match fixed_std with
     | None => Some (mkLinear latent action_dim w_log_stds b_log_stds)
     | Some _ => None
     end)
    fixed_std.

Section Actor.
(** The feature extractor comes from the base classes of nn/cnn_base.py:
    [normalize_state], [cnn_base] and [_base_forward]. The recurrent bases
    keep a hidden state that a call of [_base_forward] reads and advances;
    the model is one call, at the hidden state of that call. *)
Variables State Features : Type.
Variable normalize_state : State -> bool -> State.
Variable cnn_base : State -> Features.
Variable _base_forward : Features -> Tensor.

(** [_get_dist_params]; [None] is the AttributeError of a missing
    [log_stds]. *)
Definition _get_dist_params (self : Stochastic_Actor) (state : State)
    (update : bool) : option (Tensor * Tensor) :=
  let state := normalize_state state update in
  let x := cnn_base state in
  let x := _base_forward x in
  let mu := Linear_forward (means self) x in
  match fixed_std self with
  | None =>
      match log_stds self with
      | Some l =>
          Some (mu, tmap exp (tmap (fun v => clamp v (-2) 1) (Linear_forward l x)))
      | None => None
      end
  | Some std => Some (mu, std)
  end.

(** [stochastic_forward]. The result is the action together with the
    log-probability when [log_probs] is set. [dist] and [sample] are bound
    only on the paths where Python binds them; [None] as a result is an
    exception (an unbound local or the error of [_get_dist_params]). *)
Definition stochastic_forward (self : Stochastic_Actor) (state : State)
    (deterministic update log_probs : bool) (eps : nat -> nat -> R)
    : option (Tensor * option Tensor) :=
  match _get_dist_params self state update with
  | None => None
  | Some (mu, sd) =>
      let dist :=
        if negb deterministic || log_probs then Some (Normal_init mu sd)
        else None in
      let sample := option_map (fun d => rsample d eps) dist in
      let action :=
        if bounded self then
          if deterministic then Some (tmap tanh mu)
          else option_map (tmap tanh) sample
        else
          if deterministic then Some mu else sample in
      match action with
      | None => None
      | Some action =>
          if log_probs then
            match dist, sample with
            | Some dist, Some sample =>
                let log_prob := log_prob dist sample in
                let log_prob :=
                  if bounded self then
                    tzip Rminus log_prob
                      (tmap (fun v => ln ((1 - tanh v ^ 2) + 1e-6)) sample)
                  else log_prob in
                Some (action, Some (sum1_keepdim log_prob))
            | _, _ => None
            end
          else Some (action, None)
      end
  end.

(** [pdf]. *)
Definition pdf (self : Stochastic_Actor) (state : State) : option Normal :=
  match _get_dist_params self state false with
  | Some (mu, sd) => Some (Normal_init mu sd)
  | None => None
  end.
End Actor.

(** The density of the normal distribution N(m, s^2) at [v]. *)
Definition gaussian_density (m s v : R) : R :=
  / (s * sqrt (2 * PI)) * exp (- ((v - m) ^ 2) / (2 * s ^ 2)).

(** The log-probability of a tanh-squashed Gaussian sample as the
    specification words it: Gaussian log-density of the pre-squash sample
    minus log(1 - tanh(sample)^2 + eps), eps = 1e-6, summed over the
    [d] action dimensions of one row. *)
Definition squashed_log_prob_spec (d : nat) (mu sd sample : nat -> R) : R :=
  sum_upto d (fun j =>
    ln (gaussian_density (mu j) (sd j) (sample j))
    - ln (1 - tanh (sample j) ^ 2 + 1e-6)).

End CnnActor.

(** ** PPO_discrete_main.py *)

Module PPOMain.
Local Open Scope Z_scope.

(** *** Values *)

(** An observation is a numpy vector of floats; a discrete action is an
    index. *)
Definition Obs := list float.
Definition Action := Z.

(** Conversion of a Python integer to a float. *)
Definition Z2F (z : Z) : float :=
  if z <? 0 then PrimFloat.opp (PrimFloat.of_uint63 (Uint63.of_Z (- z)))
  else PrimFloat.of_uint63 (Uint63.of_Z z).

Fixpoint zipWith {A B C : Type} (f : A -> B -> C) (l : list A) (m : list B)
  : list C :=
  match l, m with
  | x :: l', y :: m' => f x y :: zipWith f l' m'
  | _, _ => []
  end.

(** The flag [dw] and the other fields of what [replay_buffer.store]
    receives. *)
Record Transition := mkTransition {
  tr_s : Obs;
  tr_a : Action;
  tr_a_logprob : float;
  tr_r : float;
  tr_s_ : Obs;
  tr_dw : bool;
  tr_done : bool
}.

(** *** normalization.py *)

(** Modelled from the spec: normalization.py is not among the sources. The
    running statistics are (running_mean, running_variance, sample_count),
    one mean and variance per dimension. *)
Record RunningStats := mkStats {
  sample_count : Z;
  running_mean : list float;
  running_variance : list float
}.

Definition eps_norm : float := 0x1.5798ee2308c3ap-27%float.  (* 1e-8 *)

(** Modelled from the spec: the incremental update, count <- count + 1;
    delta <- vector - mean; mean <- mean + delta / count; the variance
    follows from delta and the new mean. *)
Definition running_update (st : RunningStats) (x : list float) : RunningStats :=
  let count := sample_count st + 1 in
  let delta := zipWith PrimFloat.sub x (running_mean st) in
  let mean := zipWith (fun m d => (m + d / Z2F count)%float)
                      (running_mean st) delta in
  let incr := zipWith PrimFloat.mul delta (zipWith PrimFloat.sub x mean) in
  let var := zipWith (fun v i => (v + (i - v) / Z2F count)%float)
                     (running_variance st) incr in
  mkStats count mean var.

(** Modelled from the spec: subtract the mean, divide by
    sqrt(variance + eps); the eps is the variance floor of an empty
    normalizer. *)
Definition normalize (st : RunningStats) (x : list float) : list float :=
  zipWith (fun xi mv => ((xi - fst mv) / PrimFloat.sqrt (snd mv + eps_norm))%float)
          x (combine (running_mean st) (running_variance st)).

Record Normalization := mkNormalization { running_ms : RunningStats }.

Definition zeros (shape : nat) : list float := repeat 0%float shape.

Definition Normalization_init (shape : nat) : Normalization :=
  mkNormalization (mkStats 0 (zeros shape) (zeros shape)).

(** Modelled from the spec: [apply(vector, update)]. With [update] the
    vector is first incorporated into the statistics; without, the
    statistics are only read. The object is mutable in Python: the call
    returns the normalizer after the call together with the result. *)
Definition Normalization_call (n : Normalization) (x : list float)
    (update : bool) : Normalization * list float :=
  let n' := if update then mkNormalization (running_update (running_ms n) x)
            else n in
  (n', normalize (running_ms n') x).

(** A scalar reward goes through a normalizer of shape 1. *)
Definition Normalization_call_scalar (n : Normalization) (r : float)
    : Normalization * float :=
  let '(n', v) := Normalization_call n [r] true in
  (n', hd r v).

(** Modelled from the spec: the reward scaler keeps the discounted return
    [R] of the running episode and running statistics of [R]. *)
Record RewardScaling := mkRewardScaling {
  rs_gamma : float;
  rs_R : float;
  rs_running : RunningStats
}.

Definition RewardScaling_init (shape : nat) (gamma : float) : RewardScaling :=
  mkRewardScaling gamma 0%float (mkStats 0 (zeros shape) (zeros shape)).

(** Modelled from the spec: R <- gamma * R + reward; the statistics take
    [R] in; the output is reward / (sqrt(running_variance) + eps). *)
Definition RewardScaling_call (rs : RewardScaling) (x : float)
    : RewardScaling * float :=
  let R := (rs_gamma rs * rs_R rs + x)%float in
  let st := running_update (rs_running rs) [R] in
  (mkRewardScaling (rs_gamma rs) R st,
   (x / (PrimFloat.sqrt (hd 0%float (running_variance st)) + eps_norm))%float).

(** Modelled from the spec: [reset()] zeroes the accumulator [R] only. *)
Definition RewardScaling_reset (rs : RewardScaling) : RewardScaling :=
  mkRewardScaling (rs_gamma rs) 0%float (rs_running rs).

(** *** replaybuffer.py *)

(** Modelled from the spec: replaybuffer.py is not among the sources. An
    ordered sequence of transitions with a capacity and a count. *)
Record ReplayBuffer := mkBuffer {
  capacity : Z;
  count : Z;
  stored : list Transition
}.

Definition ReplayBuffer_init (batch_size : Z) : ReplayBuffer :=
  mkBuffer batch_size 0 [].

(** Modelled from the spec: [store] appends and fails when the buffer is
    already at capacity ([None]). *)
Definition store (b : ReplayBuffer) (t : Transition) : option ReplayBuffer :=
  if count b <? capacity b
  then Some (mkBuffer (capacity b) (count b + 1) (stored b ++ [t]))
  else None.

(** The assignment [replay_buffer.count = c] of the training loop (line
    135, with c = 0). The buffer holds [count] transitions: those beyond the
    new count are no longer part of it, and the next store is the first one
    again. *)
Definition set_count (b : ReplayBuffer) (c : Z) : ReplayBuffer :=
  mkBuffer (capacity b) c (firstn (Z.to_nat c) (stored b)).

(** *** Configuration *)

(** The options read by [main] and [evaluate_policy]; the remaining
    hyperparameters are read only by the agent. [evaluate_freq] is parsed as
    a float and compared with an integer: a finite float is a rational and
    Python compares the two exactly. [state_dim] and [max_episode_steps]
    are filled in by [main] from the environment. *)
Record Args := mkArgs {
  max_train_steps : Z;
  evaluate_freq : Q;
  batch_size : Z;
  gamma : float;
  use_state_norm : bool;
  use_reward_norm : bool;
  use_reward_scaling : bool;
  state_dim : nat;
  max_episode_steps : Z
}.

(** *** Collaborators *)

(** The gym environments [env] and [env_evaluate], the agent
    ([PPO_discrete], ppo_discrete.py), the random number generators and the
    clock are external: their joint state is a [World], and each call maps a
    world to a world and a result. [Params] is what a [state_dict()] holds. *)
Class Collaborators (World Params : Type) := {
  env_observation_dim : World -> nat;
  env_max_episode_steps : World -> Z;
  env_reset : World -> World * Obs;
  env_step : World -> Action -> World * (Obs * float * bool);
  env_evaluate_reset : World -> World * Obs;
  env_evaluate_step : World -> Action -> World * (Obs * float * bool);
  agent_choose_action : World -> Obs -> World * (Action * float);
  agent_evaluate : World -> Obs -> World * Action;
  agent_optimise : World -> list Transition -> Z -> World * (float * float);
  agent_update_count : World -> Z -> Z;
  actor_state_dict : World -> Params;
  critic_state_dict : World -> Params;
  optimizer_actor_state_dict : World -> Params;
  optimizer_critic_state_dict : World -> Params;
  seconds_elapsed : World -> Z
}.

(** *** The trace of calls *)

(** Every call that [main] and [evaluate_policy] make on a collaborator, a
    normalizer or the buffer is recorded, in order. A store is recorded with
    the episode step counter and the buffer count right after it. *)
Inductive Event (Params : Type) :=
| E_env_reset
| E_state_norm (update : bool)
| E_reward_scaling_reset
| E_choose_action (s : Obs) (a : Action) (a_logprob : float)
| E_env_step (a : Action) (r : float) (done : bool)
| E_reward_norm (r : float)
| E_reward_scaling (r : float)
| E_store (t : Transition) (episode_steps : Z) (count_after : Z)
| E_update (batch : list Transition) (total_steps : Z)
| E_log_update (actor_loss critic_loss : float) (total_steps elapsed : Z)
| E_set_count_zero
| E_eval_begin
| E_eval_env_reset
| E_evaluate (s : Obs) (a : Action)
| E_eval_env_step (a : Action) (r : float) (done : bool)
| E_eval_end (reward length : float)
| E_save_best (actor : Params)
| E_log_eval (reward length : float) (total_steps elapsed : Z)
| E_save_checkpoint (total_steps : Z)
    (actor critic optimizer_actor optimizer_critic : Params).

Arguments E_env_reset {Params}.
Arguments E_state_norm {Params}.
Arguments E_reward_scaling_reset {Params}.
Arguments E_choose_action {Params}.
Arguments E_env_step {Params}.
Arguments E_reward_norm {Params}.
Arguments E_reward_scaling {Params}.
Arguments E_store {Params}.
Arguments E_update {Params}.
Arguments E_log_update {Params}.
Arguments E_set_count_zero {Params}.
Arguments E_eval_begin {Params}.
Arguments E_eval_env_reset {Params}.
Arguments E_evaluate {Params}.
Arguments E_eval_env_step {Params}.
Arguments E_eval_end {Params}.
Arguments E_save_best {Params}.
Arguments E_log_eval {Params}.
Arguments E_save_checkpoint {Params}.

(** *** Exceptions and results *)

Inductive Exn :=
| UnboundLocalError (name : string)
| BufferOverflow.

(** A computation returns, raises, or is still running when the fuel of the
    evaluation rollouts is spent. *)
Inductive result (A : Type) :=
| Ok (a : A)
| Raise (e : Exn)
| OutOfFuel.

Arguments Ok {A}.
Arguments Raise {A}.
Arguments OutOfFuel {A}.

Definition bind {A B : Type} (m : result A) (k : A -> result B) : result B :=
  match m with
  | Ok a => k a
  | Raise e => Raise e
  | OutOfFuel => OutOfFuel
  end.

Notation "x <- m ;; k" := (bind m (fun x => k))
  (at level 61, m at next level, right associativity).

(** Reading a local variable that may be unbound. *)
Definition local {A : Type} (name : string) (v : option A) : result A :=
  match v with
  | Some a => Ok a
  | None => Raise (UnboundLocalError name)
  end.

Section Loop.
Context {World Params : Type} {C : Collaborators World Params}.

(** [if args.use_state_norm: x = state_norm(x, update=...)]. *)
Definition norm_if (use : bool) (sn : Normalization) (x : Obs)
    (update : bool) : Normalization * Obs * list (Event Params) :=
  if use then
    let '(sn', y) := Normalization_call sn x update in
    (sn', y, [E_state_norm update])
  else (sn, x, []).

(** *** evaluate_policy *)

(** The loop [while not done] of one evaluation episode (lines 28-35);
    the fuel bounds its iterations. *)
Fixpoint evaluate_episode (fuel : nat) (args : Args) (done : bool)
    (w : World) (sn : Normalization) (s : Obs) (episode_reward : float)
    (episode_length : Z) (tr : list (Event Params)) {struct fuel}
    : option (World * Normalization * float * Z * list (Event Params)) :=
  if done then Some (w, sn, episode_reward, episode_length, tr)
  else
    match fuel with
    | O => None
    | S fuel' =>
        let '(w, a) := agent_evaluate w s in
        let '(w, (s_, r, done)) := env_evaluate_step w a in
        let '(sn, s_, ev) := norm_if (use_state_norm args) sn s_ false in
        evaluate_episode fuel' args done w sn s_
          (episode_reward + r)%float (episode_length + 1)
          (tr ++ [E_evaluate s a; E_eval_env_step a r done] ++ ev)
    end.

(** The loop [for _ in range(epochs)] (lines 21-37). *)
Fixpoint evaluate_epochs (epochs : nat) (fuel : nat) (args : Args)
    (w : World) (sn : Normalization) (reward : float) (length : Z)
    (tr : list (Event Params))
    : option (World * Normalization * float * Z * list (Event Params)) :=
  match epochs with
  | O => Some (w, sn, reward, length, tr)
  | S epochs' =>
      let '(w, s) := env_evaluate_reset w in
      let '(sn, s, ev) := norm_if (use_state_norm args) sn s false in
      match evaluate_episode fuel args false w sn s 0%float 0
              (tr ++ [E_eval_env_reset] ++ ev) with
      | None => None
      | Some (w, sn, episode_reward, episode_length, tr) =>
          evaluate_epochs epochs' fuel args w sn
            (reward + episode_reward)%float (length + episode_length) tr
      end
  end.

(** [evaluate_policy(args, env, agent, state_norm, device)], called with
    [env_evaluate]. It returns (reward / epochs, length / epochs); the
    world and the normalizer object after the call and the calls made
    come with it. *)
Definition evaluate_policy (fuel : nat) (args : Args) (w : World)
    (state_norm : Normalization)
    : option (World * Normalization * (float * float) * list (Event Params)) :=
  let epochs := 3%nat in
  match evaluate_epochs epochs fuel args w state_norm 0%float 0 [] with
  | None => None
  | Some (w, sn, reward, length, tr) =>
      Some (w, sn, ((reward / Z2F (Z.of_nat epochs))%float,
                    (Z2F length / Z2F (Z.of_nat epochs))%float), tr)
  end.

(** *** main *)

(** The local variables of [main], the world and the trace so far. The
    locals [reward_norm] and [reward_scaling] are bound only on some
    paths. *)
Record Locals := mkLocals {
  world : World;
  replay_buffer : ReplayBuffer;
  state_norm : Normalization;
  reward_norm : option Normalization;
  reward_scaling : option RewardScaling;
  total_steps : Z;
  prev_total_steps : Z;
  max_reward : float;
  s : Obs;
  episode_steps : Z;
  episode_reward : float;
  done : bool;
  trace : list (Event Params)
}.

(** Lines 55-57: the dimensions and the horizon come from the
    environment. *)
Definition setup_args (args : Args) (w : World) : Args :=
  mkArgs (max_train_steps args) (evaluate_freq args) (batch_size args)
    (gamma args) (use_state_norm args) (use_reward_norm args)
    (use_reward_scaling args)
    (env_observation_dim w) (env_max_episode_steps w).

(** Lines 43-86: the state before the outer loop. [s], [episode_steps],
    [episode_reward] and [done] are bound by the first episode; their
    values here are never read. The seeding of the random number generators
    and the creation of the environments and of the agent belong to the
    initial world; the progress bar, the [wandb.init] call and the creation
    of the output directories leave no mark on the state. *)
Definition main_init (args : Args) (w : World) : Locals :=
  mkLocals w
    (ReplayBuffer_init (batch_size args))
    (Normalization_init (state_dim args))
    (if use_reward_norm args then Some (Normalization_init 1) else None)
    (if use_reward_norm args then None
     else if use_reward_scaling args
          then Some (RewardScaling_init 1 (gamma args)) else None)
    0 0 neg_infinity [] 0 0%float false [].

(** Lines 88-95: the start of an episode. *)
Definition episode_start (args : Args) (l : Locals) : result Locals :=
  let '(w, s) := env_reset (world l) in
  let '(sn, s, ev_norm) := norm_if (use_state_norm args) (state_norm l) s true in
  rs_ev <- (if use_reward_scaling args then
              rs <- local "reward_scaling" (reward_scaling l) ;;
              Ok (Some (RewardScaling_reset rs), [E_reward_scaling_reset])
            else Ok (reward_scaling l, [])) ;;
  Ok (mkLocals w (replay_buffer l) sn (reward_norm l) (fst rs_ev)
        (total_steps l) (prev_total_steps l) (max_reward l)
        s 0 0%float false
        (trace l ++ [E_env_reset] ++ ev_norm ++ snd rs_ev)).

(** Lines 103-106: the reward goes through the normalizer, else through
    the scaler, else is left as it is. *)
Definition transform_reward (args : Args) (rn : option Normalization)
    (rs : option RewardScaling) (r : float)
    : result (option Normalization * option RewardScaling * float * list (Event Params)) :=
  if use_reward_norm args then
    n <- local "reward_norm" rn ;;
    let '(n', r') := Normalization_call_scalar n r in
    Ok (Some n', rs, r', [E_reward_norm r])
  else if use_reward_scaling args then
    sc <- local "reward_scaling" rs ;;
    let '(sc', r') := RewardScaling_call sc r in
    Ok (rn, Some sc', r', [E_reward_scaling r])
  else Ok (rn, rs, r, []).

(** [agent.update(replay_buffer, total_steps)]; ppo_discrete.py is not among
    the sources. The update reads the transitions of the buffer; what it
    does with them (advantages, epochs of minibatch optimisation) is the
    collaborator [agent_optimise]. The value it leaves in
    [replay_buffer.count] is the collaborator's as well
    ([agent_update_count], from the count before the call): an update that
    drains the buffer, as the specification words it, leaves zero, one that
    only reads the buffer leaves the count as it was. The loop relies on
    neither and resets the count itself. *)
Definition agent_update (w : World) (b : ReplayBuffer) (total_steps : Z)
    : World * ReplayBuffer * list Transition * (float * float) :=
  let batch := stored b in
  let '(w', losses) := agent_optimise w batch total_steps in
  (w', mkBuffer (capacity b) (agent_update_count w (count b)) (stored b),
   batch, losses).

(** Lines 123-135: the update when the buffer is full. *)
Definition update_if_full (args : Args) (w : World) (b : ReplayBuffer)
    (total_steps : Z) : World * ReplayBuffer * list (Event Params) :=
  if count b =? batch_size args then
    let '(w, b, batch, (actor_loss, critic_loss)) :=
      agent_update w b total_steps in
    (w, set_count b 0,
     [E_update batch total_steps;
      E_log_update actor_loss critic_loss total_steps (seconds_elapsed w);
      E_set_count_zero])
  else (w, b, []).

(** Lines 137-160: the evaluation, the best-policy snapshot and the
    checkpoint. The result is the world, the state normalizer,
    [prev_total_steps] and [max_reward] after it. *)
Definition evaluate_if_due (fuel : nat) (args : Args) (w : World)
    (sn : Normalization) (total_steps prev_total_steps : Z)
    (max_reward : float)
    : result (World * Normalization * Z * float * list (Event Params)) :=
  if Qle_bool (evaluate_freq args) (inject_Z (total_steps - prev_total_steps))
  then
    match evaluate_policy fuel args w sn with
    | None => OutOfFuel
    | Some (w, sn, (reward, length), tr) =>
        let best := PrimFloat.leb max_reward reward in
        Ok (w, sn, total_steps,
            (if best then reward else max_reward),
            [E_eval_begin] ++ tr ++ [E_eval_end reward length]
            ++ (if best then [E_save_best (actor_state_dict w)] else [])
            ++ [E_log_eval reward length total_steps (seconds_elapsed w);
                E_save_checkpoint total_steps
                  (actor_state_dict w) (critic_state_dict w)
                  (optimizer_actor_state_dict w)
                  (optimizer_critic_state_dict w)])
    end
  else Ok (w, sn, prev_total_steps, max_reward, []).

(** Lines 97-160: one iteration of the loop [while not done]. *)
Definition inner_body (fuel : nat) (args : Args) (l : Locals)
    : result Locals :=
  let episode_steps := episode_steps l + 1 in
  let '(w, (a, a_logprob)) := agent_choose_action (world l) (s l) in
  let '(w, (s_, r0, done)) := env_step w a in
  let '(sn, s_, ev_norm) :=
    norm_if (use_state_norm args) (state_norm l) s_ true in
  rw <- transform_reward args (reward_norm l) (reward_scaling l) r0 ;;
  let '(rn, rs, r, ev_reward) := rw in
  let episode_reward := (episode_reward l + r)%float in
  let dw :=
    if done && negb (episode_steps =? max_episode_steps args)
    then true else false in
  let t := mkTransition (s l) a a_logprob r s_ dw done in
  match store (replay_buffer l) t with
  | None => Raise BufferOverflow
  | Some b =>
      let total_steps := total_steps l + 1 in
      let '(w, b', ev_update) := update_if_full args w b total_steps in
      ev <- evaluate_if_due fuel args w sn total_steps (prev_total_steps l)
              (max_reward l) ;;
      let '(w, sn, prev_total_steps, max_reward, ev_eval) := ev in
      Ok (mkLocals w b' sn rn rs total_steps prev_total_steps max_reward
            s_ episode_steps episode_reward done
            (trace l
             ++ [E_choose_action (s l) a a_logprob; E_env_step a r0 done]
             ++ ev_norm ++ ev_reward
             ++ [E_store t episode_steps (count b)]
             ++ ev_update ++ ev_eval))
  end.

(** The control points of [main]: the test of the outer loop (line 87),
    the test of the inner loop (line 96), and the end. *)
Inductive PC := AtOuterWhile | AtInnerWhile | Returned.

(** One step: from a loop test through the code up to the next test. *)
Definition step (fuel : nat) (args : Args) (c : PC * Locals)
    : result (PC * Locals) :=
  let '(pc, l) := c in
  match pc with
  | AtOuterWhile =>
      if total_steps l <? max_train_steps args then
        l' <- episode_start args l ;; Ok (AtInnerWhile, l')
      else Ok (Returned, l)
  | AtInnerWhile =>
      if negb (done l) then
        l' <- inner_body fuel args l ;; Ok (AtInnerWhile, l')
      else Ok (AtOuterWhile, l)
  | Returned => Ok (Returned, l)
  end.

(** [n] steps from a control point. *)
Fixpoint run (fuel : nat) (args : Args) (n : nat) (c : PC * Locals)
    : result (PC * Locals) :=
  match n with
  | O => Ok c
  | S k => c' <- run fuel args k c ;; step fuel args c'
  end.

(** [main] after [n] steps of its loops; each evaluation rollout may
    take [fuel] steps per episode. *)
Definition main (fuel : nat) (args0 : Args) (w : World) (n : nat)
    : result (PC * Locals) :=
  let args := setup_args args0 w in
  run fuel args n (AtOuterWhile, main_init args w).
End Loop.

Arguments Locals : clear implicits.

End PPOMain.


(** ** Properties of traces *)

(** The properties of the training loop are read on its trace: each is an
    automaton that a trace has to be accepted by. *)

Module Traces.
Import PPOMain.
Local Open Scope Z_scope.

Section Automata.
Context {Params : Type}.

(** The run of an automaton with partial transition function [delta]. *)
Fixpoint accept {S : Type} (delta : S -> Event Params -> option S) (st : S)
    (tr : list (Event Params)) : option S :=
  match tr with
  | [] => Some st
  | e :: tr' =>
      match delta st e with
      | Some st' => accept delta st' tr'
      | None => None
      end
  end.

(** The events of an evaluation rollout. *)
Definition eval_event (e : Event Params) : bool :=
  match e with
  | E_eval_env_reset | E_evaluate _ _ | E_eval_env_step _ _ _
  | E_state_norm false => true
  | _ => false
  end.

(** The events between the call of [evaluate_policy] and the checkpoint
    that follows it. *)
Definition eval_phase_event (e : Event Params) : bool :=
  match e with
  | E_eval_begin | E_eval_end _ _ | E_save_best _ | E_log_eval _ _ _ _
  | E_save_checkpoint _ _ _ _ _ => true
  | _ => eval_event e
  end.

(** The events of the training part of the loop (lines 88-135). *)
Definition training_event (e : Event Params) : bool :=
  match e with
  | E_env_reset | E_state_norm true | E_reward_scaling_reset
  | E_choose_action _ _ _ | E_env_step _ _ _ | E_reward_norm _
  | E_reward_scaling _ | E_store _ _ _ | E_update _ _
  | E_log_update _ _ _ _ | E_set_count_zero => true
  | _ => false
  end.

(** The applications of the state normalizer. *)
Definition norm_event (e : Event Params) : bool :=
  match e with
  | E_state_norm _ => true
  | _ => false
  end.

(** *** The buffer protocol *)

(** The count grows by one with each store and never beyond the capacity
    [B]; a store that reaches [B] is followed at once by one update, on [B]
    transitions, and, after the log record of the update, by the reset of
    the count; no update or reset happens otherwise. *)
Inductive BufPhase := Filling | MustUpdate | MustReset.

Definition buffer_step (B : Z) (st : Z * BufPhase) (e : Event Params)
    : option (Z * BufPhase) :=
  let '(c, ph) := st in
  match ph, e with
  | Filling, E_store _ _ c' =>
      if (c' =? c + 1) && (c' <=? B)
      then Some (c', if c' =? B then MustUpdate else Filling)
      else None
  | Filling, E_update _ _ => None
  | Filling, E_set_count_zero => None
  | Filling, _ => Some st
  | MustUpdate, E_update batch _ =>
      if Z.of_nat (List.length batch) =? B then Some (c, MustReset) else None
  | MustUpdate, _ => None
  | MustReset, E_log_update _ _ _ _ => Some st
  | MustReset, E_set_count_zero => Some (0, Filling)
  | MustReset, _ => None
  end.

Definition is_update (e : Event Params) : bool :=
  match e with E_update _ _ => true | _ => false end.

Definition count_updates (tr : list (Event Params)) : Z :=
  Z.of_nat (List.length (filter is_update tr)).

(** *** The flag dw *)

(** The state is the number of steps of the running episode and the [done]
    that the environment returned last. Each store carries that [done], the
    next step number, and dw = done and (step number <> max_steps). *)
Definition dw_step (max_steps : Z) (st : Z * option bool) (e : Event Params)
    : option (Z * option bool) :=
  let '(k, d) := st in
  match e with
  | E_env_reset => Some (0, None)
  | E_env_step _ _ done => Some (k, Some done)
  | E_store t es _ =>
      match d with
      | Some done =>
          if (es =? k + 1) && Bool.eqb (tr_done t) done
             && Bool.eqb (tr_dw t) (done && negb (es =? max_steps))
          then Some (es, None) else None
      | None => None
      end
  | _ => Some st
  end.

(** *** Where stored actions come from *)

(** While training, a store takes the state, action and log-probability of
    the last [choose_action], whose action also went to the environment;
    [evaluate] is called only between the start and the end of an
    evaluation rollout, where nothing is chosen, stepped in the training
    environment or stored. *)
Inductive Mode :=
| Training (pending : option (Obs * Action * float))
| Evaluating.

Definition prov_step (m : Mode) (e : Event Params) (m' : Mode) : Prop :=
  match m, e with
  | Training _, E_choose_action s a lp => m' = Training (Some (s, a, lp))
  | Training p, E_env_step a _ _ =>
      (exists s lp, p = Some (s, a, lp)) /\ m' = m
  | Training p, E_store t _ _ =>
      p = Some (tr_s t, tr_a t, tr_a_logprob t) /\ m' = Training None
  | Training _, E_eval_begin => m' = Evaluating
  | Training _, (E_evaluate _ _ | E_eval_env_reset | E_eval_env_step _ _ _
                | E_eval_end _ _) => False
  | Training _, _ => m' = m
  | Evaluating, (E_evaluate _ _ | E_eval_env_reset | E_eval_env_step _ _ _
                | E_state_norm false) => m' = Evaluating
  | Evaluating, E_eval_end _ _ => m' = Training None
  | Evaluating, _ => False
  end.

Fixpoint prov_run (m : Mode) (tr : list (Event Params)) (m' : Mode) : Prop :=
  match tr with
  | [] => m' = m
  | e :: tr' => exists m1, prov_step m e m1 /\ prov_run m1 tr' m'
  end.

(** *** Reward normalization and reward scaling *)

Inductive Transform := ByNorm | ByScaling.

(** The transformation that the options select. *)
Definition expected_transform (args : Args) : option Transform :=
  if use_reward_norm args then Some ByNorm
  else if use_reward_scaling args then Some ByScaling
  else None.

(** The state tells whether the reward of the last environment step still
    awaits its transformation. Only the selected transformation is applied,
    once, and before the store. *)
Definition reward_step (args : Args) (pending : bool) (e : Event Params)
    : option bool :=
  match e with
  | E_env_step _ _ _ =>
      if pending then None
      else Some (match expected_transform args with
                 | Some _ => true
                 | None => false
                 end)
  | E_reward_norm _ =>
      match pending, expected_transform args with
      | true, Some ByNorm => Some false
      | _, _ => None
      end
  | E_reward_scaling _ =>
      match pending, expected_transform args with
      | true, Some ByScaling => Some false
      | _, _ => None
      end
  | E_store _ _ _ => if pending then None else Some false
  | _ => Some pending
  end.

(** *** Snapshots and checkpoints *)

(** The state is the reward of the last best-policy snapshot (minus
    infinity before the first) and what has to come next. After an
    evaluation with reward [r] the snapshot is written exactly when
    best <= r; the log record and the checkpoint follow. *)
Inductive SnapPhase :=
| Idle
| ExpectBest (r : float)
| ExpectLog (total_steps : option Z)
| ExpectCheckpoint (total_steps : Z).

Definition snapshot_step (st : float * SnapPhase) (e : Event Params)
    : option (float * SnapPhase) :=
  let '(best, ph) := st in
  match ph, e with
  | Idle, E_eval_end r _ =>
      Some (best, if PrimFloat.leb best r then ExpectBest r else ExpectLog None)
  | Idle, (E_save_best _ | E_log_eval _ _ _ _ | E_save_checkpoint _ _ _ _ _) =>
      None
  | Idle, _ => Some st
  | ExpectBest r, E_save_best _ => Some (r, ExpectLog None)
  | ExpectBest _, _ => None
  | ExpectLog _, E_log_eval _ _ ts _ => Some (best, ExpectCheckpoint ts)
  | ExpectLog _, _ => None
  | ExpectCheckpoint ts, E_save_checkpoint ts' _ _ _ _ =>
      if ts' =? ts then Some (best, Idle) else None
  | ExpectCheckpoint _, _ => None
  end.

(** The rewards of the evaluations of a trace, in order. *)
Fixpoint eval_rewards (tr : list (Event Params)) : list float :=
  match tr with
  | [] => []
  | E_eval_end r _ :: tr' => r :: eval_rewards tr'
  | _ :: tr' => eval_rewards tr'
  end.

(** The reading of "written only when the reward is a new maximum": every
    snapshot follows an evaluation whose reward is above the rewards of all
    evaluations before it. *)
Definition snapshots_only_at_new_maximum (tr : list (Event Params)) : Prop :=
  forall pre r len p post,
    tr = pre ++ E_eval_end r len :: E_save_best p :: post ->
    forall r', In r' (eval_rewards pre) -> PrimFloat.ltb r' r = true.

(** The writes to disk: the best-policy snapshot and the checkpoint. *)
Definition is_persist (e : Event Params) : bool :=
  match e with
  | E_save_best _ | E_save_checkpoint _ _ _ _ _ => true
  | _ => false
  end.

(** *** The reset of the reward scaler *)

(** The state tells whether the scaler was reset in the running episode.
    It is reset once per episode, after [env.reset()]; with [use_scaling]
    no environment step and no scaling happens before that. *)
Definition reset_step (use_scaling : bool) (st : bool) (e : Event Params)
    : option bool :=
  match e with
  | E_env_reset => Some false
  | E_reward_scaling_reset => if st then None else Some true
  | E_env_step _ _ _ => if use_scaling && negb st then None else Some st
  | E_reward_scaling _ => if st then Some st else None
  | _ => Some st
  end.

End Automata.
End Traces.

(** ** A mock world *)

(** The deterministic environment of the end-to-end scenario: every step
    returns reward 1, and [done] from step [done_at] of an episode on; the
    environment reports [horizon] as its maximum number of steps. An
    evaluation episode ends after one step with reward 1. The agent always
    picks action 0, and its update leaves the count of the buffer as it
    found it. The world is the step counter of the training episode. *)
Module Mock.
Import PPOMain.
Local Open Scope Z_scope.

Definition mock (done_at horizon : Z) : Collaborators Z unit := {|
  env_observation_dim := fun _ => 1%nat;
  env_max_episode_steps := fun _ => horizon;
  env_reset := fun _ => (0, [0%float]);
  env_step := fun w _ => (w + 1, ([Z2F (w + 1)], 1%float, done_at <=? w + 1));
  env_evaluate_reset := fun w => (w, [0%float]);
  env_evaluate_step := fun w _ => (w, ([1%float], 1%float, true));
  agent_choose_action := fun w _ => (w, (0, (-0.5)%float));
  agent_evaluate := fun w _ => (w, 0);
  agent_optimise := fun w _ _ => (w, (0%float, 0%float));
  agent_update_count := fun _ c => c;
  actor_state_dict := fun _ => tt;
  critic_state_dict := fun _ => tt;
  optimizer_actor_state_dict := fun _ => tt;
  optimizer_critic_state_dict := fun _ => tt;
  seconds_elapsed := fun _ => 0
|}.

(** Options of a run: [evaluate_freq] as an integer number of steps. *)
Definition mock_args (max_train evaluate_every batch : Z)
    (state_norm reward_norm reward_scaling : bool) : Args :=
  mkArgs max_train (inject_Z evaluate_every) batch 0.5%float
    state_norm reward_norm reward_scaling 0%nat 0.

(** A feature extractor for the actor: one row of two zero features; and a
    fixed standard deviation of one. *)
Definition mock_base_forward (_ : unit) : CnnActor.Tensor :=
  CnnActor.mkTensor 1 2 (fun _ _ => 0%R).

Definition mock_fixed_std : CnnActor.Tensor :=
  CnnActor.mkTensor 1 1 (fun _ _ => 1%R).

End Mock.
(* ================================================================== *)
(** * Part II: properties                                              *)
(* ================================================================== *)

(** ** The stochastic actor *)

Module CnnActorFacts.
Import CnnActor.
Local Open Scope R_scope.

Lemma sum_upto_ext (n : nat) (f g : nat -> R) :
  (forall j, (j < n)%nat -> f j = g j) -> sum_upto n f = sum_upto n g.
Proof.
  induction n as [|n IH]; intros H; simpl; [reflexivity|].
  rewrite IH by (intros j Hj; apply H; lia).
  rewrite (H n) by lia. reflexivity.
Qed.

Lemma sum_upto_minus (n : nat) (f g : nat -> R) :
  sum_upto n (fun j => f j - g j) = sum_upto n f - sum_upto n g.
Proof. induction n as [|n IH]; simpl; [lra | rewrite IH; lra]. Qed.

Lemma sum_upto_nonneg (n : nat) (f : nat -> R) :
  (forall j, (j < n)%nat -> 0 <= f j) -> 0 <= sum_upto n f.
Proof.
  induction n as [|n IH]; intros H; simpl; [lra|].
  assert (0 <= sum_upto n f) by (apply IH; intros; apply H; lia).
  assert (0 <= f n) by (apply H; lia). lra.
Qed.

Lemma sum_upto_pos (n : nat) (f : nat -> R) :
  (forall j, (j < n)%nat -> 0 <= f j) ->
  (exists j, (j < n)%nat /\ 0 < f j) -> 0 < sum_upto n f.
Proof.
  induction n as [|n IH]; intros H [j [Hj Hp]]; simpl; [lia|].
  assert (0 <= sum_upto n f) by (apply sum_upto_nonneg; intros; apply H; lia).
  assert (0 <= f n) by (apply H; lia).
  destruct (Nat.eq_dec j n) as [->|Hne]; [lra|].
  assert (0 < sum_upto n f); [|lra].
  apply IH; [intros; apply H; lia | exists j; split; [lia | exact Hp]].
Qed.

Lemma sqrt_2PI_pos : 0 < sqrt (2 * PI).
Proof. apply sqrt_lt_R0. pose proof PI_RGT_0. lra. Qed.

(** Torch's formula is the logarithm of the Gaussian density. *)
Lemma normal_log_prob_density (m s v : R) :
  0 < s -> normal_log_prob m s v = ln (gaussian_density m s v).
Proof.
  intros Hs. unfold normal_log_prob, gaussian_density.
  pose proof sqrt_2PI_pos as Hq.
  assert (Hp : 0 < s * sqrt (2 * PI)) by (apply Rmult_lt_0_compat; assumption).
  rewrite ln_mult; [| apply Rinv_0_lt_compat; exact Hp | apply exp_pos].
  rewrite ln_Rinv by exact Hp.
  rewrite ln_mult by assumption.
  rewrite ln_exp. lra.
Qed.

(** At the sample loc + eps * scale the log-density is the one at the mean
    less eps^2 / 2. *)
Lemma normal_log_prob_at_sample (m s e : R) :
  s <> 0 ->
  normal_log_prob m s (m + e * s) = normal_log_prob m s m - e ^ 2 / 2.
Proof.
  intros Hs. unfold normal_log_prob. field. exact Hs.
Qed.

Lemma clamp_bounds (x lo hi : R) : lo <= hi -> lo <= clamp x lo hi <= hi.
Proof.
  intros H. unfold clamp. split.
  - apply Rmin_glb; [apply Rmax_r | exact H].
  - apply Rmin_r.
Qed.

Lemma exp_le (x y : R) : x <= y -> exp x <= exp y.
Proof.
  intros [H | ->]; [left; apply exp_increasing; exact H | right; reflexivity].
Qed.

Lemma exp_clamp_bounds (x : R) :
  exp (-2) <= exp (clamp x (-2) 1) <= exp 1 /\ 0 < exp (clamp x (-2) 1).
Proof.
  pose proof (clamp_bounds x (-2) 1 ltac:(lra)) as [H1 H2].
  repeat split; [apply exp_le; exact H1 | apply exp_le; exact H2 | apply exp_pos].
Qed.

End CnnActorFacts.

Section ActorProperties.
Import CnnActor CnnActorFacts.
Local Open Scope R_scope.

Variables State Features : Type.
Variable normalize_state : State -> bool -> State.
Variable cnn_base : State -> Features.
Variable _base_forward : Features -> Tensor.

Let get_params := _get_dist_params State Features normalize_state cnn_base
                    _base_forward.
Let forward := stochastic_forward State Features normalize_state cnn_base
                 _base_forward.

(** The scale of the distribution is positive wherever the standard
    deviation returned by [_get_dist_params] is. *)
Lemma Normal_init_scale_pos (mu sd : Tensor) :
  (forall i j, 0 < entry sd i j) ->
  forall i j, 0 < entry (scale (Normal_init mu sd)) i j.
Proof. intros H i j. simpl. apply H. Qed.

(** What [_get_dist_params] returns for an actor built by [__init__]. *)
Lemma get_dist_params_init latent action_dim en b fstd wm bm wl bl state update :
  get_params (Stochastic_Actor_init latent action_dim en b fstd wm bm wl bl)
    state update
  = let x := _base_forward (cnn_base (normalize_state state update)) in
    Some (Linear_forward (mkLinear latent action_dim wm bm) x,
          match fstd with
          | None => tmap exp (tmap (fun v => clamp v (-2) 1)
                      (Linear_forward (mkLinear latent action_dim wl bl) x))
          | Some std => std
          end).
Proof.
  unfold get_params, _get_dist_params, Stochastic_Actor_init; simpl.
  destruct fstd; reflexivity.
Qed.

(** The standard deviation of an actor built by [__init__] is positive when
    the fixed one, if any, is. *)
Lemma init_std_pos latent action_dim en b fstd wm bm wl bl state update mu sd :
  match fstd with
  | Some t => forall i j, 0 < entry t i j
  | None => True
  end ->
  get_params (Stochastic_Actor_init latent action_dim en b fstd wm bm wl bl)
    state update = Some (mu, sd) ->
  forall i j, 0 < entry sd i j.
Proof.
  intros Hpos Hget i j. rewrite get_dist_params_init in Hget.
  cbv zeta in Hget. injection Hget as _ <-.
  destruct fstd as [t|]; [apply Hpos | simpl; apply exp_pos].
Qed.

(** C10: without a fixed standard deviation, [_get_dist_params] returns
    exp(clamp(log_stds(x), -2, 1)); every entry of it lies in
    [exp(-2), exp(1)] and is positive, so the scale of the Normal
    distribution that [stochastic_forward] and [pdf] build is positive. *)
Theorem learned_std_within_bounds latent action_dim en b wm bm wl bl
    (state : State) (update : bool) :
  let self := Stochastic_Actor_init latent action_dim en b None wm bm wl bl in
  let x := _base_forward (cnn_base (normalize_state state update)) in
  exists mu sd,
    get_params self state update = Some (mu, sd)
    /\ (forall i j,
          entry sd i j
          = exp (clamp (entry (Linear_forward
                                 (mkLinear latent action_dim wl bl) x) i j)
                       (-2) 1))
    /\ (forall i j, exp (-2) <= entry sd i j <= exp 1 /\ 0 < entry sd i j)
    /\ (forall i j, 0 < entry (scale (Normal_init mu sd)) i j)
    /\ (exists d,
          pdf State Features normalize_state cnn_base _base_forward self state
          = Some d
          /\ forall i j, 0 < entry (scale d) i j).
Proof.
  intros self x. subst self.
  eexists _, _. split; [apply get_dist_params_init|].
  split; [intros i j; reflexivity|].
  split; [intros i j; simpl; apply exp_clamp_bounds|].
  split; [intros i j; simpl; apply exp_pos|].
  unfold pdf.
  change (_get_dist_params State Features normalize_state cnn_base _base_forward)
    with get_params.
  rewrite get_dist_params_init. cbv zeta.
  eexists. split; [reflexivity|].
  intros i j. simpl. apply exp_pos.
Qed.

(** What [stochastic_forward] returns when the log-probability is asked
    for. *)
Lemma forward_log_probs self state deterministic update eps mu sd :
  get_params self state update = Some (mu, sd) ->
  let dist := Normal_init mu sd in
  let sample := rsample dist eps in
  forward self state deterministic update true eps
  = Some ((if bounded self
           then if deterministic then tmap tanh mu else tmap tanh sample
           else if deterministic then mu else sample),
          Some (sum1_keepdim
                  (if bounded self
                   then tzip Rminus (log_prob dist sample)
                          (tmap (fun v => ln ((1 - tanh v ^ 2) + 1e-6)) sample)
                   else log_prob dist sample))).
Proof.
  intros Hget dist sample. unfold forward, stochastic_forward.
  fold get_params. rewrite Hget.
  rewrite orb_true_r. simpl.
  destruct (bounded self), deterministic; reflexivity.
Qed.

(** C3: for a bounded actor, the log-probability that [stochastic_forward]
    returns is, for every row, the sum over the action dimensions of the
    Gaussian log-density of the pre-squash sample minus
    log(1 - tanh(sample)^2 + 1e-6); it has a single column. *)
Theorem bounded_log_prob_is_squashed_density latent action_dim en fstd
    wm bm wl bl (state : State) (deterministic update : bool)
    (eps : nat -> nat -> R) :
  match fstd with
  | Some t => forall i j, 0 < entry t i j
  | None => True
  end ->
  let self := Stochastic_Actor_init latent action_dim en true fstd wm bm wl bl in
  exists mu sd action lp,
    get_params self state update = Some (mu, sd)
    /\ forward self state deterministic update true eps
       = Some (action, Some lp)
    /\ rows lp = rows mu /\ cols lp = 1%nat
    /\ forall i c,
         entry lp i c
         = squashed_log_prob_spec action_dim
             (entry mu i)
             (entry (scale (Normal_init mu sd)) i)
             (entry (rsample (Normal_init mu sd) eps) i).
Proof.
  intros Hpos self.
  destruct (get_params self state update) as [[mu sd]|] eqn:Hget.
  2:{ subst self. rewrite get_dist_params_init in Hget. discriminate. }
  pose proof (init_std_pos _ _ _ _ _ _ _ _ _ _ _ _ _ Hpos Hget) as Hsd.
  exists mu, sd. eexists _, _.
  split; [reflexivity|].
  split; [apply forward_log_probs; exact Hget|].
  assert (Hcols : cols mu = action_dim).
  { subst self. rewrite get_dist_params_init in Hget. cbv zeta in Hget.
    injection Hget as <- _. reflexivity. }
  subst self. simpl.
  split; [reflexivity|]. split; [reflexivity|].
  intros i c. rewrite Hcols. unfold squashed_log_prob_spec.
  apply sum_upto_ext. intros j _.
  rewrite normal_log_prob_density; [reflexivity|]. apply Hsd.
Qed.

(** C9: with [deterministic] and [log_probs] both set, the action is the
    (squashed) mean, which does not depend on the random draw, while the
    log-probability is evaluated at the sample loc + eps * scale. For an
    unbounded actor it is the log-density at the returned action less the
    sum of eps^2 / 2, hence strictly smaller as soon as one draw is
    nonzero. *)
Theorem deterministic_log_prob_is_of_a_sample latent action_dim en b fstd
    wm bm wl bl (state : State) (update : bool) (eps : nat -> nat -> R) :
  match fstd with
  | Some t => forall i j, 0 < entry t i j
  | None => True
  end ->
  let self := Stochastic_Actor_init latent action_dim en b fstd wm bm wl bl in
  exists mu sd action lp,
    get_params self state update = Some (mu, sd)
    /\ forward self state true update true eps = Some (action, Some lp)
    /\ action = (if b then tmap tanh mu else mu)
    /\ (forall i c,
          entry lp i c
          = sum_upto action_dim (fun j =>
              let m := entry mu i j in
              let sc := entry (scale (Normal_init mu sd)) i j in
              let x := m + eps i j * sc in
              normal_log_prob m sc x
              - (if b then ln (1 - tanh x ^ 2 + 1e-6) else 0)))
    /\ (b = false ->
        forall i c,
          let at_action :=
            sum_upto action_dim (fun j =>
              normal_log_prob (entry mu i j)
                (entry (scale (Normal_init mu sd)) i j) (entry action i j)) in
          entry lp i c
          = at_action - sum_upto action_dim (fun j => eps i j ^ 2 / 2)
          /\ ((exists j, (j < action_dim)%nat /\ eps i j <> 0) ->
              entry lp i c < at_action)).
Proof.
  intros Hpos self.
  destruct (get_params self state update) as [[mu sd]|] eqn:Hget.
  2:{ subst self. rewrite get_dist_params_init in Hget. discriminate. }
  pose proof (init_std_pos _ _ _ _ _ _ _ _ _ _ _ _ _ Hpos Hget) as Hsd.
  assert (Hcols : cols mu = action_dim).
  { subst self. rewrite get_dist_params_init in Hget. cbv zeta in Hget.
    injection Hget as <- _. reflexivity. }
  assert (Hb : bounded self = b) by reflexivity.
  exists mu, sd. eexists _, _.
  split; [reflexivity|].
  split; [apply forward_log_probs; exact Hget|].
  rewrite Hb. split; [reflexivity|].
  assert (Hlp : forall i c,
    entry (sum1_keepdim
             (if b
              then tzip Rminus
                     (log_prob (Normal_init mu sd)
                        (rsample (Normal_init mu sd) eps))
                     (tmap (fun v => ln ((1 - tanh v ^ 2) + 1e-6))
                        (rsample (Normal_init mu sd) eps))
              else log_prob (Normal_init mu sd)
                     (rsample (Normal_init mu sd) eps))) i c
    = sum_upto action_dim (fun j =>
        let m := entry mu i j in
        let sc := entry (scale (Normal_init mu sd)) i j in
        let x := m + eps i j * sc in
        normal_log_prob m sc x
        - (if b then ln (1 - tanh x ^ 2 + 1e-6) else 0))).
  { intros i c. destruct b; simpl; rewrite Hcols;
      apply sum_upto_ext; intros j _; simpl; [reflexivity | lra]. }
  split; [exact Hlp|].
  intros ->. intros i c at_action. subst at_action.
  assert (Heq : entry (sum1_keepdim
                         (log_prob (Normal_init mu sd)
                            (rsample (Normal_init mu sd) eps))) i c
                = sum_upto action_dim (fun j =>
                    normal_log_prob (entry mu i j)
                      (entry (scale (Normal_init mu sd)) i j) (entry mu i j))
                  - sum_upto action_dim (fun j => eps i j ^ 2 / 2)).
  { rewrite <- sum_upto_minus. simpl. rewrite Hcols.
    apply sum_upto_ext. intros j _.
    apply normal_log_prob_at_sample.
    apply Rgt_not_eq. apply (Normal_init_scale_pos mu sd Hsd). }
  split; [exact Heq|].
  intros [j [Hj Hne]]. rewrite Heq.
  assert (0 < sum_upto action_dim (fun j => eps i j ^ 2 / 2)); [|lra].
  apply sum_upto_pos.
  - intros k _. pose proof (pow2_ge_0 (eps i k)). lra.
  - exists j. split; [exact Hj|].
    destruct (Rtotal_order (eps i j) 0) as [H|[H|H]]; [nra | contradiction | nra].
Qed.

(** With [deterministic] set the action is the mean of the distribution,
    squashed by tanh when the actor is bounded, whatever [log_probs] and
    the random draw are. *)
Lemma deterministic_action_is_mean latent action_dim en b fstd
    wm bm wl bl (state : State) (update log_probs : bool)
    (eps : nat -> nat -> R) :
  let self := Stochastic_Actor_init latent action_dim en b fstd wm bm wl bl in
  exists mu sd out,
    get_params self state update = Some (mu, sd)
    /\ loc (Normal_init mu sd) = mu
    /\ forward self state true update log_probs eps = Some out
    /\ fst out = (if b then tmap tanh mu else mu).
Proof.
  intros self.
  destruct (get_params self state update) as [[mu sd]|] eqn:Hget.
  2:{ subst self. rewrite get_dist_params_init in Hget. discriminate. }
  exists mu, sd. unfold forward, stochastic_forward. fold get_params.
  rewrite Hget. simpl.
  destruct b, log_probs; simpl; eexists; repeat split; reflexivity.
Qed.

End ActorProperties.

(** ** The training loop *)

Module MainFacts.
Import PPOMain Traces.
Local Open Scope Z_scope.

Section Facts.
Context {World Params : Type} {C : Collaborators World Params}.

(** *** Automata *)

Lemma accept_app {S : Type} (delta : S -> Event Params -> option S) st t1 t2 :
  accept delta st (t1 ++ t2)
  = match accept delta st t1 with
    | Some s1 => accept delta s1 t2
    | None => None
    end.
Proof.
  revert st. induction t1 as [|e t1 IH]; intros st; simpl; [reflexivity|].
  destruct (delta st e); [apply IH | reflexivity].
Qed.

Lemma accept_stutter {S : Type} (delta : S -> Event Params -> option S) st tr :
  Forall (fun e => delta st e = Some st) tr -> accept delta st tr = Some st.
Proof.
  induction 1 as [|e tr He _ IH]; simpl; [reflexivity|].
  rewrite He. exact IH.
Qed.

Lemma prov_run_app m t1 m1 t2 m2 :
  prov_run (Params := Params) m t1 m1 -> prov_run m1 t2 m2 ->
  prov_run m (t1 ++ t2) m2.
Proof.
  revert m. induction t1 as [|e t1 IH]; intros m H1 H2; simpl in *.
  - subst m1. exact H2.
  - destruct H1 as [m' [Hs Hr]]. exists m'. split; [exact Hs|].
    apply IH; assumption.
Qed.

Lemma prov_run_eval tr :
  Forall (fun e => eval_event (Params := Params) e = true) tr ->
  prov_run Evaluating tr Evaluating.
Proof.
  induction 1 as [|e tr He _ IH]; simpl; [reflexivity|].
  exists Evaluating. split; [|exact IH].
  destruct e; try discriminate; simpl; try reflexivity.
  destruct update; [discriminate | reflexivity].
Qed.

Lemma count_updates_app (t1 t2 : list (Event Params)) :
  count_updates (t1 ++ t2) = count_updates t1 + count_updates t2.
Proof.
  unfold count_updates. rewrite filter_app, length_app. lia.
Qed.

Lemma count_updates_eval (tr : list (Event Params)) :
  Forall (fun e => eval_event e = true) tr -> count_updates tr = 0.
Proof.
  unfold count_updates. induction 1 as [|e tr He _ IH]; [reflexivity|].
  simpl. destruct e; try discriminate; simpl; exact IH.
Qed.

(** *** The normalizer *)

Lemma Normalization_call_read_only (sn : Normalization) (x : list float) :
  fst (Normalization_call sn x false) = sn.
Proof. reflexivity. Qed.

Lemma norm_if_inv use sn x u sn' y (ev : list (Event Params)) :
  norm_if use sn x u = (sn', y, ev) ->
  (use = true /\ Normalization_call sn x u = (sn', y) /\ ev = [E_state_norm u])
  \/ (use = false /\ sn' = sn /\ y = x /\ ev = []).
Proof.
  unfold norm_if. destruct use.
  - destruct (Normalization_call sn x u) as [sn1 y1]. simpl. intros H.
    injection H as <- <- <-. left. repeat split.
  - intros H. injection H as <- <- <-. right. repeat split.
Qed.

Lemma norm_if_read_only use sn x sn' y (ev : list (Event Params)) :
  norm_if use sn x false = (sn', y, ev) ->
  sn' = sn /\ Forall (fun e => e = E_state_norm false) ev.
Proof.
  intros H. apply norm_if_inv in H as [[_ [H ->]] | [_ [-> [_ ->]]]].
  - injection H as <- _. split; [reflexivity | repeat constructor].
  - split; [reflexivity | constructor].
Qed.

(** *** evaluate_policy *)

(** The events that an evaluation rollout may make: the calls on the
    evaluation environment and on the agent's [evaluate], and the reading
    application of the normalizer. *)
Definition rollout_event (e : Event Params) : Prop :=
  eval_event e = true.

Lemma rollout_event_norm (ev : list (Event Params)) :
  Forall (fun e => e = E_state_norm false) ev -> Forall rollout_event ev.
Proof. intros H. eapply Forall_impl; [|exact H]. intros e ->. reflexivity. Qed.

Lemma evaluate_episode_inv fuel args done w sn s er el
    (tr : list (Event Params)) w' sn' er' el' tr' :
  evaluate_episode fuel args done w sn s er el tr
  = Some (w', sn', er', el', tr') ->
  sn' = sn /\ exists evs, tr' = tr ++ evs /\ Forall rollout_event evs.
Proof.
  revert done w sn s er el tr.
  induction fuel as [|fuel IH]; intros done w sn s er el tr H; simpl in H.
  - destruct done; [|discriminate]. injection H as _ <- _ _ <-.
    split; [reflexivity|]. exists []. rewrite app_nil_r. split; constructor.
  - destruct done.
    + injection H as _ <- _ _ <-.
      split; [reflexivity|]. exists []. rewrite app_nil_r. split; constructor.
    + destruct (agent_evaluate w s) as [w1 a].
      destruct (env_evaluate_step w1 a) as [w2 [[s_ r] d]].
      destruct (norm_if (use_state_norm args) sn s_ false)
        as [[sn1 s1] ev] eqn:Hn.
      apply norm_if_read_only in Hn as [-> Hev].
      apply IH in H as [-> [evs [-> Hevs]]].
      split; [reflexivity|].
      exists ([E_evaluate s a; E_eval_env_step a r d] ++ ev ++ evs).
      split; [rewrite <- !app_assoc; reflexivity|].
      repeat constructor. apply Forall_app. split; [|exact Hevs].
      apply rollout_event_norm; exact Hev.
Qed.

Lemma evaluate_epochs_inv epochs fuel args w sn reward length
    (tr : list (Event Params)) w' sn' reward' length' tr' :
  evaluate_epochs epochs fuel args w sn reward length tr
  = Some (w', sn', reward', length', tr') ->
  sn' = sn /\ exists evs, tr' = tr ++ evs /\ Forall rollout_event evs.
Proof.
  revert w sn reward length tr.
  induction epochs as [|epochs IH]; intros w sn reward length tr H; simpl in H.
  - injection H as _ <- _ _ <-. split; [reflexivity|].
    exists []. rewrite app_nil_r. split; constructor.
  - destruct (env_evaluate_reset w) as [w1 s1].
    destruct (norm_if (use_state_norm args) sn s1 false)
      as [[sn1 s2] ev] eqn:Hn.
    apply norm_if_read_only in Hn as [-> Hev].
    destruct (evaluate_episode _ _ _ _ _ _ _ _ _)
      as [[[[[w2 sn2] er] el] tr2]|] eqn:He; [|discriminate].
    apply evaluate_episode_inv in He as [-> [evs1 [-> Hevs1]]].
    apply IH in H as [-> [evs2 [-> Hevs2]]].
    split; [reflexivity|].
    exists ([E_eval_env_reset] ++ ev ++ evs1 ++ evs2).
    split; [rewrite <- !app_assoc; reflexivity|].
    repeat constructor. apply Forall_app. split.
    + apply rollout_event_norm; exact Hev.
    + apply Forall_app. split; assumption.
Qed.

Lemma evaluate_policy_inv fuel args w sn w' sn' res (tr : list (Event Params)) :
  evaluate_policy fuel args w sn = Some (w', sn', res, tr) ->
  sn' = sn /\ Forall rollout_event tr.
Proof.
  unfold evaluate_policy.
  destruct (evaluate_epochs 3 fuel args w sn 0%float 0 [])
    as [[[[[w2 sn2] reward] length] tr2]|] eqn:He; [|discriminate].
  intros H. injection H as _ <- _ <-.
  apply evaluate_epochs_inv in He as [-> [evs [-> Hevs]]].
  split; [reflexivity | exact Hevs].
Qed.

(** *** The pieces of the loop body *)

Lemma transform_reward_inv args rn rs r rn' rs' r' (ev : list (Event Params)) :
  transform_reward args rn rs r = Ok (rn', rs', r', ev) ->
  match expected_transform args with
  | Some ByNorm =>
      exists n, rn = Some n
        /\ rn' = Some (fst (Normalization_call_scalar n r))
        /\ r' = snd (Normalization_call_scalar n r)
        /\ rs' = rs /\ ev = [E_reward_norm r]
  | Some ByScaling =>
      exists sc, rs = Some sc
        /\ rs' = Some (fst (RewardScaling_call sc r))
        /\ r' = snd (RewardScaling_call sc r)
        /\ rn' = rn /\ ev = [E_reward_scaling r]
  | None => rn' = rn /\ rs' = rs /\ r' = r /\ ev = []
  end.
Proof.
  unfold transform_reward, expected_transform.
  destruct (use_reward_norm args).
  - destruct rn as [n|]; simpl; [|discriminate].
    destruct (Normalization_call_scalar n r) as [n' r1]. intros H.
    injection H as <- <- <- <-. exists n. repeat split.
  - destruct (use_reward_scaling args).
    + destruct rs as [sc|]; simpl; [|discriminate].
      destruct (RewardScaling_call sc r) as [sc' r1]. intros H.
      injection H as <- <- <- <-. exists sc. repeat split.
    + intros H. injection H as <- <- <- <-. repeat split.
Qed.

Lemma update_if_full_inv args w b ts w' b' (ev : list (Event Params)) :
  update_if_full args w b ts = (w', b', ev) ->
  (count b = batch_size args
   /\ b' = mkBuffer (capacity b) 0 []
   /\ exists al cl,
        agent_optimise w (stored b) ts = (w', (al, cl))
        /\ ev = [E_update (stored b) ts;
                 E_log_update al cl ts (seconds_elapsed w');
                 E_set_count_zero])
  \/ (count b <> batch_size args /\ w' = w /\ b' = b /\ ev = []).
Proof.
  unfold update_if_full, agent_update, set_count.
  destruct (count b =? batch_size args) eqn:Hc.
  - apply Z.eqb_eq in Hc.
    destruct (agent_optimise w (stored b) ts) as [w1 [al cl]] eqn:Ho.
    simpl. intros H. injection H as <- <- <-. left.
    split; [exact Hc|]. split; [reflexivity|]. exists al, cl. split; reflexivity.
  - apply Z.eqb_neq in Hc. intros H. injection H as <- <- <-. right.
    repeat split. exact Hc.
Qed.

Lemma evaluate_if_due_inv fuel args w sn ts prev mr w' sn' prev' mr'
    (ev : list (Event Params)) :
  evaluate_if_due fuel args w sn ts prev mr = Ok (w', sn', prev', mr', ev) ->
  (Qle_bool (evaluate_freq args) (inject_Z (ts - prev)) = true
   /\ exists reward length tr,
        evaluate_policy fuel args w sn = Some (w', sn', (reward, length), tr)
        /\ prev' = ts
        /\ mr' = (if PrimFloat.leb mr reward then reward else mr)
        /\ ev = [E_eval_begin] ++ tr ++ [E_eval_end reward length]
                ++ (if PrimFloat.leb mr reward
                    then [E_save_best (actor_state_dict w')] else [])
                ++ [E_log_eval reward length ts (seconds_elapsed w');
                    E_save_checkpoint ts
                      (actor_state_dict w') (critic_state_dict w')
                      (optimizer_actor_state_dict w')
                      (optimizer_critic_state_dict w')])
  \/ (Qle_bool (evaluate_freq args) (inject_Z (ts - prev)) = false
      /\ w' = w /\ sn' = sn /\ prev' = prev /\ mr' = mr /\ ev = []).
Proof.
  unfold evaluate_if_due.
  destruct (Qle_bool (evaluate_freq args) (inject_Z (ts - prev))).
  - destruct (evaluate_policy fuel args w sn)
      as [[[[w1 sn1] [reward length]] tr]|] eqn:He; [|discriminate].
    intros H. injection H as <- <- <- <- <-. left.
    split; [reflexivity|]. exists reward, length, tr. repeat split.
  - intros H. injection H as <- <- <- <- <-. right. repeat split.
Qed.

Lemma episode_start_inv args l l' :
  episode_start args l = Ok l' ->
  exists w s0 sn s1 ev_norm rs' ev_reset,
    env_reset (world l) = (w, s0)
    /\ norm_if (use_state_norm args) (state_norm l) s0 true = (sn, s1, ev_norm)
    /\ (if use_reward_scaling args
        then exists rs, reward_scaling l = Some rs
               /\ rs' = Some (RewardScaling_reset rs)
               /\ ev_reset = [E_reward_scaling_reset]
        else rs' = reward_scaling l /\ ev_reset = [])
    /\ l' = mkLocals w (replay_buffer l) sn (reward_norm l) rs'
              (total_steps l) (prev_total_steps l) (max_reward l)
              s1 0 0%float false
              (trace l ++ [E_env_reset] ++ ev_norm ++ ev_reset).
Proof.
  unfold episode_start.
  destruct (env_reset (world l)) as [w s0] eqn:Hr.
  destruct (norm_if (use_state_norm args) (state_norm l) s0 true)
    as [[sn s1] ev_norm] eqn:Hn.
  destruct (use_reward_scaling args).
  - destruct (reward_scaling l) as [rs|]; simpl; [|discriminate].
    intros H. injection H as <-.
    exists w, s0, sn, s1, ev_norm, (Some (RewardScaling_reset rs)),
      [E_reward_scaling_reset].
    do 2 (split; [first [assumption | reflexivity]|]).
    split; [exists rs; repeat split | reflexivity].
  - simpl. intros H. injection H as <-.
    exists w, s0, sn, s1, ev_norm, (reward_scaling l), [].
    do 2 (split; [first [assumption | reflexivity]|]).
    split; [split; reflexivity | reflexivity].
Qed.

Lemma inner_body_inv fuel args l l' :
  inner_body fuel args l = Ok l' ->
  exists w1 a lp w2 s_0 r0 d sn1 s_ ev_norm rn rs r ev_reward b
         w3 b' ev_update w4 sn2 prev' mr' ev_eval,
    agent_choose_action (world l) (s l) = (w1, (a, lp))
    /\ env_step w1 a = (w2, (s_0, r0, d))
    /\ norm_if (use_state_norm args) (state_norm l) s_0 true
       = (sn1, s_, ev_norm)
    /\ transform_reward args (reward_norm l) (reward_scaling l) r0
       = Ok (rn, rs, r, ev_reward)
    /\ let es := episode_steps l + 1 in
       let t := mkTransition (s l) a lp r s_
                  (if d && negb (es =? max_episode_steps args)
                   then true else false) d in
       store (replay_buffer l) t = Some b
       /\ update_if_full args w2 b (total_steps l + 1) = (w3, b', ev_update)
       /\ evaluate_if_due fuel args w3 sn1 (total_steps l + 1)
            (prev_total_steps l) (max_reward l)
          = Ok (w4, sn2, prev', mr', ev_eval)
       /\ l' = mkLocals w4 b' sn2 rn rs (total_steps l + 1) prev' mr'
                 s_ es (episode_reward l + r)%float d
                 (trace l
                  ++ [E_choose_action (s l) a lp; E_env_step a r0 d]
                  ++ ev_norm ++ ev_reward
                  ++ [E_store t es (count b)]
                  ++ ev_update ++ ev_eval).
Proof.
  unfold inner_body.
  destruct (agent_choose_action (world l) (s l)) as [w1 [a lp]] eqn:Ha.
  destruct (env_step w1 a) as [w2 [[s_0 r0] d]] eqn:He.
  destruct (norm_if (use_state_norm args) (state_norm l) s_0 true)
    as [[sn1 s_] ev_norm] eqn:Hn.
  destruct (transform_reward args (reward_norm l) (reward_scaling l) r0)
    as [[[[rn rs] r] ev_reward]| |] eqn:Ht; simpl; try discriminate.
  destruct (store (replay_buffer l) _) as [b|] eqn:Hs; [|discriminate].
  destruct (update_if_full args w2 b (total_steps l + 1))
    as [[w3 b'] ev_update] eqn:Hu.
  destruct (evaluate_if_due fuel args w3 sn1 (total_steps l + 1)
              (prev_total_steps l) (max_reward l))
    as [[[[[w4 sn2] prev'] mr'] ev_eval]| |] eqn:Hv; simpl; try discriminate.
  intros H. injection H as <-.
  exists w1, a, lp, w2, s_0, r0, d, sn1, s_, ev_norm, rn, rs, r, ev_reward, b,
    w3, b', ev_update, w4, sn2, prev', mr', ev_eval.
  do 4 (split; [first [assumption | reflexivity]|]). cbv zeta.
  split; [exact Hs|]. do 2 (split; [first [assumption | reflexivity]|]). reflexivity.
Qed.

(** *** Reachable states *)

Lemma step_inv fuel args pc l c' :
  step fuel args (pc, l) = Ok c' ->
  (pc = AtOuterWhile /\ total_steps l < max_train_steps args
   /\ exists l', episode_start args l = Ok l' /\ c' = (AtInnerWhile, l'))
  \/ (pc = AtInnerWhile /\ done l = false
      /\ exists l', inner_body fuel args l = Ok l' /\ c' = (AtInnerWhile, l'))
  \/ (snd c' = l
      /\ ((pc = AtOuterWhile /\ max_train_steps args <= total_steps l
           /\ fst c' = Returned)
          \/ (pc = AtInnerWhile /\ done l = true /\ fst c' = AtOuterWhile)
          \/ (pc = Returned /\ fst c' = Returned))).
Proof.
  unfold step. destruct pc.
  - destruct (total_steps l <? max_train_steps args) eqn:Ht.
    + apply Z.ltb_lt in Ht.
      destruct (episode_start args l) as [l'| |]; simpl; try discriminate.
      intros H. injection H as <-. left. split; [reflexivity|].
      split; [exact Ht|]. exists l'. split; reflexivity.
    + apply Z.ltb_ge in Ht. intros H. injection H as <-.
      right. right. split; [reflexivity|]. left. repeat split. exact Ht.
  - destruct (done l) eqn:Hd; simpl.
    + intros H. injection H as <-.
      right. right. split; [reflexivity|]. right. left. repeat split.
    + destruct (inner_body fuel args l) as [l'| |]; simpl; try discriminate.
      intros H. injection H as <-. right. left. split; [reflexivity|].
      split; [reflexivity|]. exists l'. split; reflexivity.
  - intros H. injection H as <-.
    right. right. split; [reflexivity|]. right. right. split; reflexivity.
Qed.

Lemma run_S fuel args n (c : PC * Locals World Params) :
  run fuel args (S n) c = bind (run fuel args n c) (step fuel args).
Proof. reflexivity. Qed.

(** Induction over the steps of a run. *)
Lemma run_ind (P : PC * Locals World Params -> Prop) fuel args c0 :
  P c0 ->
  (forall c c', P c -> step fuel args c = Ok c' -> P c') ->
  forall n c, run fuel args n c0 = Ok c -> P c.
Proof.
  intros H0 Hstep. induction n as [|n IH]; intros c H; simpl in H.
  - injection H as <-. exact H0.
  - destruct (run fuel args n c0) as [c1| |]; simpl in H; try discriminate.
    eapply Hstep; [apply IH; reflexivity | exact H].
Qed.

(** A property of the locals that the start of an episode and the loop body
    preserve holds at every control point. *)
Lemma locals_ind (Q : Locals World Params -> Prop) fuel args pc0 l0 :
  Q l0 ->
  (forall l l', Q l -> episode_start args l = Ok l' -> Q l') ->
  (forall l l', Q l -> done l = false -> inner_body fuel args l = Ok l' ->
                Q l') ->
  forall n pc l, run fuel args n (pc0, l0) = Ok (pc, l) -> Q l.
Proof.
  intros H0 Hstart Hbody n pc l H.
  apply (run_ind (fun c => Q (snd c)) fuel args (pc0, l0) H0) in H;
    [exact H|].
  intros [pc1 l1] c' HQ Hs. simpl in HQ.
  apply step_inv in Hs
    as [[_ [_ [l' [He ->]]]] | [[_ [Hd [l' [Hb ->]]]] | [-> _]]]; simpl.
  - eapply Hstart; eassumption.
  - eapply Hbody; eassumption.
  - exact HQ.
Qed.

(** *** The events of the pieces *)

Lemma norm_if_events use sn x u sn' y (ev : list (Event Params)) :
  norm_if use sn x u = (sn', y, ev) ->
  Forall (fun e => norm_event e = true) ev.
Proof.
  intros H. apply norm_if_inv in H as [[_ [_ ->]] | [_ [_ [_ ->]]]];
    repeat constructor.
Qed.

Lemma evaluate_if_due_events fuel args w sn ts prev mr w' sn' prev' mr'
    (ev : list (Event Params)) :
  evaluate_if_due fuel args w sn ts prev mr = Ok (w', sn', prev', mr', ev) ->
  Forall (fun e => eval_phase_event e = true) ev.
Proof.
  intros H. apply evaluate_if_due_inv in H
    as [[_ [reward [length [tr [Hp [_ [_ ->]]]]]]] | [_ [_ [_ [_ [_ ->]]]]]];
    [|constructor].
  apply evaluate_policy_inv in Hp as [_ Htr].
  constructor; [reflexivity|].
  apply Forall_app. split.
  - eapply Forall_impl; [|exact Htr]. intros e He. unfold rollout_event in He.
    destruct e; try discriminate; try reflexivity. exact He.
  - constructor; [reflexivity|]. apply Forall_app. split.
    + destruct (PrimFloat.leb mr reward); repeat constructor.
    + repeat constructor.
Qed.

(** *** Exceptions *)

Lemma transform_reward_raise args rn rs r e :
  transform_reward (Params := Params) args rn rs r = Raise e ->
  exists name, e = UnboundLocalError name.
Proof.
  unfold transform_reward.
  destruct (use_reward_norm args).
  - destruct rn as [n|]; simpl.
    + destruct (Normalization_call_scalar n r); discriminate.
    + intros H. injection H as <-. eexists; reflexivity.
  - destruct (use_reward_scaling args); [|discriminate].
    destruct rs as [sc|]; simpl.
    + destruct (RewardScaling_call sc r); discriminate.
    + intros H. injection H as <-. eexists; reflexivity.
Qed.

Lemma evaluate_if_due_no_raise fuel args w sn ts prev mr e :
  evaluate_if_due fuel args w sn ts prev mr <> Raise e.
Proof.
  unfold evaluate_if_due.
  destruct (Qle_bool _ _); [|discriminate].
  destruct (evaluate_policy fuel args w sn) as [[[[w1 sn1] [r len]] tr]|];
    discriminate.
Qed.

Lemma episode_start_raise args l e :
  episode_start args l = Raise e -> exists name, e = UnboundLocalError name.
Proof.
  unfold episode_start.
  destruct (env_reset (world l)) as [w s0].
  destruct (norm_if _ _ _ _) as [[sn s1] ev_norm].
  destruct (use_reward_scaling args); [|discriminate].
  destruct (reward_scaling l) as [rs|]; simpl; [discriminate|].
  intros H. injection H as <-. eexists; reflexivity.
Qed.

Lemma inner_body_overflow fuel args l :
  inner_body fuel args l = Raise BufferOverflow ->
  capacity (replay_buffer l) <= count (replay_buffer l).
Proof.
  unfold inner_body.
  destruct (agent_choose_action (world l) (s l)) as [w1 [a lp]].
  destruct (env_step w1 a) as [w2 [[s_0 r0] d]].
  destruct (norm_if _ _ _ _) as [[sn1 s_] ev_norm].
  destruct (transform_reward args (reward_norm l) (reward_scaling l) r0)
    as [[[[rn rs] r] ev_reward]|e|] eqn:Ht; simpl; try discriminate.
  2:{ apply transform_reward_raise in Ht as [name ->]. discriminate. }
  unfold store.
  destruct (count (replay_buffer l) <? capacity (replay_buffer l)) eqn:Hc.
  - destruct (update_if_full _ _ _ _) as [[w3 b'] ev_update].
    destruct (evaluate_if_due _ _ _ _ _ _ _)
      as [[[[[w4 sn2] prev'] mr'] ev_eval]|e|] eqn:Hv; simpl;
      try discriminate.
    exfalso. eapply evaluate_if_due_no_raise; exact Hv.
  - intros _. apply Z.ltb_ge in Hc. exact Hc.
Qed.

Lemma step_overflow fuel args pc l :
  step fuel args (pc, l) = Raise BufferOverflow ->
  capacity (replay_buffer l) <= count (replay_buffer l).
Proof.
  unfold step. destruct pc.
  - destruct (total_steps l <? max_train_steps args); [|discriminate].
    destruct (episode_start args l) as [l'|e|] eqn:He; simpl;
      try discriminate.
    apply episode_start_raise in He as [name ->]. discriminate.
  - destruct (negb (done l)); [|discriminate].
    destruct (inner_body fuel args l) as [l'|e|] eqn:Hb; simpl;
      try discriminate.
    intros H. injection H as ->. eapply inner_body_overflow; exact Hb.
  - discriminate.
Qed.

(** *** What acceptance gives for each store *)

Lemma buffer_accept_store_bound B st st' (tr : list (Event Params)) t es c :
  accept (buffer_step B) st tr = Some st' ->
  In (E_store t es c) tr -> c <= B.
Proof.
  revert st. induction tr as [|e tr IH]; intros st Ha Hin; [destruct Hin|].
  simpl in Ha. destruct (buffer_step B st e) as [st1|] eqn:Hs; [|discriminate].
  destruct Hin as [-> | Hin]; [|eapply IH; eassumption].
  destruct st as [k ph]. simpl in Hs. destruct ph; try discriminate.
  destruct ((c =? k + 1) && (c <=? B)) eqn:Hc; [|discriminate].
  apply andb_prop in Hc as [_ Hc]. apply Z.leb_le in Hc. exact Hc.
Qed.

Lemma dw_accept_store H st st' (tr : list (Event Params)) t es c :
  accept (dw_step H) st tr = Some st' ->
  In (E_store t es c) tr ->
  tr_dw t = tr_done t && negb (es =? H).
Proof.
  revert st. induction tr as [|e tr IH]; intros st Ha Hin; [destruct Hin|].
  simpl in Ha. destruct (dw_step H st e) as [st1|] eqn:Hs; [|discriminate].
  destruct Hin as [-> | Hin]; [|eapply IH; eassumption].
  destruct st as [k [d|]]; simpl in Hs; [|discriminate].
  destruct ((es =? k + 1) && Bool.eqb (tr_done t) d
            && Bool.eqb (tr_dw t) (d && negb (es =? H))) eqn:Hc;
    [|discriminate].
  apply andb_prop in Hc as [Hc Hdw]. apply andb_prop in Hc as [_ Hd].
  apply Bool.eqb_prop in Hd, Hdw. rewrite Hdw, Hd. reflexivity.
Qed.

End Facts.
End MainFacts.

(** ** Properties of the loop *)

Section LoopProperties.
Import PPOMain Traces MainFacts.
Local Open Scope Z_scope.

Context {World Params : Type} {C : Collaborators World Params}.

(** *** The buffer *)

(** What holds of the buffer at every test of a loop. *)
Definition buffer_inv (B : Z) (l : Locals World Params) : Prop :=
  let b := replay_buffer l in
  capacity b = B
  /\ 0 <= count b < B
  /\ Z.of_nat (List.length (stored b)) = count b
  /\ 0 <= total_steps l
  /\ count b = total_steps l mod B
  /\ count_updates (trace l) = total_steps l / B
  /\ accept (buffer_step B) (0, Filling) (trace l) = Some (count b, Filling).

Lemma succ_below (B ts c : Z) :
  0 < B -> c = ts mod B -> c + 1 < B ->
  c + 1 = (ts + 1) mod B /\ ts / B = (ts + 1) / B.
Proof.
  intros HB Hc Hlt. pose proof (Z.div_mod ts B ltac:(lia)) as Hdm.
  pose proof (Z.mod_pos_bound ts B HB) as Hb.
  split.
  - apply Z.mod_unique_pos with (q := ts / B); lia.
  - apply Z.div_unique_pos with (r := c + 1); lia.
Qed.

Lemma succ_full (B ts c : Z) :
  0 < B -> c = ts mod B -> c + 1 = B ->
  0 = (ts + 1) mod B /\ ts / B + 1 = (ts + 1) / B.
Proof.
  intros HB Hc Heq. pose proof (Z.div_mod ts B ltac:(lia)) as Hdm.
  split.
  - apply Z.mod_unique_pos with (q := ts / B + 1); lia.
  - apply Z.div_unique_pos with (r := 0); lia.
Qed.

Lemma buffer_silent_norm B c (e : Event Params) :
  norm_event e = true ->
  buffer_step B (c, Filling) e = Some (c, Filling).
Proof. destruct e; try discriminate; reflexivity. Qed.

Lemma buffer_silent_eval B c (e : Event Params) :
  eval_phase_event e = true ->
  buffer_step B (c, Filling) e = Some (c, Filling).
Proof. destruct e; try discriminate; reflexivity. Qed.

Lemma count_updates_none (tr : list (Event Params)) :
  Forall (fun e => is_update e = false) tr -> count_updates tr = 0.
Proof.
  unfold count_updates. induction 1 as [|e tr He _ IH]; [reflexivity|].
  simpl. rewrite He. exact IH.
Qed.

Lemma no_update_norm (tr : list (Event Params)) :
  Forall (fun e => norm_event e = true) tr ->
  Forall (fun e => is_update e = false) tr.
Proof.
  intros H. eapply Forall_impl; [|exact H].
  intros e; destruct e; try discriminate; reflexivity.
Qed.

Lemma no_update_eval (tr : list (Event Params)) :
  Forall (fun e => eval_phase_event e = true) tr ->
  Forall (fun e => is_update e = false) tr.
Proof.
  intros H. eapply Forall_impl; [|exact H].
  intros e; destruct e; try discriminate; reflexivity.
Qed.

Lemma no_update_reward args rn rs r rn' rs' r' (ev : list (Event Params)) :
  transform_reward args rn rs r = Ok (rn', rs', r', ev) ->
  Forall (fun e => is_update e = false) ev
  /\ forall B c, accept (buffer_step B) (c, Filling) ev = Some (c, Filling).
Proof.
  intros H. apply transform_reward_inv in H.
  destruct (expected_transform args) as [[|]|].
  - destruct H as [n [_ [_ [_ [_ ->]]]]]. split; [repeat constructor|reflexivity].
  - destruct H as [sc [_ [_ [_ [_ ->]]]]]. split; [repeat constructor|reflexivity].
  - destruct H as [_ [_ [_ ->]]]. split; [constructor|reflexivity].
Qed.

Lemma buffer_inv_start B args l l' :
  buffer_inv B l -> episode_start args l = Ok l' -> buffer_inv B l'.
Proof.
  intros (Hcap & Hc & Hlen & Hts & Hmod & Hupd & Hacc) H.
  apply episode_start_inv in H
    as (w & s0 & sn & s1 & ev_norm & rs' & ev_reset & _ & Hn & Hrs & ->).
  apply norm_if_events in Hn.
  assert (Hreset : Forall (fun e => norm_event e = true
                                    \/ e = E_reward_scaling_reset) ev_reset).
  { destruct (use_reward_scaling args).
    - destruct Hrs as [rs [_ [_ ->]]].
      constructor; [right; reflexivity | constructor].
    - destruct Hrs as [_ ->]. constructor. }
  unfold buffer_inv; cbn [replay_buffer total_steps trace].
  repeat (split; [assumption|]).
  split.
  - rewrite !count_updates_app, Hupd.
    change (count_updates [E_env_reset]) with 0.
    rewrite (count_updates_none ev_norm) by (apply no_update_norm; exact Hn).
    rewrite (count_updates_none ev_reset).
    + lia.
    + eapply Forall_impl; [|exact Hreset].
      intros e [He| ->]; [destruct e; try discriminate|]; reflexivity.
  - rewrite accept_app, Hacc. simpl. rewrite accept_app.
    rewrite (accept_stutter _ _ ev_norm)
      by (eapply Forall_impl; [|exact Hn]; intros e; apply buffer_silent_norm).
    apply accept_stutter. eapply Forall_impl; [|exact Hreset].
    intros e [He| ->]; [apply buffer_silent_norm; exact He | reflexivity].
Qed.

Lemma buffer_inv_body B fuel args l l' :
  0 < B -> batch_size args = B ->
  buffer_inv B l -> inner_body fuel args l = Ok l' -> buffer_inv B l'.
Proof.
  intros HB Hargs (Hcap & Hc & Hlen & Hts & Hmod & Hupd & Hacc) H.
  apply inner_body_inv in H
    as (w1 & a & lp & w2 & s_0 & r0 & d & sn1 & s_ & ev_norm & rn & rs & r
        & ev_reward & b & w3 & b' & ev_update & w4 & sn2 & prev' & mr'
        & ev_eval & _ & _ & Hn & Ht & Hs & Hu & Hv & ->).
  apply norm_if_events in Hn.
  apply no_update_reward in Ht as [Hr1 Hr2].
  apply evaluate_if_due_events in Hv.
  unfold store in Hs.
  destruct (count (replay_buffer l) <? capacity (replay_buffer l));
    [|discriminate].
  injection Hs as <-. cbn [count capacity stored] in *.
  set (c := count (replay_buffer l)) in *.
  set (t := mkTransition _ _ _ _ _ _ _).
  set (head := trace l ++ [E_choose_action (s l) a lp; E_env_step a r0 d]
                ++ ev_norm ++ ev_reward
                ++ [E_store t (episode_steps l + 1) (c + 1)]).
  assert (Hhead :
    accept (buffer_step B) (0, Filling) head
    = Some (c + 1, if c + 1 =? B then MustUpdate else Filling)).
  { unfold head. rewrite accept_app, Hacc. simpl. rewrite accept_app.
    rewrite (accept_stutter _ _ ev_norm)
      by (eapply Forall_impl; [|exact Hn]; intros e; apply buffer_silent_norm).
    rewrite accept_app, Hr2. simpl.
    rewrite Z.eqb_refl. simpl.
    replace (c + 1 <=? B) with true by (symmetry; apply Z.leb_le; lia).
    reflexivity. }
  assert (Hcount : count_updates head = total_steps l / B).
  { unfold head. rewrite !count_updates_app, Hupd.
    rewrite (count_updates_none ev_norm) by (apply no_update_norm; exact Hn).
    rewrite (count_updates_none ev_reward) by exact Hr1.
    unfold count_updates; simpl. lia. }
  assert (Heval : forall k,
    accept (buffer_step B) (k, Filling) ev_eval = Some (k, Filling)).
  { intros k. apply accept_stutter. eapply Forall_impl; [|exact Hv].
    intros e; apply buffer_silent_eval. }
  assert (Heval0 : count_updates ev_eval = 0)
    by (apply count_updates_none, no_update_eval; exact Hv).
  replace (trace l
           ++ [E_choose_action (s l) a lp; E_env_step a r0 d]
           ++ ev_norm ++ ev_reward
           ++ [E_store t (episode_steps l + 1) (c + 1)]
           ++ ev_update ++ ev_eval)
    with (head ++ ev_update ++ ev_eval)
    by (unfold head; rewrite <- !app_assoc; reflexivity).
  clearbody head.
  unfold buffer_inv; cbn [replay_buffer total_steps trace].
  apply update_if_full_inv in Hu
    as [[Hfull [-> [al [cl [_ ->]]]]] | [Hpart [_ [-> ->]]]];
    cbn [capacity count stored] in *.
  - rewrite Hargs in Hfull.
    destruct (succ_full B (total_steps l) c HB Hmod Hfull) as [Hm Hd].
    split; [exact Hcap|]. split; [lia|]. split; [reflexivity|].
    split; [lia|]. split; [exact Hm|].
    split.
    + rewrite !count_updates_app, Hcount, Heval0.
      unfold count_updates; simpl. lia.
    + rewrite accept_app, Hhead.
      replace (c + 1 =? B) with true by (symmetry; apply Z.eqb_eq; exact Hfull).
      simpl. rewrite length_app, Nat2Z.inj_add, Hlen. simpl.
      fold c.
      replace (c + 1 =? B) with true by (symmetry; apply Z.eqb_eq; exact Hfull).
      apply Heval.
  - rewrite Hargs in Hpart.
    assert (Hlt : c + 1 < B) by lia.
    destruct (succ_below B (total_steps l) c HB Hmod Hlt) as [Hm Hd].
    split; [exact Hcap|]. split; [lia|].
    split; [rewrite length_app, Nat2Z.inj_add, Hlen; reflexivity|].
    split; [lia|]. split; [exact Hm|].
    split.
    + rewrite !count_updates_app, Hcount, Heval0.
      unfold count_updates; simpl. lia.
    + rewrite accept_app, Hhead.
      replace (c + 1 =? B) with false by (symmetry; apply Z.eqb_neq; lia).
      simpl. apply Heval.
Qed.

Lemma buffer_inv_reachable fuel args w n pc l :
  0 < batch_size args ->
  run fuel args n (AtOuterWhile, main_init args w) = Ok (pc, l) ->
  buffer_inv (batch_size args) l.
Proof.
  intros HB H.
  eapply (locals_ind (buffer_inv (batch_size args))); [| | |exact H].
  - unfold buffer_inv; simpl.
    rewrite Z.mod_0_l, Z.div_0_l by lia. repeat split; try reflexivity; lia.
  - intros l1 l2 Hi He. eapply buffer_inv_start; eassumption.
  - intros l1 l2 Hi _ Hb. eapply buffer_inv_body; try eassumption. reflexivity.
Qed.

Lemma run_no_overflow fuel args (w : World) k :
  0 < batch_size args ->
  run fuel args k (AtOuterWhile, main_init args w) <> Raise BufferOverflow.
Proof.
  intros HB. induction k as [|k IH]; [discriminate|].
  rewrite run_S.
  destruct (run fuel args k (AtOuterWhile, main_init args w))
    as [[pc1 l1]|e|] eqn:Hr; unfold bind; [| |discriminate].
  - intros Hk. apply step_overflow in Hk.
    pose proof (buffer_inv_reachable fuel args w k pc1 l1 HB Hr)
      as (Hcap1 & Hc1 & _).
    lia.
  - exact IH.
Qed.

(** C1: with a positive batch size, the trace of the training loop follows
    the buffer protocol: the count grows by one with each store, never
    beyond batch_size; a store that brings it to batch_size is followed at
    once by exactly one update, on batch_size transitions, and by the reset
    of the count to zero, and no update happens otherwise. The reset is the
    loop's own assignment (line 135): it holds whatever count [agent.update]
    leaves in the buffer. At the loop tests the count of the buffer is
    total_steps mod batch_size, the number of updates so far is
    total_steps / batch_size, and no store overflows the buffer. *)
Theorem update_exactly_when_buffer_full fuel args0 (w : World) n pc l :
  0 < batch_size args0 ->
  main fuel args0 w n = Ok (pc, l) ->
  let B := batch_size args0 in
  let b := replay_buffer l in
  accept (buffer_step B) (0, Filling) (trace l) = Some (count b, Filling)
  /\ (forall t es c, In (E_store t es c) (trace l) -> c <= B)
  /\ 0 <= count b < B
  /\ count b = total_steps l mod B
  /\ count_updates (trace l) = total_steps l / B
  /\ forall k, main fuel args0 w k <> Raise BufferOverflow.
Proof.
  intros HB H B b. unfold main in H.
  pose proof (buffer_inv_reachable fuel (setup_args args0 w) w n pc l HB H)
    as (Hcap & Hc & Hlen & Hts & Hmod & Hupd & Hacc).
  simpl in Hcap, Hc, Hmod, Hupd, Hacc.
  split; [exact Hacc|].
  split; [intros t es c Hin; eapply buffer_accept_store_bound; eassumption|].
  split; [exact Hc|]. split; [exact Hmod|]. split; [exact Hupd|].
  intros k. apply run_no_overflow. exact HB.
Qed.

(** *** The flag dw *)

(** An event that an automaton ignores in every state. *)
Definition silent {S : Type} (delta : S -> Event Params -> option S)
    (e : Event Params) : Prop :=
  forall st, delta st e = Some st.

Lemma accept_silent {S : Type} (delta : S -> Event Params -> option S) st tr :
  Forall (silent delta) tr -> accept delta st tr = Some st.
Proof.
  intros H. apply accept_stutter. eapply Forall_impl; [|exact H].
  intros e He. apply He.
Qed.

Lemma dw_silent_norm H (tr : list (Event Params)) :
  Forall (fun e => norm_event e = true) tr -> Forall (silent (dw_step H)) tr.
Proof.
  intros Hn. eapply Forall_impl; [|exact Hn].
  intros e He [k d]. destruct e; try discriminate; reflexivity.
Qed.

Lemma dw_silent_eval H (tr : list (Event Params)) :
  Forall (fun e => eval_phase_event e = true) tr ->
  Forall (silent (dw_step H)) tr.
Proof.
  intros Hn. eapply Forall_impl; [|exact Hn].
  intros e He [k d]. destruct e; try discriminate; reflexivity.
Qed.

Lemma dw_silent_reward H args rn rs r rn' rs' r' (ev : list (Event Params)) :
  transform_reward args rn rs r = Ok (rn', rs', r', ev) ->
  Forall (silent (dw_step H)) ev.
Proof.
  intros Ht. apply transform_reward_inv in Ht.
  destruct (expected_transform args) as [[|]|].
  - destruct Ht as [n [_ [_ [_ [_ ->]]]]].
    constructor; [intros [k d]; reflexivity | constructor].
  - destruct Ht as [sc [_ [_ [_ [_ ->]]]]].
    constructor; [intros [k d]; reflexivity | constructor].
  - destruct Ht as [_ [_ [_ ->]]]. constructor.
Qed.

Lemma dw_silent_update H args w b ts w' b' (ev : list (Event Params)) :
  update_if_full args w b ts = (w', b', ev) ->
  Forall (silent (dw_step H)) ev.
Proof.
  intros Hu. apply update_if_full_inv in Hu
    as [[_ [_ [al [cl [_ ->]]]]] | [_ [_ [_ ->]]]]; [|constructor].
  repeat (constructor; [intros [k d]; reflexivity|]). constructor.
Qed.

Definition dw_inv (H : Z) (l : Locals World Params) : Prop :=
  accept (dw_step H) (0, None) (trace l) = Some (episode_steps l, None).

Lemma dw_inv_start args l l' :
  dw_inv (max_episode_steps args) l -> episode_start args l = Ok l' ->
  dw_inv (max_episode_steps args) l'.
Proof.
  unfold dw_inv. intros Hacc H.
  apply episode_start_inv in H
    as (w & s0 & sn & s1 & ev_norm & rs' & ev_reset & _ & Hn & Hrs & ->).
  apply norm_if_events in Hn.
  cbn [trace episode_steps].
  rewrite accept_app, Hacc. simpl. rewrite accept_app.
  rewrite (accept_silent _ _ ev_norm) by (apply dw_silent_norm; exact Hn).
  destruct (use_reward_scaling args).
  - destruct Hrs as [rs [_ [_ ->]]]. reflexivity.
  - destruct Hrs as [_ ->]. reflexivity.
Qed.

Lemma dw_inv_body fuel args l l' :
  dw_inv (max_episode_steps args) l -> inner_body fuel args l = Ok l' ->
  dw_inv (max_episode_steps args) l'.
Proof.
  unfold dw_inv. intros Hacc H.
  apply inner_body_inv in H
    as (w1 & a & lp & w2 & s_0 & r0 & d & sn1 & s_ & ev_norm & rn & rs & r
        & ev_reward & b & w3 & b' & ev_update & w4 & sn2 & prev' & mr'
        & ev_eval & _ & _ & Hn & Ht & Hs & Hu & Hv & ->).
  apply norm_if_events in Hn.
  apply (dw_silent_reward (max_episode_steps args)) in Ht.
  apply (dw_silent_update (max_episode_steps args)) in Hu.
  apply evaluate_if_due_events in Hv.
  cbn [trace episode_steps].
  rewrite accept_app, Hacc. simpl. rewrite accept_app.
  rewrite (accept_silent _ _ ev_norm) by (apply dw_silent_norm; exact Hn).
  rewrite accept_app, (accept_silent _ _ ev_reward) by exact Ht.
  simpl. rewrite Z.eqb_refl, Bool.eqb_reflx. simpl.
  replace (Bool.eqb _ _) with true.
  2:{ symmetry. apply Bool.eqb_true_iff.
      destruct (d && negb (episode_steps l + 1 =? max_episode_steps args));
        reflexivity. }
  rewrite accept_app, (accept_silent _ _ ev_update) by exact Hu.
  apply accept_silent, dw_silent_eval. exact Hv.
Qed.

(** C2: every transition that the training loop stores has
    dw = done and (episode_steps <> max_episode_steps), where done is the
    flag that the environment returned for that step and episode_steps is
    the number of the step within its episode; in particular dw is false
    for an episode that ends exactly at the horizon. *)
Theorem dw_iff_done_before_horizon fuel args0 (w : World) n pc l :
  main fuel args0 w n = Ok (pc, l) ->
  let H := env_max_episode_steps w in
  accept (dw_step H) (0, None) (trace l) = Some (episode_steps l, None)
  /\ forall t es c,
       In (E_store t es c) (trace l) ->
       (tr_dw t = true <-> tr_done t = true /\ es <> H)
       /\ (tr_done t = true -> es = H -> tr_dw t = false).
Proof.
  intros Hrun H. unfold main in Hrun.
  assert (Hacc : dw_inv H l).
  { eapply (locals_ind (dw_inv H)); [| | |exact Hrun].
    - reflexivity.
    - intros l1 l2 Hi He.
      apply (dw_inv_start (setup_args args0 w) l1); assumption.
    - intros l1 l2 Hi _ Hb.
      apply (dw_inv_body fuel (setup_args args0 w) l1); assumption. }
  split; [exact Hacc|].
  intros t es c Hin.
  pose proof (dw_accept_store _ _ _ _ _ _ _ Hacc Hin) as Hdw.
  split.
  - rewrite Hdw, andb_true_iff, negb_true_iff, Z.eqb_neq. reflexivity.
  - intros Hd ->. rewrite Hdw, Hd, Z.eqb_refl. reflexivity.
Qed.

(** *** The normalizer during evaluation *)

(** C5: every application of the state normalizer in [evaluate_policy]
    is made with update=False, and a completed call returns the normalizer
    with the running mean, the running variance and the sample count it
    was given. *)
Theorem evaluation_leaves_normalizer_unchanged fuel args (w : World)
    (sn : Normalization) w' sn' res (tr : list (Event Params)) :
  evaluate_policy fuel args w sn = Some (w', sn', res, tr) ->
  (forall u, In (E_state_norm u) tr -> u = false)
  /\ sn' = sn
  /\ running_mean (running_ms sn') = running_mean (running_ms sn)
  /\ running_variance (running_ms sn') = running_variance (running_ms sn)
  /\ sample_count (running_ms sn') = sample_count (running_ms sn).
Proof.
  intros H. apply evaluate_policy_inv in H as [-> Htr].
  split; [|repeat split].
  intros u Hin. rewrite Forall_forall in Htr. specialize (Htr _ Hin).
  unfold rollout_event in Htr. destruct u; [discriminate | reflexivity].
Qed.

(** *** Reward normalization and reward scaling *)

Lemma reward_silent_norm args (tr : list (Event Params)) :
  Forall (fun e => norm_event e = true) tr ->
  Forall (silent (reward_step args)) tr.
Proof.
  intros Hn. eapply Forall_impl; [|exact Hn].
  intros e He st. destruct e; try discriminate; reflexivity.
Qed.

Lemma reward_silent_eval args (tr : list (Event Params)) :
  Forall (fun e => eval_phase_event e = true) tr ->
  Forall (silent (reward_step args)) tr.
Proof.
  intros Hn. eapply Forall_impl; [|exact Hn].
  intros e He st. destruct e; try discriminate; reflexivity.
Qed.

Lemma reward_silent_update args0 args w b ts w' b' (ev : list (Event Params)) :
  update_if_full args w b ts = (w', b', ev) ->
  Forall (silent (reward_step args0)) ev.
Proof.
  intros Hu. apply update_if_full_inv in Hu
    as [[_ [_ [al [cl [_ ->]]]]] | [_ [_ [_ ->]]]]; [|constructor].
  repeat (constructor; [intros st; reflexivity|]). constructor.
Qed.

Definition reward_inv (args : Args) (l : Locals World Params) : Prop :=
  accept (reward_step args) false (trace l) = Some false.

Lemma reward_inv_start args l l' :
  reward_inv args l -> episode_start args l = Ok l' -> reward_inv args l'.
Proof.
  unfold reward_inv. intros Hacc H.
  apply episode_start_inv in H
    as (w & s0 & sn & s1 & ev_norm & rs' & ev_reset & _ & Hn & Hrs & ->).
  apply norm_if_events in Hn.
  cbn [trace].
  rewrite accept_app, Hacc. simpl. rewrite accept_app.
  rewrite (accept_silent _ _ ev_norm) by (apply reward_silent_norm; exact Hn).
  destruct (use_reward_scaling args).
  - destruct Hrs as [rs [_ [_ ->]]]. reflexivity.
  - destruct Hrs as [_ ->]. reflexivity.
Qed.

Lemma reward_inv_body fuel args l l' :
  reward_inv args l -> inner_body fuel args l = Ok l' -> reward_inv args l'.
Proof.
  unfold reward_inv. intros Hacc H.
  apply inner_body_inv in H
    as (w1 & a & lp & w2 & s_0 & r0 & d & sn1 & s_ & ev_norm & rn & rs & r
        & ev_reward & b & w3 & b' & ev_update & w4 & sn2 & prev' & mr'
        & ev_eval & _ & _ & Hn & Ht & Hs & Hu & Hv & ->).
  apply norm_if_events in Hn.
  apply (reward_silent_update args) in Hu.
  apply evaluate_if_due_events in Hv.
  apply transform_reward_inv in Ht.
  cbn [trace].
  rewrite accept_app, Hacc. simpl. rewrite accept_app.
  rewrite (accept_silent _ _ ev_norm) by (apply reward_silent_norm; exact Hn).
  rewrite accept_app.
  assert (Hr : accept (reward_step args)
                 (match expected_transform args with
                  | Some _ => true
                  | None => false
                  end) ev_reward = Some false).
  { destruct (expected_transform args) as [[|]|] eqn:He.
    - destruct Ht as [n0 [_ [_ [_ [_ ->]]]]]. simpl. rewrite He. reflexivity.
    - destruct Ht as [sc [_ [_ [_ [_ ->]]]]]. simpl. rewrite He. reflexivity.
    - destruct Ht as [_ [_ [_ ->]]]. reflexivity. }
  rewrite Hr. simpl.
  rewrite accept_app, (accept_silent _ _ ev_update) by exact Hu.
  apply accept_silent, reward_silent_eval. exact Hv.
Qed.

(** With both options set, the first episode cannot start: the scaler was
    never created. *)
Lemma both_options_start_raises args l :
  use_reward_scaling args = true -> reward_scaling l = None ->
  episode_start args l = Raise (UnboundLocalError "reward_scaling").
Proof.
  intros Hs Hn. unfold episode_start.
  destruct (env_reset (world l)) as [w s0].
  destruct (norm_if _ _ _ _) as [[sn s1] ev].
  rewrite Hs, Hn. reflexivity.
Qed.

Lemma both_options_raise fuel args (w : World) n :
  use_reward_norm args = true -> use_reward_scaling args = true ->
  0 < max_train_steps args ->
  run fuel args (S n) (AtOuterWhile, main_init args w)
  = Raise (UnboundLocalError "reward_scaling").
Proof.
  intros Hn Hs Hm. induction n as [|n IH].
  - simpl.
    replace (0 <? max_train_steps args) with true
      by (symmetry; apply Z.ltb_lt; exact Hm).
    rewrite both_options_start_raises; [reflexivity | exact Hs |].
    simpl. rewrite Hn. reflexivity.
  - rewrite run_S, IH. reflexivity.
Qed.

Lemma both_options_nothing_done fuel args (w : World) n pc l :
  use_reward_norm args = true -> use_reward_scaling args = true ->
  run fuel args n (AtOuterWhile, main_init args w) = Ok (pc, l) ->
  trace l = [].
Proof.
  intros Hn Hs H.
  apply (run_ind
           (fun c => fst c <> AtInnerWhile /\ reward_scaling (snd c) = None
                     /\ trace (snd c) = [])
           fuel args (AtOuterWhile, main_init args w)) in H.
  - apply H.
  - simpl. rewrite Hn. repeat split. discriminate.
  - intros [pc1 l1] c' (Hpc & Hrs & Htr) Hstep. simpl in Hpc, Hrs, Htr.
    apply step_inv in Hstep
      as [[_ [_ [l' [He _]]]] | [[Hp _] | [Hl Hc]]].
    + rewrite both_options_start_raises in He by assumption. discriminate.
    + contradiction.
    + rewrite Hl. split; [|split; assumption].
      destruct Hc as [[_ [_ ->]] | [[Hp _] | [_ ->]]];
        [discriminate | contradiction | discriminate].
Qed.

(** C6: with both [use_reward_norm] and [use_reward_scaling] set, the run
    stops with an exception at the start of the first episode, before any
    reward exists; in every run each reward goes through the one
    transformation that the options select (normalization when
    [use_reward_norm] is set, else scaling when [use_reward_scaling] is
    set, else none), once and before it is stored, so never through both. *)
Theorem reward_norm_and_scaling_exclusive fuel args0 (w : World) :
  (use_reward_norm args0 = true -> use_reward_scaling args0 = true ->
   (0 < max_train_steps args0 ->
    forall n, main fuel args0 w (S n)
              = Raise (UnboundLocalError "reward_scaling"))
   /\ (forall n pc l, main fuel args0 w n = Ok (pc, l) -> trace l = []))
  /\ (forall n pc l,
        main fuel args0 w n = Ok (pc, l) ->
        accept (reward_step args0) false (trace l) = Some false).
Proof.
  split.
  - intros Hn Hs. split.
    + intros Hm n.
      exact (both_options_raise fuel (setup_args args0 w) w n Hn Hs Hm).
    + intros n pc l H.
      exact (both_options_nothing_done fuel (setup_args args0 w) w n pc l
               Hn Hs H).
  - intros n pc l H. unfold main in H.
    change (reward_inv (setup_args args0 w) l).
    eapply (locals_ind (reward_inv (setup_args args0 w))); [| | |exact H].
    + reflexivity.
    + intros l1 l2 Hi He. eapply reward_inv_start; eassumption.
    + intros l1 l2 Hi _ Hb. eapply reward_inv_body; eassumption.
Qed.

(** *** The reset of the reward scaler *)

Lemma reset_silent_norm u (tr : list (Event Params)) :
  Forall (fun e => norm_event e = true) tr ->
  Forall (silent (reset_step u)) tr.
Proof.
  intros Hn. eapply Forall_impl; [|exact Hn].
  intros e He st. destruct e; try discriminate; reflexivity.
Qed.

Lemma reset_silent_eval u (tr : list (Event Params)) :
  Forall (fun e => eval_phase_event e = true) tr ->
  Forall (silent (reset_step u)) tr.
Proof.
  intros Hn. eapply Forall_impl; [|exact Hn].
  intros e He st. destruct e; try discriminate; reflexivity.
Qed.

Lemma reset_silent_update u args w b ts w' b' (ev : list (Event Params)) :
  update_if_full args w b ts = (w', b', ev) ->
  Forall (silent (reset_step u)) ev.
Proof.
  intros Hu. apply update_if_full_inv in Hu
    as [[_ [_ [al [cl [_ ->]]]]] | [_ [_ [_ ->]]]]; [|constructor].
  repeat (constructor; [intros st; reflexivity|]). constructor.
Qed.

(** With reward scaling on: inside an episode the scaler exists and was
    reset in this episode, and before the first step of the episode its
    accumulator is zero. *)
Definition scaling_inv (c : PC * Locals World Params) : Prop :=
  let l := snd c in
  0 <= episode_steps l
  /\ (exists st, accept (reset_step true) false (trace l) = Some st
                 /\ (fst c = AtInnerWhile -> st = true))
  /\ (fst c = AtInnerWhile ->
      exists rs, reward_scaling l = Some rs
                 /\ (episode_steps l = 0 -> rs_R rs = 0%float)).

Lemma scaling_inv_start args pc l l' :
  use_reward_scaling args = true ->
  scaling_inv (pc, l) -> episode_start args l = Ok l' ->
  scaling_inv (AtInnerWhile, l').
Proof.
  intros Hs Hi H. unfold scaling_inv in Hi. cbn [fst snd] in Hi.
  destruct Hi as (Hes & [st [Hacc _]] & _).
  apply episode_start_inv in H
    as (w & s0 & sn & s1 & ev_norm & rs' & ev_reset & _ & Hn & Hrs & ->).
  apply norm_if_events in Hn. rewrite Hs in Hrs.
  destruct Hrs as [rs [Hrs [-> ->]]].
  unfold scaling_inv; cbn [snd fst trace episode_steps reward_scaling].
  split; [lia|]. split.
  - exists true. split; [|reflexivity].
    rewrite accept_app, Hacc. simpl. rewrite accept_app.
    rewrite (accept_silent _ _ ev_norm) by (apply reset_silent_norm; exact Hn).
    reflexivity.
  - intros _. eexists. split; reflexivity.
Qed.

Lemma scaling_inv_body fuel args l l' :
  scaling_inv (AtInnerWhile, l) -> inner_body fuel args l = Ok l' ->
  scaling_inv (AtInnerWhile, l').
Proof.
  intros Hi H. unfold scaling_inv in Hi. cbn [fst snd] in Hi.
  destruct Hi as (Hes & [st [Hacc Hst]] & Hrs).
  specialize (Hst eq_refl). subst st.
  destruct (Hrs eq_refl) as [rs0 [Hrs0 _]].
  apply inner_body_inv in H
    as (w1 & a & lp & w2 & s_0 & r0 & d & sn1 & s_ & ev_norm & rn & rs & r
        & ev_reward & b & w3 & b' & ev_update & w4 & sn2 & prev' & mr'
        & ev_eval & _ & _ & Hn & Ht & Hsto & Hu & Hv & ->).
  apply norm_if_events in Hn.
  apply (reset_silent_update true) in Hu.
  apply evaluate_if_due_events in Hv.
  apply transform_reward_inv in Ht.
  unfold scaling_inv; cbn [snd fst trace episode_steps reward_scaling].
  split; [lia|]. split.
  - exists true. split; [|reflexivity].
    rewrite accept_app, Hacc. simpl. rewrite accept_app.
    rewrite (accept_silent _ _ ev_norm) by (apply reset_silent_norm; exact Hn).
    rewrite accept_app.
    assert (Hr : accept (reset_step (Params := Params) true) true ev_reward
                 = Some true).
    { destruct (expected_transform args) as [[|]|].
      - destruct Ht as [n0 [_ [_ [_ [_ ->]]]]]. reflexivity.
      - destruct Ht as [sc [_ [_ [_ [_ ->]]]]]. reflexivity.
      - destruct Ht as [_ [_ [_ ->]]]. reflexivity. }
    rewrite Hr. simpl.
    rewrite accept_app, (accept_silent _ _ ev_update) by exact Hu.
    apply accept_silent, reset_silent_eval. exact Hv.
  - intros _.
    assert (Hsome : exists rs1, rs = Some rs1).
    { destruct (expected_transform args) as [[|]|].
      - destruct Ht as [n0 [_ [_ [_ [-> _]]]]]. exists rs0. exact Hrs0.
      - destruct Ht as [sc [_ [-> _]]]. eexists; reflexivity.
      - destruct Ht as [_ [-> _]]. exists rs0. exact Hrs0. }
    destruct Hsome as [rs1 ->]. exists rs1. split; [reflexivity|]. lia.
Qed.

Lemma scaling_inv_reachable fuel args (w : World) n c :
  use_reward_scaling args = true ->
  run fuel args n (AtOuterWhile, main_init args w) = Ok c ->
  scaling_inv c.
Proof.
  intros Hs H.
  apply (run_ind scaling_inv fuel args (AtOuterWhile, main_init args w))
    with (n := n); [| |exact H].
  - unfold scaling_inv; simpl. split; [lia|]. split.
    + exists false. split; [reflexivity | discriminate].
    + discriminate.
  - intros [pc1 l1] c' Hi Hstep.
    apply step_inv in Hstep
      as [[_ [_ [l' [He ->]]]] | [[-> [_ [l' [Hb ->]]]] | [Hl Hc]]].
    + eapply scaling_inv_start; eassumption.
    + eapply scaling_inv_body; eassumption.
    + destruct c' as [pc' l']. simpl in Hl, Hc. subst l'.
      unfold scaling_inv in Hi |- *. cbn [fst snd] in Hi |- *.
      destruct Hi as (Hes & [st [Hacc Hst]] & Hrs).
      destruct Hc as [[-> [_ ->]] | [[-> [_ ->]] | [-> ->]]];
        (split; [exact Hes|]; split;
         [exists st; split; [exact Hacc | discriminate] | discriminate]).
Qed.

(** *** Unbound locals *)

(** The locals that the options promise are bound. *)
Definition bound_inv (args : Args) (l : Locals World Params) : Prop :=
  (use_reward_norm args = true -> reward_norm l <> None)
  /\ (use_reward_norm args = false -> use_reward_scaling args = true ->
      reward_scaling l <> None).

Lemma bound_inv_start args l l' :
  bound_inv args l -> episode_start args l = Ok l' -> bound_inv args l'.
Proof.
  intros [Hn Hs] H. apply episode_start_inv in H
    as (w & s0 & sn & s1 & ev_norm & rs' & ev_reset & _ & _ & Hrs & ->).
  unfold bound_inv; cbn [reward_norm reward_scaling].
  split; [exact Hn|]. intros Hn0 Hs1. rewrite Hs1 in Hrs.
  destruct Hrs as [rs [_ [-> _]]]. discriminate.
Qed.

Lemma bound_inv_body fuel args l l' :
  bound_inv args l -> inner_body fuel args l = Ok l' -> bound_inv args l'.
Proof.
  intros [Hn Hs] H. apply inner_body_inv in H
    as (w1 & a & lp & w2 & s_0 & r0 & d & sn1 & s_ & ev_norm & rn & rs & r
        & ev_reward & b & w3 & b' & ev_update & w4 & sn2 & prev' & mr'
        & ev_eval & _ & _ & _ & Ht & _ & _ & _ & ->).
  apply transform_reward_inv in Ht.
  unfold bound_inv; cbn [reward_norm reward_scaling].
  unfold expected_transform in Ht.
  destruct (use_reward_norm args) eqn:En.
  - destruct Ht as [n0 [_ [-> [_ [-> _]]]]].
    split; [discriminate | discriminate].
  - destruct (use_reward_scaling args) eqn:Es.
    + destruct Ht as [sc [_ [-> [_ [-> _]]]]].
      split; [discriminate | intros _ _; discriminate].
    + destruct Ht as [-> [-> _]]. split; [discriminate | discriminate].
Qed.

Lemma bound_inv_reachable fuel args (w : World) n pc l :
  run fuel args n (AtOuterWhile, main_init args w) = Ok (pc, l) ->
  bound_inv args l.
Proof.
  intros H. eapply (locals_ind (bound_inv args)); [| | |exact H].
  - unfold bound_inv; cbn [main_init reward_norm reward_scaling].
    split.
    + intros ->. discriminate.
    + intros -> ->. discriminate.
  - intros l1 l2 Hi He. eapply bound_inv_start; eassumption.
  - intros l1 l2 Hi _ Hb. eapply bound_inv_body; eassumption.
Qed.

Lemma episode_start_unbound args l e :
  episode_start args l = Raise e ->
  use_reward_scaling args = true /\ reward_scaling l = None.
Proof.
  unfold episode_start.
  destruct (env_reset (world l)) as [w s0].
  destruct (norm_if _ _ _ _) as [[sn s1] ev_norm].
  destruct (use_reward_scaling args); [|discriminate].
  destruct (reward_scaling l) as [rs|]; simpl; [discriminate|].
  intros _. split; reflexivity.
Qed.

Lemma transform_reward_unbound args rn rs r e :
  transform_reward (Params := Params) args rn rs r = Raise e ->
  (use_reward_norm args = true /\ rn = None)
  \/ (use_reward_norm args = false /\ use_reward_scaling args = true
      /\ rs = None).
Proof.
  unfold transform_reward.
  destruct (use_reward_norm args).
  - destruct rn as [n|]; simpl.
    + destruct (Normalization_call_scalar n r); discriminate.
    + intros _. left. split; reflexivity.
  - destruct (use_reward_scaling args); [|discriminate].
    destruct rs as [sc|]; simpl.
    + destruct (RewardScaling_call sc r); discriminate.
    + intros _. right. repeat split.
Qed.

Lemma inner_body_unbound fuel args l name :
  inner_body fuel args l = Raise (UnboundLocalError name) ->
  (use_reward_norm args = true /\ reward_norm l = None)
  \/ (use_reward_norm args = false /\ use_reward_scaling args = true
      /\ reward_scaling l = None).
Proof.
  unfold inner_body.
  destruct (agent_choose_action (world l) (s l)) as [w1 [a lp]].
  destruct (env_step w1 a) as [w2 [[s_0 r0] d]].
  destruct (norm_if _ _ _ _) as [[sn1 s_] ev_norm].
  destruct (transform_reward args (reward_norm l) (reward_scaling l) r0)
    as [[[[rn rs] r] ev_reward]|e0|] eqn:Ht; simpl; try discriminate.
  2:{ intros _. apply transform_reward_unbound in Ht. exact Ht. }
  destruct (store _ _) as [b|]; [|discriminate].
  destruct (update_if_full _ _ _ _) as [[w3 b'] ev_update].
  destruct (evaluate_if_due _ _ _ _ _ _ _)
    as [[[[[w4 sn2] prev'] mr'] ev_eval]|e0|] eqn:Hv; simpl;
    try discriminate.
  exfalso. eapply evaluate_if_due_no_raise; exact Hv.
Qed.

(** Where the options promise a local, reading it does not fail. *)
Lemma run_no_unbound_local fuel args (w : World) k name :
  use_reward_norm args && use_reward_scaling args = false ->
  run fuel args k (AtOuterWhile, main_init args w)
  <> Raise (UnboundLocalError name).
Proof.
  intros Hopt. revert name.
  induction k as [|k IH]; [discriminate|].
  intros name. rewrite run_S.
  destruct (run fuel args k (AtOuterWhile, main_init args w))
    as [[pc l]|e0|] eqn:Hr; unfold bind; [| |discriminate].
  2:{ intros He. injection He as ->. exact (IH name eq_refl). }
  pose proof (bound_inv_reachable fuel args w k pc l Hr) as [Hn Hs].
  intros Hstep. unfold step in Hstep. destruct pc.
  - destruct (total_steps l <? max_train_steps args); [|discriminate].
    destruct (episode_start args l) as [l'|e1|] eqn:He; simpl in Hstep;
      try discriminate.
    apply episode_start_unbound in He as [Hsc Hnone].
    destruct (use_reward_norm args) eqn:En.
    + rewrite Hsc in Hopt. discriminate.
    + apply (Hs eq_refl Hsc). exact Hnone.
  - destruct (negb (done l)); [|discriminate].
    destruct (inner_body fuel args l) as [l'|e1|] eqn:Hb; simpl in Hstep;
      try discriminate.
    injection Hstep as ->.
    apply inner_body_unbound in Hb as [[En Hnone] | [En [Es Hnone]]].
    + apply (Hn En). exact Hnone.
    + apply (Hs En Es). exact Hnone.
  - discriminate.
Qed.

(** C8: with reward scaling on and reward normalization off, every episode
    that the loop begins resets the scaler. Reading [reward_scaling] never
    fails, so the reset call succeeds wherever the loop stands; the scaler
    is reset once in every episode, right after the environment is reset
    and before the first step and the first scaling of the episode; the
    start of an episode sets the accumulator R to zero and leaves the
    running statistics as they were at the end of the episode before; R is
    zero when the first reward of an episode arrives. *)
Theorem reward_scaling_reset_every_episode fuel args0 (w : World) n pc l :
  use_reward_scaling args0 = true ->
  use_reward_norm args0 = false ->
  main fuel args0 w n = Ok (pc, l) ->
  (forall k name, main fuel args0 w k <> Raise (UnboundLocalError name))
  /\ (exists st, accept (reset_step true) false (trace l) = Some st
                 /\ (pc = AtInnerWhile -> st = true))
  /\ (pc = AtInnerWhile -> episode_steps l = 0 ->
      exists rs, reward_scaling l = Some rs /\ rs_R rs = 0%float)
  /\ (exists l', episode_start (setup_args args0 w) l = Ok l')
  /\ (forall l',
        episode_start (setup_args args0 w) l = Ok l' ->
        exists rs rs' ev_norm,
          reward_scaling l = Some rs /\ reward_scaling l' = Some rs'
          /\ rs' = RewardScaling_reset rs
          /\ rs_R rs' = 0%float
          /\ rs_running rs' = rs_running rs
          /\ trace l' = trace l ++ [E_env_reset] ++ ev_norm
                        ++ [E_reward_scaling_reset]
          /\ Forall (fun e => norm_event e = true) ev_norm).
Proof.
  intros Hs Hn H. unfold main in H |- *.
  set (args := setup_args args0 w) in *.
  assert (Hopt : use_reward_norm args && use_reward_scaling args = false).
  { change (use_reward_norm args) with (use_reward_norm args0).
    rewrite Hn. reflexivity. }
  split; [intros k name; apply run_no_unbound_local; exact Hopt|].
  pose proof (scaling_inv_reachable fuel args w n (pc, l) Hs H) as Hi.
  unfold scaling_inv in Hi. cbn [fst snd] in Hi.
  destruct Hi as (Hes & Hacc & Hrs).
  split; [exact Hacc|]. split.
  { intros Hpc H0. destruct (Hrs Hpc) as [rs [Hrs1 Hrs2]].
    exists rs. split; [exact Hrs1 | apply Hrs2; exact H0]. }
  split.
  - pose proof (bound_inv_reachable fuel args w n pc l H) as [_ Hb].
    change (use_reward_norm args) with (use_reward_norm args0) in Hb.
    change (use_reward_scaling args) with (use_reward_scaling args0) in Hb.
    specialize (Hb Hn Hs).
    unfold episode_start.
    destruct (env_reset (world l)) as [w1 s0].
    destruct (norm_if _ _ _ _) as [[sn s1] ev_norm].
    change (use_reward_scaling args) with (use_reward_scaling args0).
    rewrite Hs.
    destruct (reward_scaling l) as [rs|]; [|exfalso; apply Hb; reflexivity].
    eexists. reflexivity.
  - intros l' He.
    apply episode_start_inv in He
      as (w1 & s0 & sn & s1 & ev_norm & rs' & ev_reset & _ & Hno & Hr & ->).
    apply norm_if_events in Hno.
    change (use_reward_scaling args) with (use_reward_scaling args0) in Hr.
    rewrite Hs in Hr. destruct Hr as [rs [Hr1 [-> ->]]].
    exists rs, (RewardScaling_reset rs), ev_norm.
    cbn [reward_scaling trace]. repeat split; assumption.
Qed.

(** *** Snapshots and checkpoints *)

Lemma norm_if_training use sn x sn' y (ev : list (Event Params)) :
  norm_if use sn x true = (sn', y, ev) ->
  Forall (fun e => training_event e = true) ev.
Proof.
  intros H. apply norm_if_inv in H as [[_ [_ ->]] | [_ [_ [_ ->]]]];
    repeat constructor.
Qed.

Lemma transform_reward_training args rn rs r rn' rs' r'
    (ev : list (Event Params)) :
  transform_reward args rn rs r = Ok (rn', rs', r', ev) ->
  Forall (fun e => training_event e = true) ev.
Proof.
  intros Ht. apply transform_reward_inv in Ht.
  destruct (expected_transform args) as [[|]|].
  - destruct Ht as [n [_ [_ [_ [_ ->]]]]]. repeat constructor.
  - destruct Ht as [sc [_ [_ [_ [_ ->]]]]]. repeat constructor.
  - destruct Ht as [_ [_ [_ ->]]]. constructor.
Qed.

Lemma update_if_full_training args w b ts w' b' (ev : list (Event Params)) :
  update_if_full args w b ts = (w', b', ev) ->
  Forall (fun e => training_event e = true) ev.
Proof.
  intros Hu. apply update_if_full_inv in Hu
    as [[_ [_ [al [cl [_ ->]]]]] | [_ [_ [_ ->]]]]; repeat constructor.
Qed.

(** The trace of one iteration of the loop: the training part, then what
    [evaluate_if_due] adds. *)
Lemma inner_body_trace fuel args l l' :
  inner_body fuel args l = Ok l' ->
  exists head w3 sn1 ev_eval,
    Forall (fun e => training_event e = true) head
    /\ evaluate_if_due fuel args w3 sn1 (total_steps l + 1)
         (prev_total_steps l) (max_reward l)
       = Ok (world l', state_norm l', prev_total_steps l', max_reward l',
             ev_eval)
    /\ total_steps l' = total_steps l + 1
    /\ trace l' = trace l ++ head ++ ev_eval.
Proof.
  intros H. apply inner_body_inv in H
    as (w1 & a & lp & w2 & s_0 & r0 & d & sn1 & s_ & ev_norm & rn & rs & r
        & ev_reward & b & w3 & b' & ev_update & w4 & sn2 & prev' & mr'
        & ev_eval & _ & _ & Hn & Ht & Hs & Hu & Hv & ->).
  apply norm_if_training in Hn. apply transform_reward_training in Ht.
  apply update_if_full_training in Hu.
  cbv zeta in Hs, Hv.
  match type of Hs with
  | store _ ?t = _ =>
      exists ([E_choose_action (s l) a lp; E_env_step a r0 d]
              ++ ev_norm ++ ev_reward
              ++ [E_store t (episode_steps l + 1) (count b)] ++ ev_update),
        w3, sn1, ev_eval
  end.
  split; [|split; [exact Hv|split; [reflexivity|]]].
  - repeat (apply Forall_app; split); try assumption; repeat constructor.
  - cbn [trace]. rewrite <- !app_assoc. reflexivity.
Qed.

Lemma episode_start_trace args l l' :
  episode_start args l = Ok l' ->
  exists head,
    Forall (fun e => training_event e = true) head
    /\ max_reward l' = max_reward l
    /\ trace l' = trace l ++ head.
Proof.
  intros H. apply episode_start_inv in H
    as (w & s0 & sn & s1 & ev_norm & rs' & ev_reset & _ & Hn & Hrs & ->).
  apply norm_if_training in Hn.
  eexists. split; [|split; reflexivity].
  constructor; [reflexivity|]. apply Forall_app. split; [exact Hn|].
  destruct (use_reward_scaling args).
  - destruct Hrs as [rs [_ [_ ->]]]. repeat constructor.
  - destruct Hrs as [_ ->]. constructor.
Qed.

Lemma snapshot_idle_training best (tr : list (Event Params)) :
  Forall (fun e => training_event e = true) tr ->
  accept snapshot_step (best, Idle) tr = Some (best, Idle).
Proof.
  intros H. apply accept_stutter. eapply Forall_impl; [|exact H].
  intros e He. destruct e; try discriminate; reflexivity.
Qed.

Lemma snapshot_idle_rollout best (tr : list (Event Params)) :
  Forall rollout_event tr ->
  accept snapshot_step (best, Idle) tr = Some (best, Idle).
Proof.
  intros H. apply accept_stutter. eapply Forall_impl; [|exact H].
  intros e He. unfold rollout_event in He.
  destruct e; try discriminate; reflexivity.
Qed.

Lemma no_persist_training (tr : list (Event Params)) :
  Forall (fun e => training_event e = true) tr ->
  Forall (fun e => is_persist e = false) tr.
Proof.
  intros H. eapply Forall_impl; [|exact H].
  intros e He. destruct e; try discriminate; reflexivity.
Qed.

Lemma no_persist_rollout (tr : list (Event Params)) :
  Forall rollout_event tr -> Forall (fun e => is_persist e = false) tr.
Proof.
  intros H. eapply Forall_impl; [|exact H].
  intros e He. unfold rollout_event in He.
  destruct e; try discriminate; reflexivity.
Qed.

Definition snapshot_inv (l : Locals World Params) : Prop :=
  accept snapshot_step (neg_infinity, Idle) (trace l)
  = Some (max_reward l, Idle).

Lemma snapshot_inv_start args l l' :
  snapshot_inv l -> episode_start args l = Ok l' -> snapshot_inv l'.
Proof.
  unfold snapshot_inv. intros Hacc H.
  apply episode_start_trace in H as (head & Hh & -> & ->).
  rewrite accept_app, Hacc. apply snapshot_idle_training. exact Hh.
Qed.

Lemma snapshot_inv_body fuel args l l' :
  snapshot_inv l -> inner_body fuel args l = Ok l' -> snapshot_inv l'.
Proof.
  unfold snapshot_inv. intros Hacc H.
  apply inner_body_trace in H
    as (head & w3 & sn1 & ev_eval & Hh & Hv & _ & ->).
  rewrite accept_app, Hacc, accept_app, (snapshot_idle_training _ head Hh).
  apply evaluate_if_due_inv in Hv
    as [[_ [reward [length [tr [Hp [_ [-> ->]]]]]]]
       | [_ [_ [_ [_ [-> ->]]]]]]; [|reflexivity].
  apply evaluate_policy_inv in Hp as [_ Htr].
  simpl. rewrite accept_app, (snapshot_idle_rollout _ tr Htr). simpl.
  destruct (PrimFloat.leb (max_reward l) reward); simpl;
    rewrite Z.eqb_refl; reflexivity.
Qed.

(** C7 (as the code has it): the trace is accepted by the snapshot
    automaton: after every evaluation the best-policy snapshot is written
    exactly when the reward of the evaluation is at least the reward of the
    last snapshot (minus infinity before the first), a tie included, and
    the log record and the checkpoint follow. An iteration in which the
    evaluation is due ends with these writes: the snapshot holds the actor
    parameters only, the checkpoint holds [total_steps], the parameters of
    actor and critic and the state of both optimizers as they are then; an
    iteration in which it is not due writes nothing. *)
Theorem checkpoint_at_evaluation_best_on_tie fuel args0 (w : World) n pc l :
  main fuel args0 w n = Ok (pc, l) ->
  accept snapshot_step (neg_infinity, Idle) (trace l)
  = Some (max_reward l, Idle)
  /\ forall l',
       inner_body fuel (setup_args args0 w) l = Ok l' ->
       exists new,
         trace l' = trace l ++ new
         /\ if Qle_bool (evaluate_freq args0)
                 (inject_Z (total_steps l + 1 - prev_total_steps l))
            then
              exists pre reward length,
                let best := PrimFloat.leb (max_reward l) reward in
                let wl := world l' in
                new = pre ++ [E_eval_end reward length]
                      ++ (if best then [E_save_best (actor_state_dict wl)]
                          else [])
                      ++ [E_log_eval reward length (total_steps l')
                            (seconds_elapsed wl);
                          E_save_checkpoint (total_steps l')
                            (actor_state_dict wl) (critic_state_dict wl)
                            (optimizer_actor_state_dict wl)
                            (optimizer_critic_state_dict wl)]
                /\ Forall (fun e => is_persist e = false) pre
                /\ max_reward l' = (if best then reward else max_reward l)
                /\ prev_total_steps l' = total_steps l'
            else
              Forall (fun e => is_persist e = false) new
              /\ max_reward l' = max_reward l
              /\ prev_total_steps l' = prev_total_steps l.
Proof.
  intros H. unfold main in H. split.
  - eapply (locals_ind snapshot_inv); [| | |exact H].
    + reflexivity.
    + intros l1 l2 Hi He. eapply snapshot_inv_start; eassumption.
    + intros l1 l2 Hi _ Hb. eapply snapshot_inv_body; eassumption.
  - intros l' Hb.
    apply inner_body_trace in Hb
      as (head & w3 & sn1 & ev_eval & Hh & Hv & Hts & Htr).
    exists (head ++ ev_eval). split; [exact Htr|].
    apply evaluate_if_due_inv in Hv
      as [[Hdue [reward [length [tr [Hp [Hprev [Hmr ->]]]]]]]
         | [Hdue [_ [_ [Hprev [Hmr ->]]]]]];
      change (evaluate_freq (setup_args args0 w)) with (evaluate_freq args0)
        in Hdue;
      rewrite Hdue.
    + apply evaluate_policy_inv in Hp as [_ Hroll].
      exists (head ++ [E_eval_begin] ++ tr), reward, length.
      cbv zeta. rewrite Hts.
      split; [rewrite <- !app_assoc; reflexivity|].
      split; [|split; [exact Hmr | exact Hprev]].
      apply Forall_app. split; [apply no_persist_training; exact Hh|].
      constructor; [reflexivity|]. apply no_persist_rollout. exact Hroll.
    + rewrite app_nil_r.
      split; [apply no_persist_training; exact Hh|].
      split; [exact Hmr | exact Hprev].
Qed.

(** *** Where stored actions come from *)

Lemma prov_run_stay p (tr : list (Event Params)) :
  Forall (fun e => prov_step (Training p) e (Training p)) tr ->
  prov_run (Training p) tr (Training p).
Proof.
  induction 1 as [|e tr He _ IH]; simpl; [reflexivity|].
  exists (Training p). split; assumption.
Qed.

Lemma prov_stay_norm p (tr : list (Event Params)) :
  Forall (fun e => norm_event e = true) tr ->
  prov_run (Training p) tr (Training p).
Proof.
  intros H. apply prov_run_stay. eapply Forall_impl; [|exact H].
  intros e He. destruct e; try discriminate. reflexivity.
Qed.

Lemma prov_stay_reward p args rn rs r rn' rs' r' (ev : list (Event Params)) :
  transform_reward args rn rs r = Ok (rn', rs', r', ev) ->
  prov_run (Training p) ev (Training p).
Proof.
  intros Ht. apply transform_reward_inv in Ht.
  destruct (expected_transform args) as [[|]|].
  - destruct Ht as [n [_ [_ [_ [_ ->]]]]]. simpl. eexists; split; reflexivity.
  - destruct Ht as [sc [_ [_ [_ [_ ->]]]]]. simpl. eexists; split; reflexivity.
  - destruct Ht as [_ [_ [_ ->]]]. reflexivity.
Qed.

Lemma prov_stay_update p args w b ts w' b' (ev : list (Event Params)) :
  update_if_full args w b ts = (w', b', ev) ->
  prov_run (Training p) ev (Training p).
Proof.
  intros Hu. apply update_if_full_inv in Hu
    as [[_ [_ [al [cl [_ ->]]]]] | [_ [_ [_ ->]]]]; [|reflexivity].
  simpl. repeat (eexists; split; [reflexivity|]). reflexivity.
Qed.

Lemma prov_eval_phase fuel args w sn ts prev mr w' sn' prev' mr'
    (ev : list (Event Params)) :
  evaluate_if_due fuel args w sn ts prev mr = Ok (w', sn', prev', mr', ev) ->
  prov_run (Training None) ev (Training None).
Proof.
  intros Hv. apply evaluate_if_due_inv in Hv
    as [[_ [reward [length [tr [Hp [_ [_ ->]]]]]]]
       | [_ [_ [_ [_ [_ ->]]]]]]; [|reflexivity].
  apply evaluate_policy_inv in Hp as [_ Htr].
  apply (prov_run_app _ [E_eval_begin] Evaluating).
  { simpl. eexists; split; reflexivity. }
  apply (prov_run_app _ tr Evaluating).
  { apply prov_run_eval. exact Htr. }
  simpl. exists (Training None). split; [reflexivity|].
  destruct (PrimFloat.leb mr reward); simpl;
    repeat (eexists; split; [reflexivity|]); reflexivity.
Qed.

Definition prov_inv (l : Locals World Params) : Prop :=
  prov_run (Training None) (trace l) (Training None).

Lemma prov_inv_start args l l' :
  prov_inv l -> episode_start args l = Ok l' -> prov_inv l'.
Proof.
  unfold prov_inv. intros Hacc H.
  apply episode_start_inv in H
    as (w & s0 & sn & s1 & ev_norm & rs' & ev_reset & _ & Hn & Hrs & ->).
  apply norm_if_events in Hn. cbn [trace].
  apply (prov_run_app _ (trace l) (Training None)); [exact Hacc|].
  apply (prov_run_app _ [E_env_reset] (Training None)).
  { simpl. eexists; split; reflexivity. }
  apply (prov_run_app _ ev_norm (Training None)).
  { apply prov_stay_norm. exact Hn. }
  destruct (use_reward_scaling args).
  - destruct Hrs as [rs [_ [_ ->]]]. simpl. eexists; split; reflexivity.
  - destruct Hrs as [_ ->]. reflexivity.
Qed.

Lemma prov_inv_body fuel args l l' :
  prov_inv l -> inner_body fuel args l = Ok l' -> prov_inv l'.
Proof.
  unfold prov_inv. intros Hacc H.
  apply inner_body_inv in H
    as (w1 & a & lp & w2 & s_0 & r0 & d & sn1 & s_ & ev_norm & rn & rs & r
        & ev_reward & b & w3 & b' & ev_update & w4 & sn2 & prev' & mr'
        & ev_eval & _ & _ & Hn & Ht & Hs & Hu & Hv & ->).
  apply norm_if_events in Hn. cbn [trace].
  apply (prov_run_app _ (trace l) (Training None)); [exact Hacc|].
  apply (prov_run_app _ [E_choose_action (s l) a lp; E_env_step a r0 d]
           (Training (Some (s l, a, lp)))).
  { simpl. eexists. split; [reflexivity|].
    eexists. split; [|reflexivity].
    split; [exists (s l), lp; reflexivity | reflexivity]. }
  apply (prov_run_app _ ev_norm (Training (Some (s l, a, lp)))).
  { apply prov_stay_norm. exact Hn. }
  apply (prov_run_app _ ev_reward (Training (Some (s l, a, lp)))).
  { eapply prov_stay_reward. exact Ht. }
  apply (prov_run_app _ [E_store _ _ _] (Training None)).
  { simpl. eexists. split; [|reflexivity]. split; reflexivity. }
  apply (prov_run_app _ ev_update (Training None)).
  { eapply prov_stay_update. exact Hu. }
  eapply prov_eval_phase. exact Hv.
Qed.

Lemma prov_inv_reachable fuel args (w : World) n pc l :
  run fuel args n (AtOuterWhile, main_init args w) = Ok (pc, l) ->
  prov_inv l.
Proof.
  intros H. eapply (locals_ind prov_inv); [| | |exact H].
  - reflexivity.
  - intros l1 l2 Hi He. eapply prov_inv_start; eassumption.
  - intros l1 l2 Hi _ Hb. eapply prov_inv_body; eassumption.
Qed.

(** C4: with [deterministic] set, [stochastic_forward] returns as action
    the mean of the distribution, through tanh when the actor is bounded;
    and in the trace of the training loop every stored transition carries
    the state, action and log-probability of the [choose_action] call of
    its step, while [evaluate] is called only between the start and the
    end of an evaluation rollout, where nothing is stored. *)
Theorem evaluate_is_mean_and_only_in_rollouts
    (State Features : Type) (normalize_state : State -> bool -> State)
    (cnn_base : State -> Features)
    (_base_forward : Features -> CnnActor.Tensor)
    latent action_dim en b fstd wm bm wl bl (state : State)
    (update log_probs : bool) (eps : nat -> nat -> R)
    fuel args0 (w : World) n pc l :
  main fuel args0 w n = Ok (pc, l) ->
  (let self := CnnActor.Stochastic_Actor_init latent action_dim en b fstd
                 wm bm wl bl in
   exists mu sd out,
     CnnActor._get_dist_params State Features normalize_state cnn_base
       _base_forward self state update = Some (mu, sd)
     /\ CnnActor.loc (CnnActor.Normal_init mu sd) = mu
     /\ CnnActor.stochastic_forward State Features normalize_state cnn_base
          _base_forward self state true update log_probs eps = Some out
     /\ fst out = (if b then CnnActor.tmap tanh mu else mu))
  /\ prov_run (Training None) (trace l) (Training None).
Proof.
  intros H. split.
  - apply deterministic_action_is_mean.
  - unfold main in H. eapply prov_inv_reachable. exact H.
Qed.

End LoopProperties.

(** ** Concrete runs *)

Section Runs.
Import PPOMain Traces Mock.
Local Open Scope Z_scope.

(** The end-to-end scenario: batch_size = 64 on the mock environment whose
    episodes end at step 10. After 77 steps of the loops (six episodes and
    four iterations of the seventh) 64 transitions were stored and exactly
    one update was made. *)
Lemma update_exactly_when_buffer_full_run :
  exists pc l,
    main (C := mock 10 10) 5 (mock_args 1000 1000 64 false false false) 0 77
    = Ok (pc, l)
    /\ total_steps l = 64
    /\ count (replay_buffer l) = 0
    /\ count_updates (trace l) = 1
    /\ accept (buffer_step 64) (0, Filling) (trace l)
       = Some (count (replay_buffer l), Filling)
    /\ (forall t es c, In (E_store t es c) (trace l) -> c <= 64)
    /\ 0 <= count (replay_buffer l) < 64.
Proof.
  eexists _, _. split; [vm_compute; reflexivity|].
  split; [reflexivity|]. split; [reflexivity|].
  split; [vm_compute; reflexivity|].
  pose proof (update_exactly_when_buffer_full (C := mock 10 10) 5
                (mock_args 1000 1000 64 false false false) 0 77 _ _
                ltac:(reflexivity) ltac:(vm_compute; reflexivity)) as H.
  cbv zeta in H. destruct H as (H1 & H2 & H3 & _).
  split; [exact H1|]. split; [exact H2 | exact H3].
Defined.

(** Episodes that end at step 3, before the horizon 10: the third store of
    each episode has dw set. *)
Lemma dw_iff_done_before_horizon_run :
  exists pc l,
    main (C := mock 3 10) 5 (mock_args 1000 1000 64 false false false) 0 6
    = Ok (pc, l)
    /\ accept (dw_step 10) (0, None) (trace l) = Some (episode_steps l, None)
    /\ forall t es c,
         In (E_store t es c) (trace l) ->
         (tr_dw t = true <-> tr_done t = true /\ es <> 10)
         /\ (tr_done t = true -> es = 10 -> tr_dw t = false).
Proof.
  eexists _, _. split; [vm_compute; reflexivity|].
  exact (dw_iff_done_before_horizon (C := mock 3 10) 5
           (mock_args 1000 1000 64 false false false) 0 6 _ _
           ltac:(vm_compute; reflexivity)).
Defined.

(** A bounded actor with a fixed standard deviation of one. *)
Lemma bounded_log_prob_is_squashed_density_run :
  let self := CnnActor.Stochastic_Actor_init 2 2 None true
                (Some mock_fixed_std)
                (fun _ _ => 1%R) (fun _ => 0%R) (fun _ _ => 0%R) (fun _ => 0%R)
  in
  exists mu sd action lp,
    CnnActor._get_dist_params unit unit (fun s _ => s) (fun s => s)
      mock_base_forward self tt false = Some (mu, sd)
    /\ CnnActor.stochastic_forward unit unit (fun s _ => s) (fun s => s)
         mock_base_forward self tt false false true (fun _ _ => 1%R)
       = Some (action, Some lp)
    /\ CnnActor.rows lp = CnnActor.rows mu /\ CnnActor.cols lp = 1%nat
    /\ forall i c,
         CnnActor.entry lp i c
         = CnnActor.squashed_log_prob_spec 2
             (CnnActor.entry mu i)
             (CnnActor.entry (CnnActor.scale (CnnActor.Normal_init mu sd)) i)
             (CnnActor.entry
                (CnnActor.rsample (CnnActor.Normal_init mu sd)
                   (fun _ _ => 1%R)) i).
Proof.
  apply (bounded_log_prob_is_squashed_density unit unit (fun s _ => s)
           (fun s => s) mock_base_forward 2 2 None (Some mock_fixed_std)).
  intros i j. simpl. apply Rlt_0_1.
Defined.

(** The mock world with an evaluation after every step. *)
Lemma evaluate_is_mean_and_only_in_rollouts_run :
  exists pc l,
    main (C := mock 10 10) 5 (mock_args 1000 1 64 true false false) 0 3
    = Ok (pc, l)
    /\ (let self := CnnActor.Stochastic_Actor_init 2 2 None true None
                      (fun _ _ => 1%R) (fun _ => 0%R)
                      (fun _ _ => 0%R) (fun _ => 0%R) in
        exists mu sd out,
          CnnActor._get_dist_params unit unit (fun s _ => s) (fun s => s)
            mock_base_forward self tt false = Some (mu, sd)
          /\ CnnActor.loc (CnnActor.Normal_init mu sd) = mu
          /\ CnnActor.stochastic_forward unit unit (fun s _ => s)
               (fun s => s) mock_base_forward self tt true false false
               (fun _ _ => 1%R) = Some out
          /\ fst out = CnnActor.tmap tanh mu)
    /\ prov_run (Training None) (trace l) (Training None).
Proof.
  eexists _, _. split; [vm_compute; reflexivity|].
  exact (evaluate_is_mean_and_only_in_rollouts (C := mock 10 10)
           unit unit (fun s _ => s) (fun s => s) mock_base_forward
           2 2 None true None
           (fun _ _ => 1%R) (fun _ => 0%R) (fun _ _ => 0%R) (fun _ => 0%R)
           tt false false (fun _ _ => 1%R)
           5 (mock_args 1000 1 64 true false false) 0 3 _ _
           ltac:(vm_compute; reflexivity)).
Defined.

(** An evaluation with state normalization on: three episodes of one
    step. *)
Lemma evaluation_leaves_normalizer_unchanged_run :
  exists w' sn' res tr,
    evaluate_policy (C := mock 10 10) 5
      (mock_args 1000 1 64 true false false) 0 (Normalization_init 1)
    = Some (w', sn', res, tr)
    /\ (forall u, In (E_state_norm u) tr -> u = false)
    /\ sn' = Normalization_init 1
    /\ running_mean (running_ms sn')
       = running_mean (running_ms (Normalization_init 1))
    /\ running_variance (running_ms sn')
       = running_variance (running_ms (Normalization_init 1))
    /\ sample_count (running_ms sn')
       = sample_count (running_ms (Normalization_init 1)).
Proof.
  eexists _, _, _, _. split; [vm_compute; reflexivity|].
  exact (evaluation_leaves_normalizer_unchanged (C := mock 10 10) 5
           (mock_args 1000 1 64 true false false) 0 (Normalization_init 1)
           _ _ _ _ ltac:(vm_compute; reflexivity)).
Defined.

(** Two evaluations, both with reward 1. *)
Lemma checkpoint_at_evaluation_best_on_tie_run :
  exists pc l,
    main (C := mock 10 10) 5 (mock_args 1000 1 64 false false false) 0 3
    = Ok (pc, l)
    /\ accept snapshot_step (neg_infinity, Idle) (trace l)
       = Some (max_reward l, Idle).
Proof.
  eexists _, _. split; [vm_compute; reflexivity|].
  exact (proj1 (checkpoint_at_evaluation_best_on_tie (C := mock 10 10) 5
                  (mock_args 1000 1 64 false false false) 0 3 _ _
                  ltac:(vm_compute; reflexivity))).
Defined.

(** The second evaluation of that run has the reward of the first, 1, which
    is no new maximum; the snapshot is written all the same. *)
Lemma snapshot_written_on_tie :
  exists pc l,
    main (C := mock 10 10) 5 (mock_args 1000 1 64 false false false) 0 3
    = Ok (pc, l)
    /\ eval_rewards (trace l) = [1%float; 1%float]
    /\ ~ snapshots_only_at_new_maximum (trace l).
Proof.
  eexists _, _. split; [vm_compute; reflexivity|].
  split; [vm_compute; reflexivity|].
  cbn [trace].
  match goal with
  | |- ~ snapshots_only_at_new_maximum ?T =>
      intros Hc;
      pose proof (Hc (firstn 31 T) 1%float 1%float tt (skipn 33 T)
                    eq_refl 1%float) as H
  end.
  assert (Hlt : PrimFloat.ltb 1 1 = true)
    by (apply H; vm_compute; left; reflexivity).
  vm_compute in Hlt. discriminate.
Defined.

(** Reward scaling on, reward normalization off, episodes of three
    steps. *)
Lemma reward_scaling_reset_every_episode_run :
  exists pc l,
    main (C := mock 3 10) 5 (mock_args 1000 1000 64 false false true) 0 6
    = Ok (pc, l)
    /\ (exists st, accept (reset_step true) false (trace l) = Some st
                   /\ (pc = AtInnerWhile -> st = true))
    /\ (pc = AtInnerWhile -> episode_steps l = 0 ->
        exists rs, reward_scaling l = Some rs /\ rs_R rs = 0%float)
    /\ (exists l',
          episode_start (C := mock 3 10)
            (setup_args (C := mock 3 10)
               (mock_args 1000 1000 64 false false true) 0) l
          = Ok l').
Proof.
  eexists _, _. split; [vm_compute; reflexivity|].
  pose proof (reward_scaling_reset_every_episode (C := mock 3 10) 5
                (mock_args 1000 1000 64 false false true) 0 6 _ _
                ltac:(reflexivity) ltac:(reflexivity)
                ltac:(vm_compute; reflexivity))
    as (_ & H1 & H2 & H3 & _).
  split; [exact H1|]. split; [exact H2 | exact H3].
Defined.

(** Reward scaling and reward normalization both on: [reward_scaling] was
    never created, the loop begins its first episode, and the reset raises
    instead of resetting the scaler. *)
Lemma scaling_reset_raises_with_reward_norm :
  exists pc l,
    use_reward_scaling (mock_args 1000 1000 64 false true true) = true
    /\ main (C := mock 3 10) 5 (mock_args 1000 1000 64 false true true) 0 0
       = Ok (pc, l)
    /\ pc = AtOuterWhile
    /\ total_steps l < max_train_steps (mock_args 1000 1000 64 false true true)
    /\ episode_start (C := mock 3 10)
         (setup_args (C := mock 3 10)
            (mock_args 1000 1000 64 false true true) 0) l
       = Raise (UnboundLocalError "reward_scaling")
    /\ main (C := mock 3 10) 5 (mock_args 1000 1000 64 false true true) 0 1
       = Raise (UnboundLocalError "reward_scaling").
Proof.
  eexists _, _. split; [reflexivity|].
  split; [vm_compute; reflexivity|].
  split; [reflexivity|]. split; [reflexivity|].
  split; vm_compute; reflexivity.
Defined.

(** An unbounded actor with a fixed standard deviation of one. *)
Lemma deterministic_log_prob_is_of_a_sample_run :
  let self := CnnActor.Stochastic_Actor_init 2 2 None false
                (Some mock_fixed_std)
                (fun _ _ => 1%R) (fun _ => 0%R) (fun _ _ => 0%R) (fun _ => 0%R)
  in
  exists mu sd action lp,
    CnnActor._get_dist_params unit unit (fun s _ => s) (fun s => s)
      mock_base_forward self tt false = Some (mu, sd)
    /\ CnnActor.stochastic_forward unit unit (fun s _ => s) (fun s => s)
         mock_base_forward self tt true false true (fun _ _ => 1%R)
       = Some (action, Some lp)
    /\ action = mu
    /\ (CnnActor.entry lp 0 0
        < CnnActor.sum_upto 2 (fun j =>
            CnnActor.normal_log_prob (CnnActor.entry mu 0 j)
              (CnnActor.entry (CnnActor.scale (CnnActor.Normal_init mu sd)) 0 j)
              (CnnActor.entry action 0 j)))%R.
Proof.
  destruct (deterministic_log_prob_is_of_a_sample unit unit (fun s _ => s)
              (fun s => s) mock_base_forward 2 2 None false
              (Some mock_fixed_std)
              (fun _ _ => 1%R) (fun _ => 0%R) (fun _ _ => 0%R) (fun _ => 0%R)
              tt false (fun _ _ => 1%R)
              ltac:(intros i j; simpl; apply Rlt_0_1))
    as (mu & sd & action & lp & H1 & H2 & H3 & _ & H5).
  exists mu, sd, action, lp.
  split; [exact H1|]. split; [exact H2|]. split; [exact H3|].
  apply (H5 eq_refl 0%nat 0%nat).
  exists 0%nat. split; [lia|]. apply R1_neq_R0.
Defined.

End Runs.

(* ================================================================== *)
(** * Part III: further properties                                     *)
(* ================================================================== *)

(** ** cnn_actor.py: the forward methods and the bounds of the outputs *)

Module ActorVariants.
Import CnnActor.

(** A keyword argument with a default value. *)
Definition keyword (default : bool) (given : option bool) : bool :=
  match given with
  | Some v => v
  | None => default
  end.

Section Forward.
Variables State Features : Type.
Variable normalize_state : State -> bool -> State.
Variable cnn_base : State -> Features.
Variable _base_forward : Features -> Tensor.

(** [forward(self, x, deterministic=True, update_norm=False,
    return_log_probs=False)], the same in [FF_Stochastic_Actor],
    [LSTM_Stochastic_Actor] and [GRU_Stochastic_Actor] (lines 74-75, 94-95
    and 111-112). *)
Definition forward (self : Stochastic_Actor) (x : State)
    (deterministic update_norm return_log_probs : option bool)
    (eps : nat -> nat -> R) : option (Tensor * option Tensor) :=
  stochastic_forward State Features normalize_state cnn_base _base_forward
    self x
    (keyword true deterministic) (keyword false update_norm)
    (keyword false return_log_probs) eps.
End Forward.
End ActorVariants.

Section ActorFurther.
Import CnnActor CnnActorFacts ActorVariants.
Local Open Scope R_scope.

Variables State Features : Type.
Variable normalize_state : State -> bool -> State.
Variable cnn_base : State -> Features.
Variable _base_forward : Features -> Tensor.

Let get_params := _get_dist_params State Features normalize_state cnn_base
                    _base_forward.
Let sforward := stochastic_forward State Features normalize_state cnn_base
                  _base_forward.



(** X1: for an actor built by [__init__] whose standard deviation is
    learned, or fixed with positive entries, [stochastic_forward] raises
    for no combination of its flags: the locals [dist] and [sample] are
    bound wherever they are read, and the scale that [Normal] is built with
    is positive in every entry, as the validation of its arguments
    requires. The action has one row per input row and action_dim columns;
    the log-probability is returned exactly when [log_probs] is set and
    then has one column. *)
Theorem stochastic_forward_returns_with_positive_std latent action_dim en b
    fstd wm bm wl bl (state : State) (deterministic update log_probs : bool)
    (eps : nat -> nat -> R) :
  match fstd with
  | Some t => forall i j, 0 < entry t i j
  | None => True
  end ->
  let self := Stochastic_Actor_init latent action_dim en b fstd wm bm wl bl in
  let batch := rows (_base_forward (cnn_base (normalize_state state update))) in
  exists mu sd action lp,
    get_params self state update = Some (mu, sd)
    /\ (forall i j, 0 < entry (scale (Normal_init mu sd)) i j)
    /\ sforward self state deterministic update log_probs eps
       = Some (action, lp)
    /\ rows action = batch /\ cols action = action_dim
    /\ match lp with
       | Some t => log_probs = true /\ rows t = batch /\ cols t = 1%nat
       | None => log_probs = false
       end.
Proof.
  intros Hpos self batch.
  pose proof (get_dist_params_init State Features normalize_state cnn_base
                _base_forward latent action_dim en b fstd wm bm wl bl
                state update) as Hget.
  cbv zeta in Hget. fold get_params in Hget. fold self in Hget.
  pose proof (init_std_pos State Features normalize_state cnn_base
                _base_forward latent action_dim en b fstd wm bm wl bl
                state update _ _ Hpos Hget) as Hsd.
  unfold sforward, stochastic_forward. fold get_params. rewrite Hget.
  assert (Hb : bounded self = b) by reflexivity. rewrite Hb.
  destruct deterministic, log_probs, b; cbn [negb orb option_map];
    eexists _, _, _, _; (split; [reflexivity|]);
    (split; [intros i j; unfold Normal_init, broadcast_to;
             cbn [scale entry]; apply Hsd|]);
    (split; [reflexivity|]); repeat split.
Qed.


Lemma sum_upto_le_const (n : nat) (f : nat -> R) (M : R) :
  (forall j, (j < n)%nat -> f j <= M) -> sum_upto n f <= INR n * M.
Proof.
  induction n as [|n IH]; intros H.
  - simpl. lra.
  - simpl sum_upto. rewrite S_INR.
    assert (sum_upto n f <= INR n * M) by (apply IH; intros; apply H; lia).
    assert (f n <= M) by (apply H; lia). lra.
Qed.


Lemma sum_upto_three (n : nat) (f g : nat -> R) (K : R) :
  sum_upto n (fun j => - f j - g j - K)
  = - sum_upto n f - sum_upto n g - INR n * K.
Proof.
  induction n as [|n IH].
  - simpl. lra.
  - simpl sum_upto. rewrite S_INR, IH. lra.
Qed.


(** The log-density at a sample loc + eps * exp(c) of a distribution with
    scale exp(c). *)
Lemma normal_log_prob_exp_scale (m c e : R) :
  normal_log_prob m (exp c) (m + e * exp c)
  = - (e ^ 2 / 2) - c - ln (sqrt (2 * PI)).
Proof.
  rewrite normal_log_prob_at_sample
    by (apply Rgt_not_eq, exp_pos).
  unfold normal_log_prob. rewrite ln_exp.
  replace (m - m) with 0 by lra.
  replace (- 0 ^ 2 / (2 * exp c ^ 2)) with 0; [lra|].
  unfold Rdiv. replace (- 0 ^ 2) with 0 by lra. rewrite Rmult_0_l. reflexivity.
Qed.

(** Broadcasting a tensor to its own shape changes no entry of it. *)
Lemma broadcast_to_own_shape (t : Tensor) (i j : nat) :
  (i < rows t)%nat -> (j < cols t)%nat ->
  entry (broadcast_to t (rows t) (cols t)) i j = entry t i j.
Proof.
  intros Hi Hj. simpl.
  destruct (Nat.eqb_spec (rows t) 1) as [Hr|_];
    destruct (Nat.eqb_spec (cols t) 1) as [Hc|_];
    try (replace i with 0%nat by lia); try (replace j with 0%nat by lia);
    reflexivity.
Qed.

(** X4: for an unbounded actor with a learned standard deviation the
    log-probability does not depend on the mean: for every row of the batch
    it is minus the sum of eps^2 / 2, minus the sum of the clamped outputs
    of [log_stds], minus action_dim * log(sqrt(2 pi)); it is at most
    action_dim * (2 - log(sqrt(2 pi))). *)
Theorem unbounded_log_prob_closed_form latent action_dim en wm bm wl bl
    (state : State) (deterministic update : bool) (eps : nat -> nat -> R) :
  let self := Stochastic_Actor_init latent action_dim en false None
                wm bm wl bl in
  let x := _base_forward (cnn_base (normalize_state state update)) in
  let log_std := Linear_forward (mkLinear latent action_dim wl bl) x in
  exists action lp,
    sforward self state deterministic update true eps
    = Some (action, Some lp)
    /\ forall i c,
         (i < rows x)%nat ->
         entry lp i c
         = - sum_upto action_dim (fun j => eps i j ^ 2 / 2)
           - sum_upto action_dim (fun j => clamp (entry log_std i j) (-2) 1)
           - INR action_dim * ln (sqrt (2 * PI))
         /\ entry lp i c <= INR action_dim * (2 - ln (sqrt (2 * PI))).
Proof.
  intros self x log_std.
  pose proof (get_dist_params_init State Features normalize_state cnn_base
                _base_forward latent action_dim en false None wm bm wl bl
                state update) as Hget.
  cbv zeta in Hget. fold get_params in Hget. fold self in Hget.
  fold x in Hget. fold log_std in Hget.
  pose proof (forward_log_probs State Features normalize_state cnn_base
                _base_forward self state deterministic update eps _ _ Hget)
    as Hf.
  cbv zeta in Hf. fold sforward in Hf.
  assert (Hb : bounded self = false) by reflexivity. rewrite Hb in Hf.
  eexists _, _. split; [exact Hf|].
  set (mu := Linear_forward (mkLinear latent action_dim wm bm) x).
  set (sd := tmap exp (tmap (fun v => clamp v (-2) 1) log_std)).
  intros i c Hi.
  assert (Heq :
    entry (sum1_keepdim
             (log_prob (Normal_init mu sd) (rsample (Normal_init mu sd) eps)))
          i c
    = sum_upto action_dim
        (fun j => - (eps i j ^ 2 / 2) - clamp (entry log_std i j) (-2) 1
                  - ln (sqrt (2 * PI)))).
  { cbn [sum1_keepdim entry log_prob loc cols Normal_init mu Linear_forward
         out_features].
    apply sum_upto_ext. intros j Hj.
    cbn [rsample entry loc scale Normal_init].
    replace (entry (broadcast_to sd (rows mu) (cols mu)) i j)
      with (entry sd i j)
      by (symmetry; apply (broadcast_to_own_shape sd i j); assumption).
    apply normal_log_prob_exp_scale. }
  split.
  - etransitivity; [exact Heq|]. apply sum_upto_three.
  - etransitivity; [right; exact Heq|].
    apply sum_upto_le_const. intros j _.
    pose proof (clamp_bounds (entry log_std i j) (-2) 1 ltac:(lra)) as [Hc _].
    pose proof (pow2_ge_0 (eps i j)). lra.
Qed.



(** X6: [forward] called with the state alone takes the deterministic
    path: it returns the mean (through tanh when bounded) and no
    log-probability, and nothing is sampled: the result is the same for
    every random draw. *)
Theorem forward_defaults_are_deterministic latent action_dim en b fstd
    wm bm wl bl (state : State) (eps eps' : nat -> nat -> R) :
  let self := Stochastic_Actor_init latent action_dim en b fstd wm bm wl bl in
  let fwd := forward State Features normalize_state cnn_base _base_forward
               self state None None None in
  exists mu sd,
    get_params self state false = Some (mu, sd)
    /\ fwd eps = Some ((if b then tmap tanh mu else mu), None)
    /\ fwd eps' = fwd eps.
Proof.
  intros self fwd.
  pose proof (get_dist_params_init State Features normalize_state cnn_base
                _base_forward latent action_dim en b fstd wm bm wl bl
                state false) as Hget.
  cbv zeta in Hget. fold get_params in Hget. fold self in Hget.
  eexists _, _. split; [exact Hget|].
  subst fwd. unfold forward, keyword, stochastic_forward.
  fold get_params. rewrite Hget.
  assert (Hb : bounded self = b) by reflexivity. rewrite Hb.
  destruct b; split; reflexivity.
Qed.

End ActorFurther.

(** ** PPO_discrete_main.py: the course of a run *)

Module Counting.
Import PPOMain.
Local Open Scope Z_scope.

Section Counts.
Context {Params : Type}.

(** The number of events of a kind in a trace. *)
Definition count_of (p : Event Params -> bool) (tr : list (Event Params)) : Z :=
  Z.of_nat (List.length (filter p tr)).

Definition is_store (e : Event Params) : bool :=
  match e with E_store _ _ _ => true | _ => false end.

Definition is_env_step (e : Event Params) : bool :=
  match e with E_env_step _ _ _ => true | _ => false end.

Definition is_env_reset (e : Event Params) : bool :=
  match e with E_env_reset => true | _ => false end.

Definition is_choose_action (e : Event Params) : bool :=
  match e with E_choose_action _ _ _ => true | _ => false end.

Definition is_eval_end (e : Event Params) : bool :=
  match e with E_eval_end _ _ => true | _ => false end.

Definition is_checkpoint (e : Event Params) : bool :=
  match e with E_save_checkpoint _ _ _ _ _ => true | _ => false end.

Definition is_norm_update (e : Event Params) : bool :=
  match e with E_state_norm true => true | _ => false end.

Definition is_norm_read (e : Event Params) : bool :=
  match e with E_state_norm false => true | _ => false end.

Definition is_eval_reset (e : Event Params) : bool :=
  match e with E_eval_env_reset => true | _ => false end.

Definition is_eval_step (e : Event Params) : bool :=
  match e with E_eval_env_step _ _ _ => true | _ => false end.

Definition is_eval_done (e : Event Params) : bool :=
  match e with E_eval_env_step _ _ true => true | _ => false end.

Definition is_evaluate (e : Event Params) : bool :=
  match e with E_evaluate _ _ => true | _ => false end.

Lemma count_of_app p (t1 t2 : list (Event Params)) :
  count_of p (t1 ++ t2) = count_of p t1 + count_of p t2.
Proof. unfold count_of. rewrite filter_app, length_app. lia. Qed.

Lemma count_of_cons p e (tr : list (Event Params)) :
  count_of p (e :: tr) = (if p e then 1 else 0) + count_of p tr.
Proof.
  unfold count_of. simpl. destruct (p e); simpl List.length; lia.
Qed.

Lemma count_of_nil p : count_of p (@nil (Event Params)) = 0.
Proof. reflexivity. Qed.

Lemma count_of_none p (tr : list (Event Params)) :
  Forall (fun e => p e = false) tr -> count_of p tr = 0.
Proof.
  induction 1 as [|e tr He _ IH]; [reflexivity|].
  rewrite count_of_cons, He, IH. reflexivity.
Qed.

Lemma count_of_nonneg p (tr : list (Event Params)) : 0 <= count_of p tr.
Proof. unfold count_of. lia. Qed.

(** *** The chain of states *)

(** The state is the current state of the running episode as far as the
    trace tells it: unknown right after [env.reset], whose observation the
    trace does not record; then the state on which the first action of the
    episode is chosen; then the next state of each store. An action is
    chosen on the current state, and a store takes the state on which the
    action of its step was chosen. *)
Definition chain_step (st : option Obs) (e : Event Params)
    (st' : option Obs) : Prop :=
  match e with
  | E_env_reset => st' = None
  | E_choose_action s _ _ =>
      match st with Some x => s = x | None => True end /\ st' = Some s
  | E_store t _ _ => st = Some (tr_s t) /\ st' = Some (tr_s_ t)
  | _ => st' = st
  end.

Fixpoint chain_run (st : option Obs) (tr : list (Event Params))
    (st' : option Obs) : Prop :=
  match tr with
  | [] => st' = st
  | e :: tr' => exists st1, chain_step st e st1 /\ chain_run st1 tr' st'
  end.

End Counts.
End Counting.

Section LoopFurther.
Import PPOMain Traces MainFacts Counting.
Local Open Scope Z_scope.

Context {World Params : Type} {C : Collaborators World Params}.

(** *** The step budget *)

(** The budget is tested between episodes only. *)
Definition budget_inv (max_steps : Z) (c : PC * Locals World Params) : Prop :=
  let l := snd c in
  let between :=
    (trace l = [] /\ total_steps l = 0)
    \/ (done l = true /\ total_steps l - episode_steps l < max_steps) in
  0 <= episode_steps l <= total_steps l
  /\ match fst c with
     | AtInnerWhile => total_steps l - episode_steps l < max_steps
     | AtOuterWhile => between
     | Returned => max_steps <= total_steps l /\ between
     end.

Lemma budget_inv_step fuel args c c' :
  budget_inv (max_train_steps args) c -> step fuel args c = Ok c' ->
  budget_inv (max_train_steps args) c'.
Proof.
  destruct c as [pc l]. intros Hi Hs. unfold budget_inv in Hi.
  cbn [fst snd] in Hi. destruct Hi as [Hes Hpc].
  apply step_inv in Hs
    as [[-> [Hlt [l' [He ->]]]] | [[-> [Hd [l' [Hb ->]]]] | [Hl Hc]]].
  - apply episode_start_inv in He
      as (w & s0 & sn & s1 & ev_norm & rs' & ev_reset & _ & _ & _ & ->).
    unfold budget_inv; cbn [fst snd total_steps episode_steps].
    destruct Hpc as [[_ H0] | [_ H1]]; split; lia.
  - apply inner_body_inv in Hb
      as (w1 & a & lp & w2 & s_0 & r0 & d & sn1 & s_ & ev_norm & rn & rs & r
          & ev_reward & b & w3 & b' & ev_update & w4 & sn2 & prev' & mr'
          & ev_eval & _ & _ & _ & _ & _ & _ & _ & ->).
    unfold budget_inv; cbn [fst snd total_steps episode_steps].
    split; lia.
  - destruct c' as [pc' l']. cbn [fst snd] in Hl, Hc. subst l'.
    unfold budget_inv; cbn [fst snd]. split; [exact Hes|].
    destruct Hc as [[-> [Hge ->]] | [[-> [Hd ->]] | [-> ->]]].
    + split; assumption.
    + right. split; assumption.
    + exact Hpc.
Qed.

(** X7: the step budget is tested between episodes only. Inside an episode
    the episode began below [max_train_steps]; when [main] returns,
    [total_steps] has reached [max_train_steps] and either nothing was done
    at all or the last episode has ended and had begun below the budget: the
    budget is exceeded by less than the length of the last episode. *)
Theorem budget_checked_between_episodes fuel args0 (w : World) n pc l :
  main fuel args0 w n = Ok (pc, l) ->
  let M := max_train_steps args0 in
  0 <= episode_steps l <= total_steps l
  /\ (pc = AtInnerWhile -> total_steps l - episode_steps l < M)
  /\ (pc = Returned ->
      M <= total_steps l
      /\ ((trace l = [] /\ total_steps l = 0)
          \/ (done l = true /\ total_steps l < M + episode_steps l))).
Proof.
  intros H M. unfold main in H.
  apply (run_ind (budget_inv M) fuel (setup_args args0 w)) in H.
  - unfold budget_inv in H. cbn [fst snd] in H. destruct H as [Hes Hpc].
    split; [exact Hes|]. split.
    + intros ->. exact Hpc.
    + intros ->. destruct Hpc as [Hge [H0 | [Hd Hlt]]].
      * split; [exact Hge | left; exact H0].
      * split; [exact Hge | right; split; [exact Hd | lia]].
  - unfold budget_inv; cbn. split; [lia|]. left. split; reflexivity.
  - intros c c'. apply (budget_inv_step fuel (setup_args args0 w)).
Qed.

(** *** Exceptions *)

Lemma inner_body_raises fuel args l e :
  inner_body fuel args l = Raise e ->
  (use_reward_norm args = true /\ reward_norm l = None)
  \/ (use_reward_norm args = false /\ use_reward_scaling args = true
      /\ reward_scaling l = None)
  \/ capacity (replay_buffer l) <= count (replay_buffer l).
Proof.
  unfold inner_body.
  destruct (agent_choose_action (world l) (s l)) as [w1 [a lp]].
  destruct (env_step w1 a) as [w2 [[s_0 r0] d]].
  destruct (norm_if _ _ _ _) as [[sn1 s_] ev_norm].
  destruct (transform_reward args (reward_norm l) (reward_scaling l) r0)
    as [[[[rn rs] r] ev_reward]|e0|] eqn:Ht; simpl; try discriminate.
  2:{ intros _. apply transform_reward_unbound in Ht as [H | H];
        [left; exact H | right; left; exact H]. }
  unfold store.
  destruct (count (replay_buffer l) <? capacity (replay_buffer l)) eqn:Hc.
  - destruct (update_if_full _ _ _ _) as [[w3 b'] ev_update].
    destruct (evaluate_if_due _ _ _ _ _ _ _)
      as [[[[[w4 sn2] prev'] mr'] ev_eval]|e0|] eqn:Hv; simpl;
      try discriminate.
    exfalso. eapply evaluate_if_due_no_raise; exact Hv.
  - intros _. right. right. apply Z.ltb_ge in Hc. exact Hc.
Qed.

(** X9: with a positive batch size and at most one of [use_reward_norm] and
    [use_reward_scaling] set, the training loop raises no exception: every
    local it reads is bound and no store overflows the buffer. *)
Theorem no_exception_with_one_reward_option fuel args0 (w : World) n :
  0 < batch_size args0 ->
  use_reward_norm args0 && use_reward_scaling args0 = false ->
  forall e, main fuel args0 w n <> Raise e.
Proof.
  intros HB Hopt. unfold main.
  set (args := setup_args args0 w).
  induction n as [|n IH]; [discriminate|].
  intros e. rewrite run_S.
  destruct (run fuel args n (AtOuterWhile, main_init args w))
    as [[pc l]|e0|] eqn:Hr; unfold bind; [| |discriminate].
  2:{ exfalso. exact (IH e0 eq_refl). }
  pose proof (bound_inv_reachable fuel args w n pc l Hr) as [Hn Hs].
  pose proof (buffer_inv_reachable fuel args w n pc l HB Hr)
    as (Hcap & Hc & _).
  change (use_reward_norm args) with (use_reward_norm args0) in Hn, Hs.
  change (use_reward_scaling args) with (use_reward_scaling args0) in Hs.
  change (batch_size args) with (batch_size args0) in Hcap, Hc.
  intros Hstep. unfold step in Hstep. destruct pc.
  - destruct (total_steps l <? max_train_steps args); [|discriminate].
    destruct (episode_start args l) as [l'|e1|] eqn:He; simpl in Hstep;
      try discriminate.
    apply episode_start_unbound in He as [Hsc Hnone].
    change (use_reward_scaling args) with (use_reward_scaling args0) in Hsc.
    destruct (use_reward_norm args0) eqn:En.
    + rewrite Hsc in Hopt. discriminate.
    + apply (Hs eq_refl Hsc). exact Hnone.
  - destruct (negb (done l)); [|discriminate].
    destruct (inner_body fuel args l) as [l'|e1|] eqn:Hb; simpl in Hstep;
      try discriminate.
    apply inner_body_raises in Hb as [[En Hnone] | [[En [Es Hnone]] | Hov]].
    + apply (Hn En). exact Hnone.
    + apply (Hs En Es). exact Hnone.
    + lia.
  - discriminate.
Qed.

(** *** The calls of an evaluation *)

Ltac count_split := rewrite ?count_of_app, ?count_of_cons, ?count_of_nil.

Ltac count_kinds :=
  cbn
    [is_store is_env_step is_env_reset is_choose_action is_eval_end
     is_checkpoint is_norm_update is_norm_read is_eval_reset is_eval_step
     is_eval_done is_evaluate].

Lemma evaluate_episode_counts fuel args done w sn s er el
    (tr : list (Event Params)) w' sn' er' el' tr' :
  evaluate_episode fuel args done w sn s er el tr
  = Some (w', sn', er', el', tr') ->
  exists evs,
    tr' = tr ++ evs
    /\ 0 <= el' - el
    /\ count_of is_evaluate evs = el' - el
    /\ count_of is_eval_step evs = el' - el
    /\ count_of is_eval_reset evs = 0
    /\ count_of is_eval_done evs = (if done then 0 else 1)
    /\ count_of is_norm_read evs
       = (if use_state_norm args then el' - el else 0).
Proof.
  revert done w sn s er el tr.
  induction fuel as [|fuel IH]; intros done w sn s er el tr H; simpl in H.
  - destruct done; [|discriminate]. injection H as _ _ _ <- <-.
    exists []. rewrite app_nil_r, !count_of_nil.
    destruct (use_state_norm args); repeat split; lia.
  - destruct done.
    + injection H as _ _ _ <- <-.
      exists []. rewrite app_nil_r, !count_of_nil.
      destruct (use_state_norm args); repeat split; lia.
    + destruct (agent_evaluate w s) as [w1 a].
      destruct (env_evaluate_step w1 a) as [w2 [[s_ r] d]].
      destruct (norm_if (use_state_norm args) sn s_ false)
        as [[sn1 s1] ev] eqn:Hn.
      apply IH in H as (evs & -> & Hge & H1 & H2 & H3 & H4 & H5).
      exists ([E_evaluate s a; E_eval_env_step a r d] ++ ev ++ evs).
      split; [rewrite <- !app_assoc; reflexivity|].
      apply norm_if_inv in Hn as [[Hu [_ ->]] | [Hu [_ [_ ->]]]];
        rewrite Hu in *; count_split; rewrite ?H1, ?H2, ?H3, ?H4, ?H5;
        count_kinds; destruct d; repeat split; lia.
Qed.

Lemma evaluate_epochs_counts epochs fuel args w sn reward length
    (tr : list (Event Params)) w' sn' reward' length' tr' :
  evaluate_epochs epochs fuel args w sn reward length tr
  = Some (w', sn', reward', length', tr') ->
  exists evs,
    tr' = tr ++ evs
    /\ 0 <= length' - length
    /\ count_of is_evaluate evs = length' - length
    /\ count_of is_eval_step evs = length' - length
    /\ count_of is_eval_reset evs = Z.of_nat epochs
    /\ count_of is_eval_done evs = Z.of_nat epochs
    /\ count_of is_norm_read evs
       = (if use_state_norm args
          then Z.of_nat epochs + (length' - length) else 0).
Proof.
  revert w sn reward length tr.
  induction epochs as [|epochs IH]; intros w sn reward length tr H;
    simpl in H.
  - injection H as _ _ _ <- <-. exists [].
    rewrite app_nil_r, !count_of_nil.
    destruct (use_state_norm args); repeat split; lia.
  - destruct (env_evaluate_reset w) as [w1 s1].
    destruct (norm_if (use_state_norm args) sn s1 false)
      as [[sn1 s2] ev] eqn:Hn.
    destruct (evaluate_episode _ _ _ _ _ _ _ _ _)
      as [[[[[w2 sn2] er] el] tr2]|] eqn:He; [|discriminate].
    apply evaluate_episode_counts in He
      as (evs1 & -> & Hge1 & A1 & A2 & A3 & A4 & A5).
    apply IH in H as (evs2 & -> & Hge2 & B1 & B2 & B3 & B4 & B5).
    exists ([E_eval_env_reset] ++ ev ++ evs1 ++ evs2).
    split; [rewrite <- !app_assoc; reflexivity|].
    rewrite Nat2Z.inj_succ.
    apply norm_if_inv in Hn as [[Hu [_ ->]] | [Hu [_ [_ ->]]]];
      rewrite Hu in *; count_split;
      rewrite ?A1, ?A2, ?A3, ?A4, ?A5, ?B1, ?B2, ?B3, ?B4, ?B5;
      count_kinds; repeat split; lia.
Qed.

(** The calls of a completed [evaluate_policy], by kind. *)
Lemma evaluate_policy_counts fuel args (w : World)
    (sn : Normalization) w' sn' res (tr : list (Event Params)) :
  evaluate_policy fuel args w sn = Some (w', sn', res, tr) ->
  let steps := count_of is_eval_step tr in
  count_of is_eval_reset tr = 3
  /\ count_of is_eval_done tr = 3
  /\ 3 <= steps
  /\ count_of is_evaluate tr = steps
  /\ count_of is_norm_read tr
     = (if use_state_norm args then 3 + steps else 0)
  /\ count_of is_norm_update tr = 0
  /\ count_of is_env_step tr = 0 /\ count_of is_env_reset tr = 0
  /\ count_of is_store tr = 0
  /\ snd res = (Z2F steps / Z2F 3)%float.
Proof.
  intros H steps. pose proof H as Hroll.
  apply evaluate_policy_inv in Hroll as [_ Hroll].
  unfold evaluate_policy in H.
  destruct (evaluate_epochs 3 fuel args w sn 0%float 0 [])
    as [[[[[w2 sn2] reward] length] tr2]|] eqn:He; [|discriminate].
  injection H as _ _ <- <-.
  apply evaluate_epochs_counts in He
    as (evs & -> & Hge & A1 & A2 & A3 & A4 & A5).
  cbn [app] in *. subst steps.
  assert (Hdone : count_of is_eval_done evs <= count_of is_eval_step evs).
  { clear. induction evs as [|e evs IH]; [reflexivity|].
    rewrite !count_of_cons.
    destruct e; count_kinds; try lia.
    match goal with |- context [if ?d then _ else _] => destruct d end; lia. }
  assert (Hnone : forall p,
            (forall e, rollout_event e -> p e = false) ->
            count_of p evs = 0).
  { intros p Hp. apply count_of_none. eapply Forall_impl; [|exact Hroll].
    exact Hp. }
  rewrite A2, A3, A4, A1, A5 in *.
  replace (length - 0) with length in * by lia.
  repeat split; try lia.
  - apply Hnone. intros e He. unfold rollout_event in He.
    destruct e; try discriminate; try reflexivity.
    destruct update; [discriminate | reflexivity].
  - apply Hnone. intros e He. unfold rollout_event in He.
    destruct e; try discriminate; reflexivity.
  - apply Hnone. intros e He. unfold rollout_event in He.
    destruct e; try discriminate; reflexivity.
  - apply Hnone. intros e He. unfold rollout_event in He.
    destruct e; try discriminate; reflexivity.
Qed.

(** X10: a completed [evaluate_policy] runs exactly three episodes: it
    resets the evaluation environment three times and stops each episode at
    its first [done]; it calls [agent.evaluate] once per environment step,
    applies the state normalizer (reading only) once per reset and per step
    when [use_state_norm] is set and never otherwise, makes no call on the
    training environment, and returns as length the number of steps
    divided by three. *)
Theorem evaluate_policy_runs_three_episodes fuel args (w : World)
    (sn : Normalization) w' sn' res (tr : list (Event Params)) :
  evaluate_policy fuel args w sn = Some (w', sn', res, tr) ->
  let steps := count_of is_eval_step tr in
  count_of is_eval_reset tr = 3
  /\ count_of is_eval_done tr = 3
  /\ 3 <= steps
  /\ count_of is_evaluate tr = steps
  /\ count_of is_norm_read tr
     = (if use_state_norm args then 3 + steps else 0)
  /\ count_of is_norm_update tr = 0
  /\ count_of is_env_step tr = 0 /\ count_of is_env_reset tr = 0
  /\ count_of is_store tr = 0
  /\ snd res = (Z2F steps / Z2F 3)%float.
Proof. apply evaluate_policy_counts. Qed.

(** *** Counting the calls of a run *)

Lemma evaluate_if_due_counts fuel args w sn ts prev mr w' sn' prev' mr'
    (ev : list (Event Params)) :
  evaluate_if_due fuel args w sn ts prev mr = Ok (w', sn', prev', mr', ev) ->
  let due := Qle_bool (evaluate_freq args) (inject_Z (ts - prev)) in
  count_of is_store ev = 0
  /\ count_of is_env_step ev = 0
  /\ count_of is_choose_action ev = 0
  /\ count_of is_env_reset ev = 0
  /\ count_of is_norm_update ev = 0
  /\ count_of is_eval_end ev = (if due then 1 else 0)
  /\ count_of is_checkpoint ev = (if due then 1 else 0)
  /\ count_of is_eval_reset ev = (if due then 3 else 0)
  /\ count_of is_norm_read ev
     = (if use_state_norm args
        then count_of is_eval_reset ev + count_of is_eval_step ev else 0)
  /\ prev' = (if due then ts else prev).
Proof.
  intros H due. subst due.
  apply evaluate_if_due_inv in H
    as [[Hdue [reward [length [tr [Hp [-> [_ ->]]]]]]]
       | [Hdue [_ [_ [-> [_ ->]]]]]]; rewrite Hdue.
  - pose proof Hp as Hroll. apply evaluate_policy_inv in Hroll as [_ Hroll].
    apply evaluate_policy_counts in Hp.
    cbv zeta in Hp.
    destruct Hp as (A1 & A2 & A3 & A4 & A5 & A6 & A7 & A8 & A9 & _).
    assert (Hch : count_of is_choose_action tr = 0).
    { apply count_of_none. eapply Forall_impl; [|exact Hroll].
      intros e He. unfold rollout_event in He.
      destruct e; try discriminate; reflexivity. }
    assert (Hee : count_of is_eval_end tr = 0).
    { apply count_of_none. eapply Forall_impl; [|exact Hroll].
      intros e He. unfold rollout_event in He.
      destruct e; try discriminate; reflexivity. }
    assert (Hck : count_of is_checkpoint tr = 0).
    { apply count_of_none. eapply Forall_impl; [|exact Hroll].
      intros e He. unfold rollout_event in He.
      destruct e; try discriminate; reflexivity. }
    count_split.
    rewrite A1, A5, A6, A7, A8, A9, Hch, Hee, Hck.
    destruct (PrimFloat.leb mr reward); count_split; count_kinds;
      destruct (use_state_norm args); repeat split; lia.
  - count_split. destruct (use_state_norm args); repeat split; reflexivity.
Qed.

(** The counts that hold at every test of a loop. *)
Definition count_inv (args : Args) (l : Locals World Params) : Prop :=
  let tr := trace l in
  count_of is_store tr = total_steps l
  /\ count_of is_env_step tr = total_steps l
  /\ count_of is_choose_action tr = total_steps l
  /\ count_of is_norm_update tr
     = (if use_state_norm args
        then count_of is_env_reset tr + total_steps l else 0)
  /\ count_of is_norm_read tr
     = (if use_state_norm args
        then count_of is_eval_reset tr + count_of is_eval_step tr else 0)
  /\ count_of is_checkpoint tr = count_of is_eval_end tr
  /\ count_of is_eval_reset tr = 3 * count_of is_eval_end tr
  /\ 0 <= prev_total_steps l <= total_steps l.

Lemma count_inv_start args l l' :
  count_inv args l -> episode_start args l = Ok l' -> count_inv args l'.
Proof.
  intros (H1 & H2 & H3 & H4 & H5 & H6 & H7 & H8) H.
  apply episode_start_inv in H
    as (w & s0 & sn & s1 & ev_norm & rs' & ev_reset & _ & Hn & Hrs & ->).
  assert (Hreset : ev_reset = [] \/ ev_reset = [E_reward_scaling_reset]).
  { destruct (use_reward_scaling args).
    - destruct Hrs as [rs [_ [_ ->]]]. right; reflexivity.
    - destruct Hrs as [_ ->]. left; reflexivity. }
  unfold count_inv; cbn [trace total_steps prev_total_steps].
  apply norm_if_inv in Hn as [[Hu [_ ->]] | [Hu [_ [_ ->]]]];
    rewrite Hu in *; destruct Hreset as [-> | ->];
    count_split; count_kinds; repeat split; lia.
Qed.

Lemma count_inv_body fuel args l l' :
  count_inv args l -> inner_body fuel args l = Ok l' -> count_inv args l'.
Proof.
  intros (H1 & H2 & H3 & H4 & H5 & H6 & H7 & H8) H.
  apply inner_body_inv in H
    as (w1 & a & lp & w2 & s_0 & r0 & d & sn1 & s_ & ev_norm & rn & rs & r
        & ev_reward & b & w3 & b' & ev_update & w4 & sn2 & prev' & mr'
        & ev_eval & _ & _ & Hn & Ht & _ & Hu & Hv & ->).
  apply evaluate_if_due_counts in Hv. cbv zeta in Hv.
  destruct Hv as (E1 & E2 & E3 & E4 & E5 & E6 & E7 & E8 & E9 & ->).
  assert (Hreward : ev_reward = [] \/ (exists x, ev_reward = [E_reward_norm x])
                    \/ exists x, ev_reward = [E_reward_scaling x]).
  { apply transform_reward_inv in Ht.
    destruct (expected_transform args) as [[|]|].
    - destruct Ht as [n0 [_ [_ [_ [_ ->]]]]]. right; left; eexists; reflexivity.
    - destruct Ht as [sc [_ [_ [_ [_ ->]]]]]. right; right; eexists; reflexivity.
    - destruct Ht as [_ [_ [_ ->]]]. left; reflexivity. }
  assert (Hupdate : ev_update = []
                    \/ exists batch al cl ts el,
                         ev_update = [E_update batch ts;
                                      E_log_update al cl ts el;
                                      E_set_count_zero]).
  { apply update_if_full_inv in Hu
      as [[_ [_ [al [cl [_ ->]]]]] | [_ [_ [_ ->]]]];
      [right; do 5 eexists; reflexivity | left; reflexivity]. }
  unfold count_inv; cbn [trace total_steps prev_total_steps].
  set (due := Qle_bool _ _) in *.
  apply norm_if_inv in Hn as [[Hus [_ ->]] | [Hus [_ [_ ->]]]];
    rewrite Hus in *;
    destruct Hreward as [-> | [[x ->] | [x ->]]];
    destruct Hupdate as [-> | (batch & al & cl & ts & el & ->)];
    count_split; rewrite ?E1, ?E2, ?E3, ?E4, ?E5, ?E6, ?E7, ?E9;
    count_kinds; destruct due; repeat split; lia.
Qed.

Lemma count_inv_reachable fuel args (w : World) n pc l :
  run fuel args n (AtOuterWhile, main_init args w) = Ok (pc, l) ->
  count_inv args l.
Proof.
  intros H. eapply (locals_ind (count_inv args)); [| | |exact H].
  - unfold count_inv; cbn [main_init trace total_steps prev_total_steps].
    rewrite !count_of_nil. destruct (use_state_norm args); repeat split; lia.
  - intros l1 l2 Hi He. eapply count_inv_start; eassumption.
  - intros l1 l2 Hi _ Hb. eapply count_inv_body; eassumption.
Qed.

(** X11: [total_steps] counts the steps of the training environment: at
    every test of a loop it is the number of [choose_action] calls, of
    [env.step] calls and of stores made so far; [prev_total_steps] never
    exceeds it; every evaluation is followed by one checkpoint, and runs
    three evaluation episodes. *)
Theorem total_steps_counts_every_step fuel args0 (w : World) n pc l :
  main fuel args0 w n = Ok (pc, l) ->
  count_of is_choose_action (trace l) = total_steps l
  /\ count_of is_env_step (trace l) = total_steps l
  /\ count_of is_store (trace l) = total_steps l
  /\ 0 <= prev_total_steps l <= total_steps l
  /\ count_of is_checkpoint (trace l) = count_of is_eval_end (trace l)
  /\ count_of is_eval_reset (trace l) = 3 * count_of is_eval_end (trace l).
Proof.
  intros H. unfold main in H.
  apply count_inv_reachable in H
    as (H1 & H2 & H3 & H4 & H5 & H6 & H7 & H8).
  repeat split; try assumption; lia.
Qed.

(** X12: the state normalizer is applied with an update exactly once per
    reset and per step of the training environment when [use_state_norm]
    is set, and without an update exactly once per reset and per step of
    the evaluation environment; when [use_state_norm] is not set it is
    never applied. *)
Theorem state_norm_once_per_observation fuel args0 (w : World) n pc l :
  main fuel args0 w n = Ok (pc, l) ->
  let tr := trace l in
  count_of is_norm_update tr
  = (if use_state_norm args0
     then count_of is_env_reset tr + count_of is_env_step tr else 0)
  /\ count_of is_norm_read tr
     = (if use_state_norm args0
        then count_of is_eval_reset tr + count_of is_eval_step tr else 0).
Proof.
  intros H tr. unfold main in H.
  apply count_inv_reachable in H
    as (H1 & H2 & H3 & H4 & H5 & H6 & H7 & H8).
  change (use_state_norm (setup_args args0 w))
    with (use_state_norm args0) in H4, H5.
  subst tr. rewrite H2. split; assumption.
Qed.

(** *** The evaluation schedule *)

Lemma Qle_bool_inject_Z (k d : Z) :
  Qle_bool (inject_Z k) (inject_Z d) = (k <=? d).
Proof. unfold Qle_bool, inject_Z. simpl. rewrite !Z.mul_1_r. reflexivity. Qed.

Definition schedule_inv (k : Z) (l : Locals World Params) : Prop :=
  0 <= total_steps l
  /\ prev_total_steps l = k * (total_steps l / k)
  /\ count_of is_eval_end (trace l) = total_steps l / k.

Lemma schedule_inv_body fuel args k l l' :
  0 < k -> evaluate_freq args = inject_Z k ->
  schedule_inv k l -> inner_body fuel args l = Ok l' -> schedule_inv k l'.
Proof.
  intros Hk Hf (Hts & Hprev & Hcnt) H.
  pose proof (count_inv_body fuel args l l') as Hci.
  apply inner_body_inv in H
    as (w1 & a & lp & w2 & s_0 & r0 & d & sn1 & s_ & ev_norm & rn & rs & r
        & ev_reward & b & w3 & b' & ev_update & w4 & sn2 & prev' & mr'
        & ev_eval & _ & _ & Hn & Ht & _ & Hu & Hv & ->).
  apply evaluate_if_due_counts in Hv. cbv zeta in Hv.
  destruct Hv as (_ & _ & _ & _ & _ & E6 & _ & _ & _ & ->).
  rewrite Hf, Qle_bool_inject_Z in E6 |- *.
  assert (Hn0 : count_of is_eval_end ev_norm = 0).
  { apply count_of_none. apply norm_if_training in Hn.
    eapply Forall_impl; [|exact Hn].
    intros e He. destruct e; try discriminate; reflexivity. }
  assert (Hr0 : count_of is_eval_end ev_reward = 0).
  { apply count_of_none. apply transform_reward_training in Ht.
    eapply Forall_impl; [|exact Ht].
    intros e He. destruct e; try discriminate; reflexivity. }
  assert (Hu0 : count_of is_eval_end ev_update = 0).
  { apply count_of_none. apply update_if_full_training in Hu.
    eapply Forall_impl; [|exact Hu].
    intros e He. destruct e; try discriminate; reflexivity. }
  unfold schedule_inv; cbn [trace total_steps prev_total_steps].
  assert (Hcount :
    count_of is_eval_end
      (trace l ++ [E_choose_action (s l) a lp; E_env_step a r0 d]
       ++ ev_norm ++ ev_reward
       ++ [E_store
             (mkTransition (s l) a lp r s_
                (if d && negb (episode_steps l + 1 =? max_episode_steps args)
                 then true else false) d)
             (episode_steps l + 1) (count b)]
       ++ ev_update ++ ev_eval)
    = total_steps l / k
      + (if k <=? total_steps l + 1 - prev_total_steps l then 1 else 0)).
  { count_split. rewrite Hcnt, Hn0, Hr0, Hu0, E6. count_kinds. lia. }
  rewrite Hcount.
  pose proof (Z.mod_pos_bound (total_steps l) k Hk) as Hmod.
  pose proof (Z.div_mod (total_steps l) k ltac:(lia)) as Hdm.
  destruct (Z.leb_spec k (total_steps l + 1 - prev_total_steps l)) as [Hle|Hgt].
  - assert (Hfull : total_steps l mod k + 1 = k) by lia.
    destruct (succ_full k (total_steps l) _ Hk eq_refl Hfull) as [Hm Hd].
    split; [lia|]. split; [|lia].
    rewrite <- Hd.
    pose proof (Z.div_mod (total_steps l + 1) k ltac:(lia)). lia.
  - assert (Hpart : total_steps l mod k + 1 < k) by lia.
    destruct (succ_below k (total_steps l) _ Hk eq_refl Hpart) as [Hm Hd].
    split; [lia|]. split; [|lia].
    rewrite <- Hd. exact Hprev.
Qed.

(** X13: when [evaluate_freq] is a positive whole number k, the policy is
    evaluated exactly when [total_steps] reaches a multiple of k: at every
    test of a loop the number of evaluations so far is total_steps / k and
    [prev_total_steps] is the last multiple of k not above
    [total_steps]. *)
Theorem evaluation_at_multiples_of_freq fuel args0 (w : World) k n pc l :
  0 < k -> evaluate_freq args0 = inject_Z k ->
  main fuel args0 w n = Ok (pc, l) ->
  count_of is_eval_end (trace l) = total_steps l / k
  /\ prev_total_steps l = k * (total_steps l / k)
  /\ total_steps l - prev_total_steps l = total_steps l mod k.
Proof.
  intros Hk Hf H. unfold main in H.
  assert (Hi : schedule_inv k l).
  { eapply (locals_ind (schedule_inv k)); [| | |exact H].
    - unfold schedule_inv; cbn [main_init trace total_steps prev_total_steps].
      rewrite Z.div_0_l by lia. repeat split; try lia; reflexivity.
    - intros l1 l2 (Hts & Hprev & Hcnt) He.
      apply episode_start_inv in He
        as (w1 & s0 & sn & s1 & ev_norm & rs' & ev_reset & _ & Hn & Hrs & ->).
      unfold schedule_inv; cbn [trace total_steps prev_total_steps].
      split; [exact Hts|]. split; [exact Hprev|].
      rewrite count_of_app, Hcnt.
      rewrite (count_of_none is_eval_end ([E_env_reset] ++ ev_norm ++ ev_reset));
        [lia|].
      constructor; [reflexivity|]. apply Forall_app. split.
      + apply norm_if_training in Hn. eapply Forall_impl; [|exact Hn].
        intros e He. destruct e; try discriminate; reflexivity.
      + destruct (use_reward_scaling (setup_args args0 w)).
        * destruct Hrs as [rs [_ [_ ->]]]. repeat constructor.
        * destruct Hrs as [_ ->]. constructor.
    - intros l1 l2 Hi _ Hb.
      eapply (schedule_inv_body fuel (setup_args args0 w)); eassumption. }
  destruct Hi as (Hts & Hprev & Hcnt).
  split; [exact Hcnt|]. split; [exact Hprev|].
  pose proof (Z.div_mod (total_steps l) k ltac:(lia)). lia.
Qed.

(** *** The chain of states *)

Lemma chain_run_app st t1 st1 t2 st2 :
  chain_run (Params := Params) st t1 st1 -> chain_run st1 t2 st2 ->
  chain_run st (t1 ++ t2) st2.
Proof.
  revert st. induction t1 as [|e t1 IH]; intros st H1 H2; simpl in *.
  - subst st1. exact H2.
  - destruct H1 as [m [Hs Hr]]. exists m. split; [exact Hs|].
    apply IH; assumption.
Qed.

Lemma chain_run_neutral st (tr : list (Event Params)) :
  Forall (fun e => is_env_reset e = false /\ is_choose_action e = false
                   /\ is_store e = false) tr ->
  chain_run st tr st.
Proof.
  induction 1 as [|e tr He _ IH]; simpl; [reflexivity|].
  exists st. split; [|exact IH].
  destruct He as (H1 & H2 & H3). destruct e; try discriminate; reflexivity.
Qed.

Lemma chain_neutral_norm (tr : list (Event Params)) :
  Forall (fun e => norm_event e = true) tr ->
  Forall (fun e => is_env_reset e = false /\ is_choose_action e = false
                   /\ is_store e = false) tr.
Proof.
  intros H. eapply Forall_impl; [|exact H].
  intros e He. destruct e; try discriminate; repeat split.
Qed.

Lemma chain_neutral_eval (tr : list (Event Params)) :
  Forall (fun e => eval_phase_event e = true) tr ->
  Forall (fun e => is_env_reset e = false /\ is_choose_action e = false
                   /\ is_store e = false) tr.
Proof.
  intros H. eapply Forall_impl; [|exact H].
  intros e He. destruct e; try discriminate; repeat split.
Qed.

Definition chain_inv (l : Locals World Params) : Prop :=
  exists st, chain_run None (trace l) st /\ (st = None \/ st = Some (s l)).

Lemma chain_inv_start args l l' :
  chain_inv l -> episode_start args l = Ok l' -> chain_inv l'.
Proof.
  intros [st [Hrun _]] H.
  apply episode_start_inv in H
    as (w & s0 & sn & s1 & ev_norm & rs' & ev_reset & _ & Hn & Hrs & ->).
  apply norm_if_events in Hn.
  exists None. split; [|left; reflexivity]. cbn [trace].
  apply (chain_run_app _ (trace l) st); [exact Hrun|].
  apply (chain_run_app _ [E_env_reset] None).
  { simpl. exists None. split; reflexivity. }
  apply (chain_run_app _ ev_norm None).
  { apply chain_run_neutral, chain_neutral_norm. exact Hn. }
  destruct (use_reward_scaling args).
  - destruct Hrs as [rs [_ [_ ->]]]. simpl. exists None. split; reflexivity.
  - destruct Hrs as [_ ->]. reflexivity.
Qed.

Lemma chain_inv_body fuel args l l' :
  chain_inv l -> inner_body fuel args l = Ok l' -> chain_inv l'.
Proof.
  intros [st [Hrun Hst]] H.
  apply inner_body_inv in H
    as (w1 & a & lp & w2 & s_0 & r0 & d & sn1 & s_ & ev_norm & rn & rs & r
        & ev_reward & b & w3 & b' & ev_update & w4 & sn2 & prev' & mr'
        & ev_eval & _ & _ & Hn & Ht & _ & Hu & Hv & ->).
  apply norm_if_events in Hn. apply evaluate_if_due_events in Hv.
  exists (Some s_). split; [|right; reflexivity]. cbn [trace].
  apply (chain_run_app _ (trace l) st); [exact Hrun|].
  apply (chain_run_app _ [E_choose_action (s l) a lp; E_env_step a r0 d]
           (Some (s l))).
  { simpl. exists (Some (s l)). split.
    - split; [|reflexivity].
      destruct Hst as [-> | ->]; [exact I | reflexivity].
    - exists (Some (s l)). split; reflexivity. }
  apply (chain_run_app _ ev_norm (Some (s l))).
  { apply chain_run_neutral, chain_neutral_norm. exact Hn. }
  apply (chain_run_app _ ev_reward (Some (s l))).
  { apply chain_run_neutral. apply transform_reward_inv in Ht.
    destruct (expected_transform args) as [[|]|].
    - destruct Ht as [n0 [_ [_ [_ [_ ->]]]]]. repeat constructor.
    - destruct Ht as [sc [_ [_ [_ [_ ->]]]]]. repeat constructor.
    - destruct Ht as [_ [_ [_ ->]]]. constructor. }
  apply (chain_run_app _ [E_store _ _ _] (Some s_)).
  { simpl. exists (Some s_). split; [|reflexivity]. split; reflexivity. }
  apply (chain_run_app _ ev_update (Some s_)).
  { apply chain_run_neutral. apply update_if_full_inv in Hu
      as [[_ [_ [al [cl [_ ->]]]]] | [_ [_ [_ ->]]]]; repeat constructor. }
  apply chain_run_neutral, chain_neutral_eval. exact Hv.
Qed.

(** X14: the states of an episode form a chain. The first state is the
    observation of [env.reset], normalized when [use_state_norm] is set.
    Each step chooses its action on the current state [s] and stores a
    transition from [s] to the observation of [env.step] (normalized
    likewise), which becomes the current state. In the trace, an action is
    chosen on the next state of the store before it in the same episode,
    every store takes the state on which the action of its step was chosen,
    and at a test of a loop [s] is the next state of the last store of the
    running episode. *)
Theorem stored_states_chain fuel args0 (w : World) n pc l :
  main fuel args0 w n = Ok (pc, l) ->
  let args := setup_args args0 w in
  (exists st,
     chain_run None (trace l) st /\ (st = None \/ st = Some (s l)))
  /\ (forall l',
        episode_start args l = Ok l' ->
        exists w1 s0 sn (ev : list (Event Params)),
          env_reset (world l) = (w1, s0)
          /\ norm_if (use_state_norm args) (state_norm l) s0 true
             = (sn, s l', ev))
  /\ (forall l',
        inner_body fuel args l = Ok l' ->
        exists w1 a lp w2 s_0 r0 d sn (ev : list (Event Params)) t es c
               mid rest,
          agent_choose_action (world l) (s l) = (w1, (a, lp))
          /\ env_step w1 a = (w2, (s_0, r0, d))
          /\ norm_if (use_state_norm args) (state_norm l) s_0 true
             = (sn, s l', ev)
          /\ trace l' = trace l ++ E_choose_action (s l) a lp :: mid
                                ++ E_store t es c :: rest
          /\ tr_s t = s l /\ tr_s_ t = s l').
Proof.
  intros H args. unfold main in H. fold args in H.
  split; [|split].
  - change (chain_inv l).
    eapply (locals_ind chain_inv); [| | |exact H].
    + exists None. split; [reflexivity | left; reflexivity].
    + intros l1 l2 Hi He. eapply chain_inv_start; eassumption.
    + intros l1 l2 Hi _ Hb. eapply chain_inv_body; eassumption.
  - intros l' He. apply episode_start_inv in He
      as (w1 & s0 & sn & s1 & ev_norm & rs' & ev_reset & Hr & Hn & _ & ->).
    exists w1, s0, sn, ev_norm. split; [exact Hr | exact Hn].
  - intros l' Hb. apply inner_body_inv in Hb
      as (w1 & a & lp & w2 & s_0 & r0 & d & sn1 & s_ & ev_norm & rn & rs & r
          & ev_reward & b & w3 & b' & ev_update & w4 & sn2 & prev' & mr'
          & ev_eval & Ha & Hs & Hn & _ & _ & _ & _ & ->).
    exists w1, a, lp, w2, s_0, r0, d, sn1, ev_norm.
    eexists _, _, _, ([E_env_step a r0 d] ++ ev_norm ++ ev_reward),
      (ev_update ++ ev_eval).
    split; [exact Ha|]. split; [exact Hs|]. split; [exact Hn|].
    cbn [trace s].
    split; [rewrite <- !app_assoc; reflexivity|].
    split; reflexivity.
Qed.

(** *** The best evaluation reward *)

(** The order of binary64 values behind Python's [>=]: it is transitive,
    total on the values that are not NaN, and NaN is below and above
    nothing. *)
Lemma compare_cont_Eq (a b : positive) :
  Pos.compare_cont Eq a b = Pos.compare a b.
Proof. reflexivity. Qed.

Lemma SFleb_trans (x y z : SpecFloat.spec_float) :
  SpecFloat.SFleb x y = true -> SpecFloat.SFleb y z = true ->
  SpecFloat.SFleb x z = true.
Proof.
  unfold SpecFloat.SFleb.
  destruct x as [sx|sx| |sx mx ex], y as [sy|sy| |sy my ey],
    z as [sz|sz| |sz mz ez];
    repeat match goal with s : bool |- _ => destruct s end;
    simpl; try discriminate; try reflexivity; intros H1 H2;
    rewrite ?compare_cont_Eq in *;
    repeat match goal with
    | |- context [Z.compare ?a ?b] => destruct (Z.compare_spec a b)
    | H : context [Z.compare ?a ?b] |- _ => destruct (Z.compare_spec a b)
    | |- context [Pos.compare ?a ?b] => destruct (Pos.compare_spec a b)
    | H : context [Pos.compare ?a ?b] |- _ => destruct (Pos.compare_spec a b)
    end;
    simpl in *; try discriminate; try reflexivity; try lia.
Qed.

Lemma SFleb_not_nan (x y : SpecFloat.spec_float) :
  SpecFloat.SFleb x y = true ->
  SpecFloat.SFleb x x = true /\ SpecFloat.SFleb y y = true.
Proof.
  unfold SpecFloat.SFleb.
  destruct x as [sx|sx| |sx mx ex], y as [sy|sy| |sy my ey];
    repeat match goal with s : bool |- _ => destruct s end;
    simpl; try discriminate; try reflexivity; intros H1; split;
    rewrite ?compare_cont_Eq in *;
    repeat match goal with
    | |- context [Z.compare ?a ?b] => destruct (Z.compare_spec a b)
    | |- context [Pos.compare ?a ?b] => destruct (Pos.compare_spec a b)
    end;
    simpl in *; try discriminate; try reflexivity; try lia.
Qed.

Lemma SFleb_total (x y : SpecFloat.spec_float) :
  SpecFloat.SFleb x x = true -> SpecFloat.SFleb y y = true ->
  SpecFloat.SFleb x y = true \/ SpecFloat.SFleb y x = true.
Proof.
  unfold SpecFloat.SFleb.
  destruct x as [sx|sx| |sx mx ex], y as [sy|sy| |sy my ey];
    repeat match goal with s : bool |- _ => destruct s end;
    simpl; try discriminate; try reflexivity;
    intros _ _; try (left; reflexivity); try (right; reflexivity);
    fold (Pos.compare mx my); fold (Pos.compare my mx);
    rewrite (Z.compare_antisym ex ey), (Pos.compare_antisym mx my);
    destruct (ex ?= ey)%Z, (mx ?= my)%positive; cbn [CompOpp];
    try (left; reflexivity); try (right; reflexivity).
Qed.

Lemma leb_trans (a b c : float) :
  PrimFloat.leb a b = true -> PrimFloat.leb b c = true ->
  PrimFloat.leb a c = true.
Proof. rewrite !FloatAxioms.leb_spec. apply SFleb_trans. Qed.

Lemma leb_not_nan (a b : float) :
  PrimFloat.leb a b = true ->
  PrimFloat.leb a a = true /\ PrimFloat.leb b b = true.
Proof. rewrite !FloatAxioms.leb_spec. apply SFleb_not_nan. Qed.

Lemma leb_total (a b : float) :
  PrimFloat.leb a a = true -> PrimFloat.leb b b = true ->
  PrimFloat.leb a b = true \/ PrimFloat.leb b a = true.
Proof. rewrite !FloatAxioms.leb_spec. apply SFleb_total. Qed.

Lemma eval_rewards_app (t1 t2 : list (Event Params)) :
  eval_rewards (t1 ++ t2) = eval_rewards t1 ++ eval_rewards t2.
Proof.
  induction t1 as [|e t1 IH]; [reflexivity|].
  destruct e; simpl; rewrite ?IH; reflexivity.
Qed.

Lemma eval_rewards_none (tr : list (Event Params)) :
  Forall (fun e => is_eval_end e = false) tr -> eval_rewards tr = [].
Proof.
  induction 1 as [|e tr He _ IH]; [reflexivity|].
  destruct e; try discriminate; simpl; exact IH.
Qed.

(** [max_reward] is not NaN, it is minus infinity or the reward of an
    evaluation, and no reward of an evaluation that is a number is above
    it. *)
Definition best_inv (l : Locals World Params) : Prop :=
  let rewards := eval_rewards (trace l) in
  PrimFloat.leb (max_reward l) (max_reward l) = true
  /\ (max_reward l = neg_infinity \/ In (max_reward l) rewards)
  /\ forall r, In r rewards -> PrimFloat.leb r r = true ->
               PrimFloat.leb r (max_reward l) = true.

Lemma best_inv_start args l l' :
  best_inv l -> episode_start args l = Ok l' -> best_inv l'.
Proof.
  intros Hi H. apply episode_start_trace in H as (head & Hh & Hm & Ht).
  unfold best_inv in *. rewrite Hm, Ht, eval_rewards_app.
  rewrite (eval_rewards_none head), app_nil_r; [exact Hi|].
  eapply Forall_impl; [|exact Hh].
  intros e He. destruct e; try discriminate; reflexivity.
Qed.

Lemma best_inv_body fuel args l l' :
  best_inv l -> inner_body fuel args l = Ok l' -> best_inv l'.
Proof.
  intros (Hnan & Hin & Hmax) H.
  apply inner_body_trace in H
    as (head & w3 & sn1 & ev_eval & Hh & Hv & _ & Ht).
  assert (Hhead : eval_rewards head = []).
  { apply eval_rewards_none. eapply Forall_impl; [|exact Hh].
    intros e He. destruct e; try discriminate; reflexivity. }
  unfold best_inv. rewrite Ht, !eval_rewards_app, Hhead. cbn [app].
  apply evaluate_if_due_inv in Hv
    as [[_ [reward [length [tr [Hp [_ [-> ->]]]]]]]
       | [_ [_ [_ [_ [-> ->]]]]]].
  2:{ cbn [eval_rewards]. rewrite app_nil_r.
      split; [exact Hnan|]. split; [exact Hin | exact Hmax]. }
  apply evaluate_policy_inv in Hp as [_ Hroll].
  assert (Htr : eval_rewards tr = []).
  { apply eval_rewards_none. eapply Forall_impl; [|exact Hroll].
    intros e He. unfold rollout_event in He.
    destruct e; try discriminate; reflexivity. }
  assert (Hev :
    eval_rewards
      ([E_eval_begin] ++ tr ++ [E_eval_end reward length]
       ++ (if PrimFloat.leb (max_reward l) reward
           then [E_save_best (actor_state_dict (world l'))] else [])
       ++ [E_log_eval reward length (total_steps l + 1)
             (seconds_elapsed (world l'));
           E_save_checkpoint (total_steps l + 1)
             (actor_state_dict (world l')) (critic_state_dict (world l'))
             (optimizer_actor_state_dict (world l'))
             (optimizer_critic_state_dict (world l'))])
    = [reward]).
  { rewrite !eval_rewards_app, Htr.
    destruct (PrimFloat.leb (max_reward l) reward); reflexivity. }
  rewrite Hev.
  destruct (PrimFloat.leb (max_reward l) reward) eqn:Hle.
  - apply leb_not_nan in Hle as Hnn. destruct Hnn as [_ Hrr].
    split; [exact Hrr|]. split; [right; apply in_or_app; right; left; reflexivity|].
    intros r Hr Hnum. apply in_app_or in Hr as [Hr | [<- | []]].
    + eapply leb_trans; [apply Hmax; assumption | exact Hle].
    + exact Hnum.
  - split; [exact Hnan|]. split.
    + destruct Hin as [Hin | Hin]; [left; exact Hin|].
      right. apply in_or_app. left. exact Hin.
    + intros r Hr Hnum. apply in_app_or in Hr as [Hr | [<- | []]].
      * apply Hmax; assumption.
      * destruct (leb_total (max_reward l) reward Hnan Hnum) as [H1 | H1];
          [rewrite H1 in Hle; discriminate | exact H1].
Qed.

(** X15: [max_reward] is the best evaluation reward so far: it is never
    NaN; it is minus infinity or the reward of an evaluation of the run;
    and every evaluation reward of the run that is not NaN is at most
    [max_reward]. *)
Theorem max_reward_is_best_evaluation fuel args0 (w : World) n pc l :
  main fuel args0 w n = Ok (pc, l) ->
  let rewards := eval_rewards (trace l) in
  PrimFloat.leb (max_reward l) (max_reward l) = true
  /\ (max_reward l = neg_infinity \/ In (max_reward l) rewards)
  /\ forall r, In r rewards -> PrimFloat.leb r r = true ->
               PrimFloat.leb r (max_reward l) = true.
Proof.
  intros H. unfold main in H. change (best_inv l).
  eapply (locals_ind best_inv); [| | |exact H].
  - unfold best_inv; cbn [main_init max_reward trace eval_rewards].
    split; [reflexivity|]. split; [left; reflexivity|]. intros r [].
  - intros l1 l2 Hi He. eapply best_inv_start; eassumption.
  - intros l1 l2 Hi _ Hb. eapply best_inv_body; eassumption.
Qed.

End LoopFurther.

(** ** Further concrete runs *)

Section FurtherRuns.
Import PPOMain Traces Mock Counting.
Local Open Scope Z_scope.

(** A bounded actor with a fixed standard deviation of one, sampling with
    log-probabilities. *)
Lemma stochastic_forward_returns_with_positive_std_run :
  let self := CnnActor.Stochastic_Actor_init 2 2 None true
                (Some mock_fixed_std)
                (fun _ _ => 1%R) (fun _ => 0%R) (fun _ _ => 0%R) (fun _ => 0%R)
  in
  exists mu sd action lp,
    CnnActor._get_dist_params unit unit (fun s _ => s) (fun s => s)
      mock_base_forward self tt false = Some (mu, sd)
    /\ (forall i j,
          (0 < CnnActor.entry
                 (CnnActor.scale (CnnActor.Normal_init mu sd)) i j)%R)
    /\ CnnActor.stochastic_forward unit unit (fun s _ => s) (fun s => s)
         mock_base_forward self tt false false true (fun _ _ => 1%R)
       = Some (action, lp)
    /\ CnnActor.rows action = 1%nat /\ CnnActor.cols action = 2%nat
    /\ match lp with
       | Some t =>
           true = true /\ CnnActor.rows t = 1%nat /\ CnnActor.cols t = 1%nat
       | None => true = false
       end.
Proof.
  apply (stochastic_forward_returns_with_positive_std unit unit
           (fun s _ => s) (fun s => s) mock_base_forward 2 2 None true
           (Some mock_fixed_std)).
  intros i j. simpl. apply Rlt_0_1.
Defined.

(** A budget of 5 steps with episodes of 10 steps: the run returns after
    the first episode, with 10 steps taken. *)
Lemma budget_checked_between_episodes_run :
  exists l,
    main (C := mock 10 10) 5 (mock_args 5 1000 64 false false false) 0 13
    = Ok (Returned, l)
    /\ total_steps l = 10
    /\ 0 <= episode_steps l <= total_steps l
    /\ 5 <= total_steps l
    /\ ((trace l = [] /\ total_steps l = 0)
        \/ (done l = true /\ total_steps l < 5 + episode_steps l)).
Proof.
  eexists. split; [vm_compute; reflexivity|]. split; [reflexivity|].
  pose proof (budget_checked_between_episodes (C := mock 10 10) 5
                (mock_args 5 1000 64 false false false) 0 13 _ _
                ltac:(vm_compute; reflexivity)) as H.
  cbv zeta in H. destruct H as (H1 & _ & H3).
  split; [exact H1|]. exact (H3 eq_refl).
Defined.

(** Reward scaling alone, a batch of four, evaluation every three steps. *)
Lemma no_exception_with_one_reward_option_run :
  (forall e,
     main (C := mock 10 10) 5 (mock_args 100 3 4 true false true) 0 30
     <> Raise e)
  /\ exists c,
       main (C := mock 10 10) 5 (mock_args 100 3 4 true false true) 0 30
       = Ok c.
Proof.
  split.
  - exact (no_exception_with_one_reward_option (C := mock 10 10) 5
             (mock_args 100 3 4 true false true) 0 30
             ltac:(reflexivity) ltac:(reflexivity)).
  - eexists. vm_compute. reflexivity.
Defined.

Lemma evaluate_policy_runs_three_episodes_run :
  exists w' sn' res tr,
    evaluate_policy (C := mock 10 10) 5
      (mock_args 1000 1 64 true false false) 0 (Normalization_init 1)
    = Some (w', sn', res, tr)
    /\ count_of is_eval_reset tr = 3
    /\ count_of is_eval_done tr = 3
    /\ count_of is_evaluate tr = count_of is_eval_step tr
    /\ count_of is_norm_read tr = 3 + count_of is_eval_step tr
    /\ snd res = (Z2F (count_of is_eval_step tr) / Z2F 3)%float.
Proof.
  eexists _, _, _, _. split; [vm_compute; reflexivity|].
  pose proof (evaluate_policy_runs_three_episodes (C := mock 10 10) 5
                (mock_args 1000 1 64 true false false) 0
                (Normalization_init 1) _ _ _ _
                ltac:(vm_compute; reflexivity)) as H.
  cbv zeta in H.
  destruct H as (H1 & H2 & _ & H4 & H5 & _ & _ & _ & _ & H10).
  split; [exact H1|]. split; [exact H2|]. split; [exact H4|].
  split; [exact H5 | exact H10].
Defined.

Lemma total_steps_counts_every_step_run :
  exists pc l,
    main (C := mock 3 10) 5 (mock_args 100 2 4 true false false) 0 12
    = Ok (pc, l)
    /\ count_of is_choose_action (trace l) = total_steps l
    /\ count_of is_env_step (trace l) = total_steps l
    /\ count_of is_store (trace l) = total_steps l
    /\ 0 <= prev_total_steps l <= total_steps l
    /\ count_of is_checkpoint (trace l) = count_of is_eval_end (trace l)
    /\ count_of is_eval_reset (trace l) = 3 * count_of is_eval_end (trace l).
Proof.
  eexists _, _. split; [vm_compute; reflexivity|].
  exact (total_steps_counts_every_step (C := mock 3 10) 5
           (mock_args 100 2 4 true false false) 0 12 _ _
           ltac:(vm_compute; reflexivity)).
Defined.

Lemma state_norm_once_per_observation_run :
  exists pc l,
    main (C := mock 3 10) 5 (mock_args 100 2 4 true false false) 0 12
    = Ok (pc, l)
    /\ count_of is_norm_update (trace l)
       = count_of is_env_reset (trace l) + count_of is_env_step (trace l)
    /\ count_of is_norm_read (trace l)
       = count_of is_eval_reset (trace l) + count_of is_eval_step (trace l).
Proof.
  eexists _, _. split; [vm_compute; reflexivity|].
  exact (state_norm_once_per_observation (C := mock 3 10) 5
           (mock_args 100 2 4 true false false) 0 12 _ _
           ltac:(vm_compute; reflexivity)).
Defined.

(** An evaluation every two steps: after seven steps, three evaluations. *)
Lemma evaluation_at_multiples_of_freq_run :
  exists pc l,
    main (C := mock 3 10) 5 (mock_args 100 2 4 false false false) 0 12
    = Ok (pc, l)
    /\ total_steps l = 7
    /\ count_of is_eval_end (trace l) = total_steps l / 2
    /\ prev_total_steps l = 2 * (total_steps l / 2)
    /\ total_steps l - prev_total_steps l = total_steps l mod 2.
Proof.
  eexists _, _. split; [vm_compute; reflexivity|]. split; [reflexivity|].
  exact (evaluation_at_multiples_of_freq (C := mock 3 10) 5
           (mock_args 100 2 4 false false false) 0 2 12 _ _
           ltac:(reflexivity) ltac:(reflexivity)
           ltac:(vm_compute; reflexivity)).
Defined.

Lemma stored_states_chain_run :
  exists pc l,
    main (C := mock 3 10) 5 (mock_args 100 2 4 true false false) 0 12
    = Ok (pc, l)
    /\ exists st,
         chain_run None (trace l) st /\ (st = None \/ st = Some (s l)).
Proof.
  eexists _, _. split; [vm_compute; reflexivity|].
  exact (proj1 (stored_states_chain (C := mock 3 10) 5
                  (mock_args 100 2 4 true false false) 0 12 _ _
                  ltac:(vm_compute; reflexivity))).
Defined.

Lemma max_reward_is_best_evaluation_run :
  exists pc l,
    main (C := mock 3 10) 5 (mock_args 100 2 4 false false false) 0 12
    = Ok (pc, l)
    /\ max_reward l = 1%float
    /\ PrimFloat.leb (max_reward l) (max_reward l) = true
    /\ (max_reward l = neg_infinity
        \/ In (max_reward l) (eval_rewards (trace l)))
    /\ forall r, In r (eval_rewards (trace l)) ->
                 PrimFloat.leb r r = true ->
                 PrimFloat.leb r (max_reward l) = true.
Proof.
  eexists _, _. split; [vm_compute; reflexivity|]. split; [reflexivity|].
  exact (max_reward_is_best_evaluation (C := mock 3 10) 5
           (mock_args 100 2 4 false false false) 0 12 _ _
           ltac:(vm_compute; reflexivity)).
Defined.

End FurtherRuns.
